(** * MixEn content script: dictionary-driven segmentation and replacement

    A shallow embedding of [src/content.ts]: the dictionary store, the
    forward-maximum-matching segmenter, the sampling selector, the
    spacing-aware renderer with its revert, and the blacklist pattern
    compiler, together with the properties the specification states
    about them.  Further parts cover the settings the options page
    ([src/options.ts]) stores, the chunks and the index the dictionary
    builder ([tools/build_dict.js]) writes for the content script, and
    the row writer of the CSV export ([tools/export_display_list.js]).

    JavaScript strings are sequences of UTF-16 code units; a string is
    modelled as the list of its code units, so [text.length] is [length],
    [text[i]] is list lookup and [text.slice(i, i + l)] is
    [take l (drop i text)].  Names of DOM tags, attributes, dictionary
    files and bucket ids are plain Rocq strings.

    A Number is an IEEE 754 double: a rational, the result of an
    operation being the exact result rounded to the nearest double
    ([round64]).  The sampling target and the random index are computed
    with that rounding; the share of CJK characters of a text is
    compared with its threshold as an exact fraction. *)

From Stdlib Require Import ZArith QArith Qround Qpower Lia Lqa.
From stdpp Require Import base option list gmap sets strings pretty.

Close Scope Q_scope.
Local Open Scope Z_scope.

(** ** JavaScript strings *)

Abbreviation jsstring := (list Z).

(** An ASCII literal as a JavaScript string. *)
Fixpoint js (s : string) : jsstring :=
  match s with
  | EmptyString => []
  | String a s' => Z.of_N (Ascii.N_of_ascii a) :: js s'
  end.

(** [s.codePointAt(0)]: the first code unit, or the supplementary code
    point when the string starts with a surrogate pair; [None] stands for
    [undefined] (empty string). *)
Definition codePointAt0 (s : jsstring) : option Z :=
  match s with
  | [] => None
  | hi :: rest =>
      if (0xD800 <=? hi) && (hi <=? 0xDBFF) then
        match rest with
        | lo :: _ =>
            if (0xDC00 <=? lo) && (lo <=? 0xDFFF)
            then Some ((hi - 0xD800) * 0x400 + (lo - 0xDC00) + 0x10000)
            else Some hi
        | [] => Some hi
        end
      else Some hi
  end.

(** ECMAScript WhiteSpace and LineTerminator code units: what [trim]
    strips and what the regular expression class [\s] matches. *)
Definition isWhiteSpace (c : Z) : bool :=
  ((9 <=? c) && (c <=? 13)) || (c =? 32) || (c =? 0xA0) || (c =? 0x1680)
  || ((0x2000 <=? c) && (c <=? 0x200A)) || (c =? 0x2028) || (c =? 0x2029)
  || (c =? 0x202F) || (c =? 0x205F) || (c =? 0x3000) || (c =? 0xFEFF).

Fixpoint trimStart (s : jsstring) : jsstring :=
  match s with
  | c :: s' => if isWhiteSpace c then trimStart s' else s
  | [] => []
  end.

Definition trim (s : jsstring) : jsstring :=
  rev (trimStart (rev (trimStart s))).

Definition hasWhiteSpace (s : jsstring) : bool := existsb isWhiteSpace s.

Definition jsstring_eqb (a b : jsstring) : bool := bool_decide (a = b).

Fixpoint startsWith (s p : jsstring) : bool :=
  match p, s with
  | [], _ => true
  | c :: p', d :: s' => (c =? d) && startsWith s' p'
  | _ :: _, [] => false
  end.

Definition endsWith (s p : jsstring) : bool := startsWith (rev s) (rev p).

(** [s.split(/\s+/)]: the pieces between maximal runs of white space,
    with an empty piece at either end when the string starts or ends
    with white space. *)
Fixpoint split_ws_from (cur : jsstring) (inSep : bool) (s : jsstring)
  : list jsstring :=
  match s with
  | [] => [rev cur]
  | c :: s' =>
      if isWhiteSpace c
      then if inSep then split_ws_from cur true s'
           else rev cur :: split_ws_from [] true s'
      else split_ws_from (c :: cur) false s'
  end.

Definition split_ws (s : jsstring) : list jsstring := split_ws_from [] false s.

(** ** Dictionary entries and the store *)

Record Entry := mkEntry {
  en  : option (list jsstring);   (* senses; [None] when the field is missing *)
  py  : jsstring;
  tag : string;
  pos : option string
}.

Definition isCJK (code : Z) : bool := (0x4E00 <=? code) && (code <=? 0x9FFF).

(** The body of [chooseSense]'s loop:
    [if (s && s.length < best.length) best = s]. *)
Definition pickShorter (best s : jsstring) : jsstring :=
  if negb (bool_decide (s = [])) && (length s <? length best)%nat then s else best.

(** [chooseSense]: the loop starts from the first sense and keeps the
    earliest among equally short ones. *)
Definition chooseSense (entry : Entry) : jsstring :=
  let l := default [] (en entry) in
  match l with
  | [] => []
  | first :: _ => fold_left pickShorter l first
  end.

(** The index of dictionary chunks and a fetched chunk.  A chunk's
    [maxLen] may be absent; an element of [entries] that is not a
    [[word, entry]] pair (destructuring it throws) is [None], and
    [entries] itself is [None] when the field is missing. *)
Record GroupMeta := mkGroupMeta {
  file   : string;
  count  : nat;
  maxLen : nat
}.

Record IndexMeta := mkIndexMeta {
  groupSize : nat;
  groups    : gmap string GroupMeta
}.

(** What [res.json()] gives for the index file: [indexMeta] is assigned
    whatever object was parsed, with its [groups] field or without it
    (an index such as [{}], or one whose [groups] is [null]). *)
Inductive IndexValue :=
| IndexWithGroups (idx : IndexMeta)
| IndexWithoutGroups.

Record Chunk := mkChunk {
  chunk_maxLen : option nat;
  entries      : option (list (option (jsstring * Entry)))
}.

(** The script's global state: [DICT], [MAX_WORD_LEN], [loadedGroups]
    and [indexMeta] ([None] is [null]). *)
Record Store := mkStore {
  DICT         : gmap jsstring Entry;
  MAX_WORD_LEN : nat;
  loadedGroups : gset string;
  indexMeta    : option IndexValue
}.

(** The settings.  [ratio] and [minChineseRatio] are given by the
    decimal they are written as. *)
Record Settings := mkSettings {
  enabled         : bool;
  ratio           : Q;
  onlyNouns       : bool;
  blacklist       : option (list jsstring);   (* [None]: not an array *)
  minNodeLen      : nat;
  minChineseRatio : Q
}.

Definition DEFAULT_SETTINGS : Settings :=
  {| enabled := true; ratio := (15 # 100)%Q; onlyNouns := true;
     blacklist := Some []; minNodeLen := 4; minChineseRatio := (3 # 10)%Q |}.

Record Stats := mkStats {
  nodes    : nat;
  tokens   : nat;
  replaced : nat
}.

(** The tiny inline dictionary the script installs before [init]. *)
Definition ni_hao : jsstring := [0x4F60; 0x597D].      (* 你好 *)
Definition xue_xi : jsstring := [0x5B66; 0x4E60].      (* 学习 *)
Definition yan_jiu : jsstring := [0x7814; 0x7A76].     (* 研究 *)

Definition entry_ni_hao : Entry :=
  {| en := Some [js "hello"]; py := js "ni3 hao3"; tag := "common"; pos := None |}.
Definition entry_xue_xi : Entry :=
  {| en := Some [js "study"; js "learn"]; py := js "xue2 xi2"; tag := "common";
     pos := None |}.
Definition entry_yan_jiu : Entry :=
  {| en := Some [js "research"]; py := js "yan2 jiu1"; tag := "academic";
     pos := None |}.

Definition initial_store : Store :=
  {| DICT := <[yan_jiu := entry_yan_jiu]>
               (<[xue_xi := entry_xue_xi]> (<[ni_hao := entry_ni_hao]> ∅));
     MAX_WORD_LEN := 2;
     loadedGroups := ∅;
     indexMeta := None |}.

(** ** Segmenter *)

(** A segment is either a plain one-character string or a matched
    [{w, entry}] object. *)
Inductive Segment :=
| Literal (ch : jsstring)
| Token (w : jsstring) (entry : Entry).

Definition isObject (seg : Segment) : bool :=
  match seg with Token _ _ => true | Literal _ => false end.

Definition segmentText (seg : Segment) : jsstring :=
  match seg with Token w _ => w | Literal ch => ch end.

Definition slice (text : jsstring) (i j : nat) : jsstring :=
  take (j - i) (drop i text).

(** The inner [for (l = maxL; l >= 1; l--)] loop: the first length with
    a dictionary hit. *)
Fixpoint longestMatch (D : gmap jsstring Entry) (text : jsstring) (i l : nat)
  : option (jsstring * Entry) :=
  match l with
  | O => None
  | S l' =>
      let w := slice text i (i + l) in
      match D !! w with
      | Some entry => Some (w, entry)
      | None => longestMatch D text i l'
      end
  end.

(** The [while (i < N)] loop.  [text !! i] is [None] exactly when
    [i >= N]; every iteration advances [i], so [S N] units of fuel are
    enough (see [segmentLoop_total]). *)
Fixpoint segmentLoop (st : Store) (text : jsstring) (fuel i : nat)
    (out : list Segment) : option (list Segment) :=
  match fuel with
  | O => None
  | S fuel' =>
      match text !! i with
      | None => Some out
      | Some code =>
          if isCJK code then
            let maxL := Nat.min (MAX_WORD_LEN st) (length text - i) in
            match longestMatch (DICT st) text i maxL with
            | Some (w, entry) =>
                segmentLoop st text fuel' (i + length w) (out ++ [Token w entry])
            | None =>
                segmentLoop st text fuel' (S i) (out ++ [Literal [code]])
            end
          else segmentLoop st text fuel' (S i) (out ++ [Literal [code]])
      end
  end.

Definition segmentChinese (st : Store) (text : jsstring)
  : option (list Segment) :=
  segmentLoop st text (S (length text)) 0 [].

(** ** Numbers *)

(** A JavaScript Number is an IEEE 754 binary64 value.  The finite ones
    are rationals, and an arithmetic operation returns the exact result
    rounded to the nearest representable value, ties to the even
    significand.  [binade x] is [floor(log2 x)] for [x > 0]; below
    [2^-1022] the spacing of the subnormal numbers applies.  Overflow to
    [Infinity] is left out: a result beyond the largest finite double is
    rounded as if the exponent range were unbounded above. *)
Definition binade (x : Q) : Z :=
  let e := Z.log2 (Qnum x) - Z.log2 (Zpos (Qden x)) in
  if Qle_bool (2 ^ e)%Q x then e else e - 1.

(** The spacing of the doubles around [x > 0]. *)
Definition quantum (x : Q) : Q := (2 ^ (Z.max (binade x) (-1022) - 52))%Q.

Definition roundNearestEven (m : Q) : Z :=
  let f := Qfloor m in
  match Qcompare (m - inject_Z f) (1 # 2) with
  | Lt => f
  | Gt => f + 1
  | Eq => if Z.even f then f else f + 1
  end.

Definition roundPositive (x : Q) : Q :=
  (inject_Z (roundNearestEven (x / quantum x)) * quantum x)%Q.

(** The double nearest to [x]: the Number a decimal literal denotes, and
    the result of an operation whose exact value is [x]. *)
Definition round64 (x : Q) : Q :=
  match Qcompare x 0 with
  | Eq => 0%Q
  | Gt => roundPositive x
  | Lt => (- roundPositive (- x))%Q
  end.

(** [Math.random()] returns a Number in [[0, 1)]: the value [x] of the
    source of randomness is read as the nearest such Number, which below
    1 is at most [1 - 2^-53]. *)
Definition randomNumber (x : Q) : Q :=
  if Qle_bool (round64 x) (1 - 2 ^ (-53))%Q then round64 x else (1 - 2 ^ (-53))%Q.

(** [Math.floor(Math.random() * n)]; [n] is an array length, an exact
    Number. *)
Definition randomIndex (x : Q) (n : nat) : Z :=
  Qfloor (round64 (randomNumber x * inject_Z (Z.of_nat n))).

(** ** Selector *)

(** [sampleIndices]: [random k] is the value of the [k]-th call of
    [Math.random()].  The loop counter [i] runs while [i < n * 3], which
    is the structural argument [steps = n * 3 - i].  The target is
    [Math.max(1, Math.floor(n * ratio))] with the product taken on
    Numbers: [n] is an array length, an exact Number, and [ratio] is
    read as the Number it denotes. *)
Definition sampleTarget (n : nat) (ratio : Q) : Z :=
  Z.max 1 (Qfloor (round64 (inject_Z (Z.of_nat n) * round64 ratio))).

Fixpoint sampleLoop (random : nat -> Q) (n : nat) (target : Z)
    (steps i : nat) (idxs : gset Z) : gset Z :=
  match steps with
  | O => idxs
  | S steps' =>
      if Z.of_nat (size idxs) <? target then
        let r := randomIndex (random i) n in
        sampleLoop random n target steps' (S i) ({[ r ]} ∪ idxs)
      else idxs
  end.

Definition sampleIndices (random : nat -> Q) (n : nat) (ratio : Q) : gset Z :=
  sampleLoop random n (sampleTarget n ratio) (n * 3) 0 ∅.

Definition NOUN_SUFFIX : list jsstring :=
  map js ["tion"; "ment"; "ness"; "ity"; "ship"; "ance"; "ence"; "ism"; "ist";
          "age"; "ery"; "or"; "er"; "ment"; "dom"; "hood"; "acy"; "tude"; "ure"].

Definition NOUN_HEADS : list jsstring :=
  map js ["club"; "league"; "game"; "year"; "page"; "subscription"; "team";
          "player"; "policy"; "system"; "city"; "country"; "company"; "people";
          "market"; "law"; "right"; "time"; "university"; "school"; "teacher";
          "student"; "government"; "manager"; "engineer"; "result"; "research";
          "study"; "data"; "method"; "model"; "problem"; "solution"; "case";
          "issue"; "service"; "product"; "plan"; "project"; "area"; "region";
          "river"; "mountain"; "province"; "county"; "district"; "airport";
          "station"; "museum"; "library"; "network"; "computer"; "program";
          "software"; "hardware"; "mobile"; "phone"; "car"; "bus"; "train";
          "plane"; "house"; "room"; "home"; "office"; "doctor"; "hospital";
          "money"; "price"; "cost"; "salary"; "contract"; "agreement"; "league";
          "match"; "coach"; "referee"; "stadium"].

Section Eligibility.

(** [String.prototype.toLowerCase] is a platform primitive (full Unicode
    case mapping); the eligibility filter is stated for any such map. *)
Variable toLowerCase : jsstring -> jsstring.

Definition isNounLike (en : jsstring) : bool :=
  if bool_decide (en = []) then false else
  let s := toLowerCase (trim en) in
  if bool_decide (s = []) then false else
  if startsWith s (js "to ") then false else
  let parts := split_ws s in
  let head := List.last parts [] in
  if (length parts =? 1)%nat then
    if endsWith head (js "ing") then false
    else if existsb (endsWith head) NOUN_SUFFIX then true
    else if existsb (jsstring_eqb head) NOUN_HEADS then true
    else if (4 <=? length head)%nat && negb (existsb (Z.eqb 45) head) then true
    else false
  else
    if existsb (jsstring_eqb head) NOUN_HEADS then true
    else if jsstring_eqb (List.hd [] parts) (js "to") then false
    else true.

Definition tokenAllowed (settings : Settings) (entry : Entry) : bool :=
  let en := chooseSense entry in
  if bool_decide (en = []) || hasWhiteSpace en then false
  else if negb (onlyNouns settings) then true
  else if bool_decide (pos entry = Some "n") || bool_decide (pos entry = Some "noun")
  then true
  else isNounLike en.

End Eligibility.

(** ** Renderer *)

(** The part of the DOM the renderer touches: text nodes and elements
    with their tag name, class list, attributes and children. *)
#[warnings="-register-all"]
Inductive Node :=
| TextNode (data : jsstring)
| Element (localName : string) (classList : list string)
          (attrs : list (string * jsstring)) (children : list Node).

Fixpoint textContent (n : Node) : jsstring :=
  match n with
  | TextNode data => data
  | Element _ _ _ children => concat (map textContent children)
  end.

Definition getAttribute (name : string) (n : Node) : option jsstring :=
  match n with
  | TextNode _ => None
  | Element _ _ attrs _ => snd <$> List.find (fun a => String.eqb (fst a) name) attrs
  end.

Definition spanClass : string := "mixen-word".

(** [el.textContent = s]: a single text child, none for the empty string. *)
Definition textChildren (s : jsstring) : list Node :=
  match s with [] => [] | _ => [TextNode s] end.

(** [chooseSense(entry) || word]: the empty string is falsy. *)
Definition displaySense (word : jsstring) (entry : Entry) : jsstring :=
  match chooseSense entry with [] => word | sense => sense end.

Definition createSpan (word : jsstring) (entry : Entry)
    (leadingSpace trailingSpace : bool) : Node :=
  let en := displaySense word entry in
  let tip := en ++ [32; 0x2022; 32] ++ word in
  Element "span" [spanClass]
    [("data-original", word); ("data-tip", tip)]
    (textChildren ((if leadingSpace then [32] else []) ++ en
                   ++ (if trailingSpace then [32] else []))).

Inductive CharKind := CJK | LATIN | SPACE | PUNCT | OTHER.

Definition charKind (ch : jsstring) : CharKind :=
  match codePointAt0 ch with
  | None => OTHER
  | Some code =>
      if (code =? 32) || jsstring_eqb ch [10] || jsstring_eqb ch [9]
         || jsstring_eqb ch [13] then SPACE
      else if isCJK code then CJK
      else if ((48 <=? code) && (code <=? 57)) || ((65 <=? code) && (code <=? 90))
              || ((97 <=? code) && (code <=? 122)) then LATIN
      else PUNCT
  end.

Definition isCJKorLATIN (k : CharKind) : bool :=
  match k with CJK | LATIN => true | _ => false end.

(** The spacing decision taken in the body of the rendering loop for the
    replaced segment at index [i]: [(leading, trailing)]. *)
Definition spacing (segments : list Segment) (replaceSet : gset nat) (i : nat)
  : bool * bool :=
  let prevKind :=
    if (0 <? i)%nat then
      match segments !! (i - 1)%nat with
      | Some (Token _ _) =>
          if bool_decide ((i - 1)%nat ∈ replaceSet) then LATIN else CJK
      | Some (Literal prev) => charKind prev
      | None => OTHER
      end
    else SPACE in
  let '(nextKind, nextIsReplaced) :=
    if (i <? length segments - 1)%nat then
      match segments !! (i + 1)%nat with
      | Some (Token _ _) =>
          let r := bool_decide ((i + 1)%nat ∈ replaceSet) in
          (if r then LATIN else CJK, r)
      | Some (Literal next) => (charKind next, false)
      | None => (OTHER, false)
      end
    else (SPACE, false) in
  let leading := isCJKorLATIN prevKind in
  let trailing := isCJKorLATIN nextKind && negb nextIsReplaced in
  (leading, trailing).

(** One iteration of the rendering loop (the unused [lastKind] variable
    is left out). *)
Definition renderSegment (segments : list Segment) (replaceSet : gset nat)
    (i : nat) (seg : Segment) : Node :=
  match seg with
  | Token w entry =>
      if bool_decide (i ∈ replaceSet) then
        let '(leading, trailing) := spacing segments replaceSet i in
        createSpan w entry leading trailing
      else TextNode w
  | Literal s => TextNode s
  end.

Definition render (segments : list Segment) (replaceSet : gset nat) : list Node :=
  imap (renderSegment segments replaceSet) segments.

(** [tokens]: the indices of the eligible token segments, in order. *)
Definition eligibleTokens (toLowerCase : jsstring -> jsstring)
    (settings : Settings) (segments : list Segment) : list nat :=
  List.filter
    (fun i => match segments !! i with
              | Some (Token _ entry) => tokenAllowed toLowerCase settings entry
              | _ => false
              end)
    (seq 0 (length segments)).

(** [tokens[k]] for a sampled index [k]. *)
Definition tokenAt (tokens : list nat) (k : Z) : option nat :=
  if 0 <=? k then tokens !! Z.to_nat k else None.

(** [new Set(Array.from(idxs).map(k => tokens[k]))].  Every sampled [k]
    is below [tokens.length] (see [sampleIndices_range]), so no
    [undefined] enters the set. *)
Definition replaceSetOf (tokens : list nat) (idxs : gset Z) : gset nat :=
  set_omap (tokenAt tokens) idxs.

(** [replaceInNode] returns what becomes of the text node and the new
    [stats]: [None] is the early return that leaves the node in place,
    [Some frag] the fragment that replaces it.  The outer option is the
    segmenter's fuel and is never [None] (see [segmentChinese_spec]). *)
Definition replaceInNode (toLowerCase : jsstring -> jsstring) (st : Store)
    (settings : Settings) (random : nat -> Q) (stats : Stats) (text : jsstring)
  : option (option (list Node) * Stats) :=
  segments ← segmentChinese st text;
  let toks := eligibleTokens toLowerCase settings segments in
  if (length toks =? 0)%nat then Some (None, stats) else
  let idxs := sampleIndices random (length toks) (ratio settings) in
  let replaceSet := replaceSetOf toks idxs in
  let frag := render segments replaceSet in
  Some (Some frag,
        {| nodes := nodes stats;
           tokens := (tokens stats + length toks)%nat;
           replaced := (replaced stats + size replaceSet)%nat |}).


(** [revertAll]: every outermost descendant matching
    [span.mixen-word[data-original]] becomes a text node holding its
    [data-original]. *)
Definition matchesSpan (n : Node) : bool :=
  match n with
  | TextNode _ => false
  | Element name classes attrs _ =>
      String.eqb name "span" && bool_decide (spanClass ∈ classes)
      && bool_decide (is_Some (getAttribute "data-original" n))
  end.

Fixpoint revertNode (n : Node) : Node :=
  match n with
  | TextNode data => TextNode data
  | Element name classes attrs children =>
      if matchesSpan n then
        match getAttribute "data-original" n with
        | Some text => TextNode text
        | None => n
        end
      else Element name classes attrs (map revertNode children)
  end.

(** [root.querySelectorAll] exists on elements only. *)
Definition revertAll (root : Node) : option Node :=
  match root with
  | TextNode _ => None
  | Element name classes attrs children =>
      Some (Element name classes attrs (map revertNode children))
  end.

(** ** Dictionary store: lazy loading of chunks *)

(** [groupIdForChar]: 512-code-point buckets from U+4E00.  On the empty
    string [codePointAt(0)] is [undefined], both range tests are false
    and the id is built from [NaN]. *)
Definition groupIdForChar (ch : jsstring) : option string :=
  match codePointAt0 ch with
  | None => Some "gNaN"
  | Some code =>
      if (code <? 0x4E00) || (0x9FFF <? code) then None
      else Some ("g" +:+ pretty ((code - 0x4E00) / 512))
  end.

(** What the host answers during one call: whether the extension context
    is alive, the URL of a packaged resource, and the outcome of the
    fetches ([None]: the response is not ok, or fetching or parsing
    throws).  The fetched index is an object with or without [groups]. *)
Record Env := mkEnv {
  extAlive   : bool;
  getURL     : string -> string;
  fetchIndex : string -> option IndexValue;
  fetchChunk : string -> option Chunk
}.

Definition setIndexMeta (idx : IndexValue) (st : Store) : Store :=
  {| DICT := DICT st; MAX_WORD_LEN := MAX_WORD_LEN st;
     loadedGroups := loadedGroups st; indexMeta := Some idx |}.

Definition addLoaded (gid : string) (st : Store) : Store :=
  {| DICT := DICT st; MAX_WORD_LEN := MAX_WORD_LEN st;
     loadedGroups := {[ gid ]} ∪ loadedGroups st; indexMeta := indexMeta st |}.

(** A call returns the new state and the URLs it fetched. *)
Definition ensureIndex (env : Env) (st : Store) : Store * list string :=
  match indexMeta st with
  | Some _ => (st, [])
  | None =>
      if negb (extAlive env) then (st, []) else
      let url := getURL env "data/index.json" in
      match fetchIndex env url with
      | Some idx => (setIndexMeta idx st, [url])
      | None =>
          (setIndexMeta (IndexWithGroups {| groupSize := 512; groups := ∅ |}) st,
           [url])
      end
  end.

(** [for (const [w, v] of chunk.entries) DICT.set(w, v)], stopping at the
    first element that cannot be destructured. *)
Fixpoint mergeEntries (D : gmap jsstring Entry)
    (es : list (option (jsstring * Entry))) : gmap jsstring Entry :=
  match es with
  | [] => D
  | Some (w, v) :: es' => mergeEntries (<[w := v]> D) es'
  | None :: _ => D
  end.

Definition mergeChunk (chunk : Chunk) (st : Store) : Store :=
  let M := match chunk_maxLen chunk with
           | Some m => if (0 <? m)%nat && (MAX_WORD_LEN st <? m)%nat
                       then m else MAX_WORD_LEN st
           | None => MAX_WORD_LEN st
           end in
  {| DICT := match entries chunk with
             | Some es => mergeEntries (DICT st) es
             | None => DICT st
             end;
     MAX_WORD_LEN := M;
     loadedGroups := loadedGroups st;
     indexMeta := indexMeta st |}.

Definition ensureGroupLoaded (env : Env) (ch : jsstring) (st : Store)
  : Store * list string :=
  if negb (extAlive env) then (st, []) else
  match groupIdForChar ch with
  | None => (st, [])
  | Some gid =>
      if bool_decide (gid ∈ loadedGroups st) then (st, []) else
      let '(st1, log1) := ensureIndex env st in
      match indexMeta st1 with
      | None => (st1, log1)   (* not reached: the context is alive *)
      | Some IndexWithoutGroups =>
          (* [indexMeta.groups[gid]] is outside the [try]: a [TypeError],
             the call is rejected before any [loadedGroups.add] *)
          (st1, log1)
      | Some (IndexWithGroups idx) =>
          match groups idx !! gid with
          | None => (addLoaded gid st1, log1)
          | Some meta =>
              let url := getURL env ("data/chunks/" +:+ file meta) in
              match fetchChunk env url with
              | Some chunk => (addLoaded gid (mergeChunk chunk st1), log1 ++ [url])
              | None => (addLoaded gid st1, log1 ++ [url])
              end
          end
      end
  end.

(** Whether the promise of the call is rejected.  Every statement of
    [ensureGroupLoaded] that can throw sits inside a [try], except the
    read [indexMeta.groups[gid]]. *)
Definition ensureGroupLoaded_rejects (env : Env) (ch : jsstring) (st : Store)
  : bool :=
  if negb (extAlive env) then false else
  match groupIdForChar ch with
  | None => false
  | Some gid =>
      if bool_decide (gid ∈ loadedGroups st) then false else
      match indexMeta (fst (ensureIndex env st)) with
      | Some IndexWithoutGroups => true
      | _ => false
      end
  end.

(** A sequence of calls, each with the host's answers at that time. *)
Fixpoint ensureGroupsLoaded (calls : list (Env * jsstring)) (st : Store)
  : Store * list string :=
  match calls with
  | [] => (st, [])
  | (env, ch) :: calls' =>
      let '(st1, log1) := ensureGroupLoaded env ch st in
      let '(st2, log2) := ensureGroupsLoaded calls' st1 in
      (st2, log1 ++ log2)
  end.

(** ** URL blacklist patterns *)

Definition reSpecial (c : Z) : bool :=
  existsb (Z.eqb c) (js ".*+?^${}()|[]\").

Definition escapeRe (s : jsstring) : jsstring :=
  flat_map (fun c => if reSpecial c then [92; c] else [c]) s.

(** [s.replace(/\\X/g, repl)] for a single character [X]: every
    backslash followed by [X], left to right. *)
Fixpoint replaceEscaped (x : Z) (repl : jsstring) (s : jsstring) : jsstring :=
  match s with
  | [] => []
  | c :: s' =>
      match s' with
      | d :: s'' =>
          if (c =? 92) && (d =? x) then repl ++ replaceEscaped x repl s''
          else c :: replaceEscaped x repl s'
      | [] => [c]
      end
  end.

Section Patterns.

(** The host's regular expressions: [RegExp_new source flags] is
    [new RegExp(source, flags)], [None] when the constructor throws. *)
Variable RegExp : Type.
Variable RegExp_new : jsstring -> string -> option RegExp.
Variable RegExp_test : RegExp -> jsstring -> bool.

Definition patSource (raw : jsstring) : jsstring :=
  js "^" ++ replaceEscaped 63 (js ".") (replaceEscaped 42 (js ".*") (escapeRe raw))
     ++ js "$".

Definition patToRegExp (pat : jsstring) : option RegExp :=
  let raw := trim pat in
  if bool_decide (raw = []) || startsWith raw (js "#") then None
  else RegExp_new (patSource raw) "i".

(** [compilePatternLists] returns the new value of [blacklistRe]. *)
Definition compilePatternLists (cfg : Settings) : list RegExp :=
  omap patToRegExp (default [] (blacklist cfg)).

Definition urlMatchesAny (reList : list RegExp) (url : jsstring) : bool :=
  existsb (fun re => RegExp_test re url) reList.

Definition settingsAllow (settings : Settings) (blacklistRe : list RegExp)
    (href : jsstring) : bool :=
  if negb (enabled settings) then false
  else if negb (length blacklistRe =? 0)%nat && urlMatchesAny blacklistRe href
  then false
  else true.

End Patterns.

(** ** Specification-level definitions *)

(** The segmentation the specification describes, as a relation between
    a scan position and the segments emitted from there on: at a CJK
    character the longest dictionary hit of length at most
    [min MAX_WORD_LEN (N - i)] becomes a token; with no hit, or at any
    other character, the character becomes a one-character literal. *)
Inductive Segmentation (st : Store) (text : jsstring)
  : nat -> list Segment -> Prop :=
| seg_done i :
    i = length text ->
    Segmentation st text i []
| seg_other i c segs :
    text !! i = Some c -> isCJK c = false ->
    Segmentation st text (S i) segs ->
    Segmentation st text i (Literal [c] :: segs)
| seg_hit i c l entry segs :
    text !! i = Some c -> isCJK c = true ->
    (1 <= l <= Nat.min (MAX_WORD_LEN st) (length text - i))%nat ->
    DICT st !! slice text i (i + l) = Some entry ->
    (forall l', (l < l' <= Nat.min (MAX_WORD_LEN st) (length text - i))%nat ->
                DICT st !! slice text i (i + l') = None) ->
    Segmentation st text (i + l) segs ->
    Segmentation st text i (Token (slice text i (i + l)) entry :: segs)
| seg_miss i c segs :
    text !! i = Some c -> isCJK c = true ->
    (forall l', (1 <= l' <= Nat.min (MAX_WORD_LEN st) (length text - i))%nat ->
                DICT st !! slice text i (i + l') = None) ->
    Segmentation st text (S i) segs ->
    Segmentation st text i (Literal [c] :: segs).

(** The position in the text at which the [k]-th segment starts. *)
Definition segmentStart (segs : list Segment) (k : nat) : nat :=
  length (concat (map segmentText (take k segs))).

(** Token words are never empty in a segmentation the segmenter
    produces (see [segmentChinese_tokensNonEmpty]). *)
Definition tokensNonEmpty (segments : list Segment) : Prop :=
  forall k w entry, segments !! k = Some (Token w entry) -> w <> [].

(** The spacing rule in the specification's words, stated on the
    segments and the selection alone.  The element at index [j] is CJK
    or LATIN-ish when it is a token (a replaced token counts as
    LATIN-ish, an unreplaced one as CJK) or a literal whose character is
    a CJK unified ideograph (CJK), an ASCII digit or an ASCII letter
    (LATIN-ish).  Beyond either end of the run there is no element: the
    boundaries count as SPACE. *)
Inductive CJKorLATINish (segments : list Segment) (replaceSet : gset nat)
    (j : nat) : Prop :=
| replaced_token_LATINish w entry :
    segments !! j = Some (Token w entry) -> j ∈ replaceSet ->
    CJKorLATINish segments replaceSet j
| unreplaced_token_CJK w entry :
    segments !! j = Some (Token w entry) -> j ∉ replaceSet ->
    CJKorLATINish segments replaceSet j
| literal_ideograph_CJK c rest :
    segments !! j = Some (Literal (c :: rest)) -> 0x4E00 <= c <= 0x9FFF ->
    CJKorLATINish segments replaceSet j
| literal_alphanumeric_LATINish c rest :
    segments !! j = Some (Literal (c :: rest)) ->
    48 <= c <= 57 \/ 65 <= c <= 90 \/ 97 <= c <= 122 ->
    CJKorLATINish segments replaceSet j.

Definition selectedReplacement (segments : list Segment) (replaceSet : gset nat)
    (j : nat) : Prop :=
  exists w entry, segments !! j = Some (Token w entry) /\ j ∈ replaceSet.

(** A leading space: the preceding element is CJK or LATIN-ish. *)
Definition leadingSpaceSpec (segments : list Segment) (replaceSet : gset nat)
    (i : nat) : Prop :=
  exists j, i = S j /\ CJKorLATINish segments replaceSet j.

(** A trailing space: the following element is CJK or LATIN-ish and is
    not itself a selected replacement. *)
Definition trailingSpaceSpec (segments : list Segment) (replaceSet : gset nat)
    (i : nat) : Prop :=
  CJKorLATINish segments replaceSet (S i)
  /\ ~ selectedReplacement segments replaceSet (S i).

(** The rendered text with every code unit marked: [true] for a space
    the renderer inserted, [false] for a code unit of a word, a sense or
    a literal.  It is the rendering loop with [createSpan]'s string
    concatenation kept apart. *)
Definition plain (s : jsstring) : list (Z * bool) := map (fun c => (c, false)) s.

Definition insertedSpace (b : bool) : list (Z * bool) :=
  if b then [(32, true)] else [].

Definition markedSegment (segments : list Segment) (replaceSet : gset nat)
    (i : nat) (seg : Segment) : list (Z * bool) :=
  match seg with
  | Token w entry =>
      if bool_decide (i ∈ replaceSet) then
        let '(leading, trailing) := spacing segments replaceSet i in
        insertedSpace leading ++ plain (displaySense w entry)
          ++ insertedSpace trailing
      else plain w
  | Literal s => plain s
  end.

Definition markedOutput (segments : list Segment) (replaceSet : gset nat)
  : list (Z * bool) :=
  concat (imap (markedSegment segments replaceSet) segments).

Definition startsMarked (out : list (Z * bool)) : bool :=
  match out with x :: _ => snd x | [] => false end.

Fixpoint endsMarked (out : list (Z * bool)) : bool :=
  match out with
  | [] => false
  | x :: rest => match rest with [] => snd x | _ :: _ => endsMarked rest end
  end.

(** Two neighbouring code units are both inserted spaces. *)
Fixpoint adjacentInserted (out : list (Z * bool)) : bool :=
  match out with
  | [] => false
  | x :: rest => (snd x && startsMarked rest) || adjacentInserted rest
  end.

(** The dictionary and settings of the specification's worked example. *)
Definition example_store : Store :=
  {| DICT := <[xue_xi := entry_xue_xi]> (<[ni_hao := entry_ni_hao]> ∅);
     MAX_WORD_LEN := 2;
     loadedGroups := ∅;
     indexMeta := None |}.

Definition example_settings (r : Q) (nouns : bool) : Settings :=
  {| enabled := true; ratio := r; onlyNouns := nouns; blacklist := Some [];
     minNodeLen := 4; minChineseRatio := (3 # 10)%Q |}.

(** [toLowerCase] on strings whose only cased characters are ASCII. *)
Definition asciiLowerCase (s : jsstring) : jsstring :=
  map (fun c => if (65 <=? c) && (c <=? 90) then c + 32 else c) s.

(** Sources of random numbers used in the examples. *)
Definition zero_random (i : nat) : Q := 0%Q.

Definition example_random (i : nat) : Q :=
  match i with O => 0%Q | S _ => (1 # 2)%Q end.


Definition no_stats : Stats := {| nodes := 0; tokens := 0; replaced := 0 |}.

Definition withBlacklist (settings : Settings) (patterns : list jsstring)
  : Settings :=
  {| enabled := enabled settings; ratio := ratio settings;
     onlyNouns := onlyNouns settings; blacklist := Some patterns;
     minNodeLen := minNodeLen settings;
     minChineseRatio := minChineseRatio settings |}.

(** A live host whose index lists bucket [g0] and whose chunk fetches
    all fail. *)
Definition failing_env : Env :=
  {| extAlive := true;
     getURL := fun path => "chrome-extension://mixen/" +:+ path;
     fetchIndex := fun _ =>
       Some (IndexWithGroups
            {| groupSize := 512;
               groups := {[ "g0" := {| file := "g0.json"; count := 1; maxLen := 2 |} ]} |});
     fetchChunk := fun _ => None |}.

(** A live host whose index file is the object [{}]: no [groups]. *)
Definition no_groups_env : Env :=
  {| extAlive := true;
     getURL := fun path => "chrome-extension://mixen/" +:+ path;
     fetchIndex := fun _ => Some IndexWithoutGroups;
     fetchChunk := fun _ => None |}.

(** A dictionary with a one-character headword next to a two-character
    one. *)
Definition entry_ni : Entry :=
  {| en := Some [js "you"]; py := js "ni3"; tag := "common"; pos := None |}.

Definition nested_store : Store :=
  {| DICT := <[ [0x4F60] := entry_ni ]> (<[ni_hao := entry_ni_hao]> ∅);
     MAX_WORD_LEN := 2;
     loadedGroups := ∅;
     indexMeta := None |}.

(** ** Further functions of the content script *)

(** The string iterator ([for (const ch of s)]): code points, a
    surrogate pair counting as one, a lone surrogate as itself. *)
Fixpoint codePoints (s : jsstring) : list Z :=
  match s with
  | [] => []
  | hi :: rest =>
      if (0xD800 <=? hi) && (hi <=? 0xDBFF) then
        match rest with
        | lo :: rest' =>
            if (0xDC00 <=? lo) && (lo <=? 0xDFFF)
            then ((hi - 0xD800) * 0x400 + (lo - 0xDC00) + 0x10000) :: codePoints rest'
            else hi :: codePoints rest
        | [] => [hi]
        end
      else hi :: codePoints rest
  end.

(** [hasCJK]: the regular expression [/[\u4E00-\u9FFF]/] has no [u] flag
    and looks at code units. *)
Definition hasCJK (s : jsstring) : bool := existsb isCJK s.

(** The two counters of [chineseRatio]: CJK code points and all code
    points other than U+0020. *)
Definition cjkCount (s : jsstring) : nat :=
  length (List.filter isCJK (List.filter (fun c => negb (c =? 32)) (codePoints s))).

Definition totalCount (s : jsstring) : nat :=
  length (List.filter (fun c => negb (c =? 32)) (codePoints s)).

Definition chineseRatio (s : jsstring) : Q :=
  if (totalCount s =? 0)%nat then 0%Q
  else (inject_Z (Z.of_nat (cjkCount s)) / inject_Z (Z.of_nat (totalCount s)))%Q.


(** Every headword of the dictionary fits the longest match the
    segmenter tries. *)
Definition keysBounded (st : Store) : Prop :=
  forall w entry, DICT st !! w = Some entry -> (length w <= MAX_WORD_LEN st)%nat.

(** A chunk whose [maxLen] bounds the length of its headwords, as the
    dictionary builder writes it. *)
Definition chunkBounded (chunk : Chunk) : Prop :=
  exists m, chunk_maxLen chunk = Some m
            /\ forall es w v, entries chunk = Some es -> Some (w, v) ∈ es ->
                              (length w <= m)%nat.

(** A live host that serves bucket [g0] with two entries, one of them
    three characters long. *)
Definition ni_men : jsstring := [0x4F60; 0x4EEC].              (* 你们 *)
Definition ren_min_bi : jsstring := [0x4EBA; 0x6C11; 0x5E01].  (* 人民币 *)

Definition g0_entries : list (jsstring * Entry) :=
  [(ren_min_bi, {| en := Some [js "renminbi"]; py := js "ren2 min2 bi4";
                   tag := "common"; pos := Some "n" |});
   (ni_men, entry_ni)].

Definition serving_env : Env :=
  {| extAlive := true;
     getURL := fun path => "chrome-extension://mixen/" +:+ path;
     fetchIndex := fun _ =>
       Some (IndexWithGroups
            {| groupSize := 512;
               groups := {[ "g0" := {| file := "g0.json"; count := 2; maxLen := 3 |} ]} |});
     fetchChunk := fun _ =>
       Some {| chunk_maxLen := Some 3%nat; entries := Some (map Some g0_entries) |} |}.

(** The replacement units of a fragment: what
    [querySelectorAll('span.mixen-word[data-original]')] finds among its
    nodes. *)
Definition spanCount (frag : list Node) : nat :=
  length (List.filter matchesSpan frag).

(** A replacement unit somewhere in a subtree, its root included. *)
Fixpoint containsSpan (n : Node) : bool :=
  matchesSpan n
  || match n with
     | TextNode _ => false
     | Element _ _ _ children => existsb containsSpan children
     end.

(** What a wildcard pattern means, character by character: [*] is any
    run of characters, [?] any single character, every other character
    stands for itself, escaped when it is special in a regular
    expression. *)
Definition wildcardChar (c : Z) : jsstring :=
  if c =? 42 then js ".*"
  else if c =? 63 then js "."
  else if reSpecial c then [92; c]
  else [c].

(** The first code unit, if any, is not [x]. *)
Definition headNot (x : Z) (s : jsstring) : Prop :=
  match s with d :: _ => d <> x | [] => True end.

(** ** The per-node prefetch of [scheduleProcess] *)

(** The strings the string iterator yields: one or two code units. *)
Fixpoint stringChars (s : jsstring) : list jsstring :=
  match s with
  | [] => []
  | hi :: rest =>
      if (0xD800 <=? hi) && (hi <=? 0xDBFF) then
        match rest with
        | lo :: rest' =>
            if (0xDC00 <=? lo) && (lo <=? 0xDFFF)
            then [hi; lo] :: stringChars rest'
            else [hi] :: stringChars rest
        | [] => [[hi]]
        end
      else [hi] :: stringChars rest
  end.

(** [gids]: the bucket ids of the node's characters, in order of first
    appearance (a [Set] filled in a loop). *)
Definition nodeGroupIds (text : jsstring) : list string :=
  fold_left
    (fun gids ch =>
       match groupIdForChar ch with
       | Some gid => if bool_decide (gid ∈ gids) then gids else gids ++ [gid]
       | None => gids
       end)
    (stringChars text) [].

(** [text.match(/[\u4E00-\u9FFF]/)]: the first CJK code unit. *)
Definition firstCJK (text : jsstring) : option jsstring :=
  (fun c => [c]) <$> List.find isCJK text.

(** [(indexMeta && indexMeta.groups) ? indexMeta.groups[gid] : null],
    under [indexMeta]. *)
Definition lookupGroup (gid : string) (idx : IndexValue) : option GroupMeta :=
  match idx with
  | IndexWithGroups idx => groups idx !! gid
  | IndexWithoutGroups => None
  end.

(** The body of [for (const gid of gids)].  When the index lists the
    bucket, the chunk is fetched and the bucket marked in [finally]; with
    the context gone [chrome.runtime.getURL] throws, which is caught.
    Otherwise the fallback calls [ensureGroupLoaded] on the first CJK
    character of the node, inside a [try] that catches its rejection. *)
Definition prefetchGroup (env : Env) (text : jsstring) (gid : string)
    (st : Store) : Store * list string :=
  if bool_decide (gid ∈ loadedGroups st) then (st, []) else
  match indexMeta st ≫= lookupGroup gid with
  | Some meta =>
      if extAlive env then
        let url := getURL env ("data/chunks/" +:+ file meta) in
        match fetchChunk env url with
        | Some chunk => (addLoaded gid (mergeChunk chunk st), [url])
        | None => (addLoaded gid st, [url])
        end
      else (addLoaded gid st, [])
  | None =>
      let '(st1, log1) := ensureIndex env st in
      match firstCJK text with
      | Some ch =>
          let '(st2, log2) := ensureGroupLoaded env ch st1 in
          (st2, log1 ++ log2)
      | None => (st1, log1)
      end
  end.

Fixpoint prefetchGroups (env : Env) (text : jsstring) (gids : list string)
    (st : Store) : Store * list string :=
  match gids with
  | [] => (st, [])
  | gid :: gids' =>
      let '(st1, log1) := prefetchGroup env text gid st in
      let '(st2, log2) := prefetchGroups env text gids' st1 in
      (st2, log1 ++ log2)
  end.

Definition prefetchNode (env : Env) (text : jsstring) (st : Store)
  : Store * list string :=
  prefetchGroups env text (nodeGroupIds text) st.

(** ** The options page ([src/options.ts]) *)

Definition isDigit (c : Z) : bool := (48 <=? c) && (c <=? 57).

(** The digits [parseInt] consumes, accumulated in base 10. *)
Fixpoint digitsValue (acc : Z) (s : jsstring) : Z :=
  match s with
  | c :: s' => if isDigit c then digitsValue (acc * 10 + (c - 48)) s' else acc
  | [] => acc
  end.

(** [parseInt(s, 10)]: leading white space, an optional sign, then the
    longest run of digits; [None] is [NaN].  The value is taken as an
    exact integer. *)
Definition parseInt10 (s : jsstring) : option Z :=
  let t := trimStart s in
  let '(sign, body) :=
    match t with
    | c :: r => if c =? 45 then (-1, r) else if c =? 43 then (1, r) else (1, t)
    | [] => (1, t)
    end in
  match body with
  | c :: _ => if isDigit c then Some (sign * digitsValue 0 body) else None
  | [] => None
  end.

(** [String(n)] for an integer [n]: its decimal digits, with a minus
    sign when negative. *)
Fixpoint decimalDigits (fuel : nat) (n : Z) : jsstring :=
  match fuel with
  | O => []
  | S fuel' =>
      if n <? 10 then [48 + n]
      else decimalDigits fuel' (n / 10) ++ [48 + n mod 10]
  end.

Definition decimalString (n : Z) : jsstring :=
  if n <? 0 then 45 :: decimalDigits (S (Z.to_nat (- n))) (- n)
  else decimalDigits (S (Z.to_nat n)) n.

Definition jsmax (a b : Q) : Q := if Qlt_le_dec a b then b else a.
Definition jsmin (a b : Q) : Q := if Qlt_le_dec b a then b else a.

(** [readUI]'s ratio, from the value of the slider:
    [Math.max(0.05, Math.min(0.5, (parseInt(value, 10) || 15) / 100))]. *)
Definition readRatio (value : jsstring) : Q :=
  let n := match parseInt10 value with
           | Some n => if n =? 0 then 15 else n
           | None => 15
           end in
  jsmax (5 # 100) (jsmin (50 # 100) (inject_Z n / 100))%Q.

(** [writeUI]'s slider value:
    [String(Math.round((cfg.ratio || 0.15) * 100))]. *)
Definition writeRatio (r : Q) : jsstring :=
  let r' := if Qeq_bool r 0 then (15 # 100)%Q else r in
  decimalString (Qfloor (r' * 100 + (1 # 2))%Q).

(** [s.split(/\n+/)] and [list.join(sep)]. *)
Fixpoint split_lines_from (cur : jsstring) (inSep : bool) (s : jsstring)
  : list jsstring :=
  match s with
  | [] => [rev cur]
  | c :: s' =>
      if c =? 10
      then if inSep then split_lines_from cur true s'
           else rev cur :: split_lines_from [] true s'
      else split_lines_from (c :: cur) false s'
  end.

Definition split_lines (s : jsstring) : list jsstring :=
  split_lines_from [] false s.

Fixpoint join (sep : jsstring) (l : list jsstring) : jsstring :=
  match l with
  | [] => []
  | x :: rest =>
      match rest with
      | [] => x
      | _ :: _ => x ++ sep ++ join sep rest
      end
  end.

(** [readUI]'s blacklist from the text area, and [writeUI]'s text. *)
Definition readBlacklist (value : jsstring) : list jsstring :=
  List.filter (fun p => negb (bool_decide (p = [])))
              (map trim (split_lines value)).

Definition writeBlacklist (patterns : option (list jsstring)) : jsstring :=
  join [10] (default [] patterns).

(** ** The CSV export ([tools/export_display_list.js]) *)

Definition csvNeedsQuotes (t : jsstring) : bool :=
  existsb (fun c => (c =? 34) || (c =? 44) || (c =? 10)) t.

Definition csvEscape (t : jsstring) : jsstring :=
  if csvNeedsQuotes t
  then [34] ++ flat_map (fun c => if c =? 34 then [34; 34] else [c]) t ++ [34]
  else t.

Definition writeRow (cols : list jsstring) : jsstring :=
  join [44] (map csvEscape cols).

(** ** The dictionary builder ([tools/build_dict.js]) *)

(** What [parseCedictLine] returns for a line it keeps. *)
Record Parsed := mkParsed {
  p_trad : jsstring;
  p_simp : jsstring;
  p_py   : jsstring;
  p_en   : list jsstring
}.

(** A bucket under construction: [{entries: Map(word->obj), maxLen}]. *)
Record Group := mkGroup {
  g_entries : gmap jsstring Entry;
  g_maxLen  : nat
}.

(** [bucketIdForChar], the builder's copy of [groupIdForChar]. *)
Definition bucketIdForChar (ch : jsstring) : option string :=
  match codePointAt0 ch with
  | None => Some "gNaN"
  | Some code =>
      if (code <? 0x4E00) || (0x9FFF <? code) then None
      else Some ("g" +:+ pretty ((code - 0x4E00) / 512))
  end.

Section Builder.

(** The tag and the part of speech the builder computes from its word
    lists, and the order [Array.prototype.sort] gives the entries of a
    chunk (by length, then by [localeCompare]). *)
Variable tagOf : Parsed -> string.
Variable posOf : Parsed -> option string.
Variable sortEntries : list (jsstring * Entry) -> list (jsstring * Entry).

(** [const val = { en: e.en, py: e.py, tag }; if(pos) val.pos = pos]. *)
Definition valOf (e : Parsed) : Entry :=
  {| en := Some (p_en e); py := p_py e; tag := tagOf e; pos := posOf e |}.

(** One turn of [main]'s loop for a parsed line; [None] when it throws
    ([e.simp[0]] or [e.en[0]] is [undefined]). *)
Definition addParsed (groups : gmap string Group) (e : Parsed)
  : option (gmap string Group) :=
  match p_simp e with
  | [] => None
  | c :: _ =>
      match bucketIdForChar [c] with
      | None => Some groups
      | Some gid =>
          match p_en e with
          | [] => None
          | _ :: _ =>
              let g := default {| g_entries := ∅; g_maxLen := 0 |} (groups !! gid) in
              Some (<[gid := {| g_entries := <[p_simp e := valOf e]> (g_entries g);
                                g_maxLen := if (g_maxLen g <? length (p_simp e))%nat
                                            then length (p_simp e)
                                            else g_maxLen g |}]> groups)
          end
      end
  end.

Fixpoint buildFrom (es : list Parsed) (groups : gmap string Group)
  : option (gmap string Group) :=
  match es with
  | [] => Some groups
  | e :: es' =>
      match addParsed groups e with
      | Some groups' => buildFrom es' groups'
      | None => None
      end
  end.

Definition buildGroups (es : list Parsed) : option (gmap string Group) :=
  buildFrom es ∅.

(** The chunk file and the index the builder writes. *)
Definition chunkEntries (g : Group) : list (jsstring * Entry) :=
  sortEntries (map_to_list (g_entries g)).

Definition chunkOf (g : Group) : Chunk :=
  {| chunk_maxLen := Some (g_maxLen g);
     entries := Some (map Some (chunkEntries g)) |}.

Definition indexOf (groups : gmap string Group) : IndexMeta :=
  {| groupSize := 512;
     groups := map_imap (fun gid g =>
                 Some {| file := gid +:+ ".json";
                         count := length (chunkEntries g);
                         maxLen := g_maxLen g |}) groups |}.

(** The extension is packaged with the files of one build: the host
    answers the runtime's fetches with what the builder wrote. *)
Definition serves (env : Env) (groups : gmap string Group) : Prop :=
  extAlive env = true
  /\ fetchIndex env (getURL env "data/index.json")
     = Some (IndexWithGroups (indexOf groups))
  /\ forall gid g, groups !! gid = Some g ->
       fetchChunk env (getURL env ("data/chunks/" +:+ (gid +:+ ".json")))
       = Some (chunkOf g).

(** The last line kept for a headword among the lines read so far. *)
Definition lastWith (w : jsstring) (l : list Parsed) : option Parsed :=
  List.find (fun e => bool_decide (p_simp e = w)) (rev l).

(** What holds of the buckets after the lines [l] have been read. *)
Definition builderInv (l : list Parsed) (groups : gmap string Group) : Prop :=
  (forall gid g, groups !! gid = Some g ->
     (forall w v, g_entries g !! w = Some v ->
        exists c rest e,
          w = c :: rest /\ bucketIdForChar [c] = Some gid
          /\ lastWith w l = Some e /\ v = valOf e
          /\ (length w <= g_maxLen g)%nat)
     /\ (exists w, is_Some (g_entries g !! w) /\ length w = g_maxLen g))
  /\ (forall e c rest gid, In e l -> p_simp e = c :: rest ->
        bucketIdForChar [c] = Some gid ->
        exists g, groups !! gid = Some g /\ is_Some (g_entries g !! p_simp e)).

End Builder.

(** Two kept lines of the same bucket, built with a fixed tag and no
    part of speech, and a host that serves the files of that build. *)
Definition example_lines : list Parsed :=
  [ {| p_trad := [0x4F60; 0x5011]; p_simp := ni_men;
       p_py := js "ni3 men5"; p_en := [js "you"] |};
    {| p_trad := [0x4EBA; 0x6C11; 0x5E63]; p_simp := ren_min_bi;
       p_py := js "ren2 min2 bi4"; p_en := [js "renminbi"] |} ].

Definition example_tag (e : Parsed) : string := "common".
Definition example_pos (e : Parsed) : option string := None.
Definition keepOrder (l : list (jsstring * Entry)) : list (jsstring * Entry) := l.

Definition example_group : Group :=
  {| g_entries := <[ren_min_bi := valOf example_tag example_pos
                       {| p_trad := [0x4EBA; 0x6C11; 0x5E63]; p_simp := ren_min_bi;
                          p_py := js "ren2 min2 bi4"; p_en := [js "renminbi"] |}]>
                  (<[ni_men := valOf example_tag example_pos
                       {| p_trad := [0x4F60; 0x5011]; p_simp := ni_men;
                          p_py := js "ni3 men5"; p_en := [js "you"] |}]> ∅);
     g_maxLen := 3 |}.

Definition example_built : gmap string Group := {[ "g0" := example_group ]}.

Definition build_env : Env :=
  {| extAlive := true;
     getURL := fun path => "chrome-extension://mixen/" +:+ path;
     fetchIndex := fun _ => Some (IndexWithGroups (indexOf keepOrder example_built));
     fetchChunk := fun _ => Some (chunkOf keepOrder example_group) |}.

(** * Properties *)

(** ** The definitions on small inputs *)

Example trim_example : trim (js "  a b ") = js "a b".
Proof. reflexivity. Qed.

Example split_ws_example : split_ws (js "go  home ") = [js "go"; js "home"; []].
Proof. reflexivity. Qed.

Example charKind_examples :
  charKind (js "a") = LATIN /\ charKind (js "7") = LATIN
  /\ charKind [0x4F60] = CJK /\ charKind (js " ") = SPACE
  /\ charKind (js ",") = PUNCT /\ charKind [] = OTHER.
Proof. repeat split; reflexivity. Qed.

Example groupIdForChar_examples :
  groupIdForChar [0x4F60] = Some "g0" /\ groupIdForChar [0x597D] = Some "g5"
  /\ groupIdForChar [0x9FFF] = Some "g40" /\ groupIdForChar (js "a") = None.
Proof. repeat split; vm_compute; reflexivity. Qed.

Example isNounLike_examples :
  isNounLike asciiLowerCase (js "teacher") = true
  /\ isNounLike asciiLowerCase (js "hello") = true
  /\ isNounLike asciiLowerCase (js "Running") = false
  /\ isNounLike asciiLowerCase (js "to go") = false
  /\ isNounLike asciiLowerCase (js "cat") = false.
Proof. repeat split; vm_compute; reflexivity. Qed.

Example patSource_example :
  patSource (js "*.example.com/?") = js "^.*\.example\.com/.$".
Proof. vm_compute. reflexivity. Qed.

Example segmentChinese_example :
  segmentChinese initial_store (js "a" ++ yan_jiu ++ [0x4E86])
  = Some [Literal (js "a"); Token yan_jiu entry_yan_jiu; Literal [0x4E86]].
Proof. vm_compute. reflexivity. Qed.

(** ** Segmenter *)

Lemma slice_length (text : jsstring) (i l : nat) :
  (l <= length text - i)%nat -> length (slice text i (i + l)) = l.
Proof.
  intros H. unfold slice. rewrite length_take, length_drop. lia.
Qed.

Lemma slice_drop (text : jsstring) (i l : nat) :
  slice text i (i + l) ++ drop (i + l) text = drop i text.
Proof.
  unfold slice. replace (i + l - i)%nat with l by lia.
  rewrite <- (take_drop l (drop i text)) at 2.
  rewrite drop_drop. reflexivity.
Qed.

Lemma longestMatch_Some D text i l w entry :
  longestMatch D text i l = Some (w, entry) ->
  exists l0, (1 <= l0 <= l)%nat /\ w = slice text i (i + l0)
             /\ D !! w = Some entry
             /\ forall l', (l0 < l' <= l)%nat -> D !! slice text i (i + l') = None.
Proof.
  induction l as [|l IH]; simpl; [discriminate|].
  destruct (D !! slice text i (i + S l)) as [e|] eqn:Hhit.
  - intros [= <- <-]. exists (S l). repeat split; try lia; auto.
  - intros H. destruct (IH H) as (l0 & Hl0 & Hw & HD & Hmax).
    exists l0. repeat split; try lia; auto.
    intros l' Hl'. destruct (decide (l' = S l)) as [->|]; [exact Hhit|].
    apply Hmax. lia.
Qed.

Lemma longestMatch_None D text i l :
  longestMatch D text i l = None ->
  forall l', (1 <= l' <= l)%nat -> D !! slice text i (i + l') = None.
Proof.
  induction l as [|l IH]; simpl; intros H l' Hl'; [lia|].
  destruct (D !! slice text i (i + S l)) as [e|] eqn:Hhit; [discriminate H|].
  destruct (decide (l' = S l)) as [->|]; [exact Hhit|].
  apply IH; [exact H | lia].
Qed.

(** The loop returns, and what it appends to [out] is the specified
    segmentation from position [i]. *)
Lemma segmentLoop_spec st text fuel : forall i out,
  (i <= length text)%nat -> (length text - i < fuel)%nat ->
  exists tail, segmentLoop st text fuel i out = Some (out ++ tail)
               /\ Segmentation st text i tail.
Proof.
  induction fuel as [|fuel IH]; intros i out Hi Hfuel; [lia|].
  simpl. destruct (text !! i) as [c|] eqn:Hc.
  - pose proof (lookup_lt_Some _ _ _ Hc) as Hlt.
    destruct (isCJK c) eqn:Hcjk.
    + destruct (longestMatch _ _ _ _) as [[w entry]|] eqn:Hm.
      * apply longestMatch_Some in Hm as (l0 & Hl0 & -> & HD & Hmax).
        rewrite slice_length by lia.
        destruct (IH (i + l0)%nat (out ++ [Token (slice text i (i + l0)) entry]))
          as (tail & Hrun & Hspec); [lia | lia |].
        exists (Token (slice text i (i + l0)) entry :: tail). split.
        -- rewrite Hrun, <- app_assoc. reflexivity.
        -- eapply seg_hit; eauto.
      * destruct (IH (S i) (out ++ [Literal [c]])) as (tail & Hrun & Hspec);
          [lia | lia |].
        exists (Literal [c] :: tail). split.
        -- rewrite Hrun, <- app_assoc. reflexivity.
        -- eapply seg_miss; eauto using longestMatch_None.
    + destruct (IH (S i) (out ++ [Literal [c]])) as (tail & Hrun & Hspec);
        [lia | lia |].
      exists (Literal [c] :: tail). split.
      * rewrite Hrun, <- app_assoc. reflexivity.
      * eapply seg_other; eauto.
  - apply lookup_ge_None in Hc. exists []. split.
    + rewrite app_nil_r. reflexivity.
    + apply seg_done. lia.
Qed.

Lemma segmentChinese_spec st text :
  exists segs, segmentChinese st text = Some segs /\ Segmentation st text 0 segs.
Proof.
  destruct (segmentLoop_spec st text (S (length text)) 0%nat [])
    as (tail & Hrun & Hspec); [lia | lia |].
  exists tail. split; [exact Hrun | exact Hspec].
Qed.

(** The specified segmentation leaves no choice. *)
Local Ltac seg_absurd :=
  exfalso;
  match goal with
  | H : _ !! length _ = Some _ |- _ => apply lookup_lt_Some in H; lia
  | H1 : isCJK ?c = true, H2 : isCJK ?c = false |- _ => congruence
  | Hno : (forall l', (1 <= l' <= _)%nat -> _ = None),
    HD : DICT _ !! slice _ _ (_ + ?l) = Some _ |- _ =>
      rewrite (Hno l) in HD by lia; discriminate
  end.

Lemma Segmentation_unique st text i segs :
  Segmentation st text i segs ->
  forall segs', Segmentation st text i segs' -> segs' = segs.
Proof.
  induction 1 as [i Hi | i c segs Hc Hk _ IH | i c l entry segs Hc Hk Hl HD Hmax _ IH
                 | i c segs Hc Hk Hno _ IH];
    intros segs' H'; inversion H'; subst; simplify_eq;
    try reflexivity; try seg_absurd; try (f_equal; auto; fail).
  match goal with
  | Hl2 : (1 <= ?l2 <= _)%nat, HD2 : DICT st !! slice text i (i + ?l2) = Some ?e2,
    Hmax2 : forall l', (?l2 < l' <= _)%nat -> _ |- _ =>
      assert (l2 = l) as ->
        by (destruct (Nat.lt_trichotomy l2 l) as [Hlt|[Heq|Hgt]];
            [ rewrite (Hmax2 l) in HD by lia; discriminate
            | exact Heq
            | rewrite (Hmax l2) in HD2 by lia; discriminate ]);
      rewrite HD in HD2; injection HD2 as <-
  end.
  f_equal. auto.
Qed.

Lemma Segmentation_concat st text i segs :
  Segmentation st text i segs ->
  concat (map segmentText segs) = drop i text.
Proof.
  induction 1 as [i Hi | i c segs Hc Hk _ IH | i c l entry segs Hc Hk Hl HD Hmax _ IH
                 | i c segs Hc Hk Hno _ IH]; simpl.
  - subst. rewrite drop_all. reflexivity.
  - rewrite IH. symmetry. apply drop_S. exact Hc.
  - rewrite IH. apply slice_drop.
  - rewrite IH. symmetry. apply drop_S. exact Hc.
Qed.

Lemma Segmentation_token st text i segs :
  Segmentation st text i segs ->
  forall k w entry, segs !! k = Some (Token w entry) ->
  let p := (i + segmentStart segs k)%nat in
  let maxL := Nat.min (MAX_WORD_LEN st) (length text - p) in
  w = slice text p (p + length w)
  /\ (1 <= length w <= maxL)%nat
  /\ DICT st !! w = Some entry
  /\ forall L, (length w < L <= maxL)%nat -> DICT st !! slice text p (p + L) = None.
Proof.
  unfold segmentStart.
  induction 1 as [i Hi | i c segs Hc Hk _ IH | i c l entry0 segs Hc Hk Hl HD Hmax _ IH
                 | i c segs Hc Hk Hno _ IH];
    intros [|k] w entry Hk'; simpl in Hk'; try discriminate.
  - specialize (IH k w entry Hk'). simpl in *.
    replace (i + S (length (concat (map segmentText (take k segs)))))%nat
      with (S i + length (concat (map segmentText (take k segs))))%nat by lia.
    exact IH.
  - injection Hk' as <- <-. simpl. rewrite Nat.add_0_r.
    rewrite slice_length by lia. auto.
  - specialize (IH k w entry Hk'). simpl in *.
    rewrite length_app, slice_length by lia.
    rewrite Nat.add_assoc. exact IH.
  - specialize (IH k w entry Hk'). simpl in *.
    replace (i + S (length (concat (map segmentText (take k segs)))))%nat
      with (S i + length (concat (map segmentText (take k segs))))%nat by lia.
    exact IH.
Qed.

(** C4: [segmentChinese] always returns, and its result is the
    segmentation the specification describes (which is unique): scanning
    left to right, a CJK character starts the longest dictionary hit of
    length at most [min MAX_WORD_LEN (N - i)], or a one-character literal
    when there is no hit; any other character is a one-character literal.
    In particular, for a token emitted at position [p] no longer headword
    of length at most [MAX_WORD_LEN] matches at [p]. *)
Theorem segmentChinese_longest_match (st : Store) (text : jsstring) :
  exists segs,
    segmentChinese st text = Some segs
    /\ Segmentation st text 0 segs
    /\ (forall segs', Segmentation st text 0 segs' -> segs' = segs)
    /\ (forall k w entry, segs !! k = Some (Token w entry) ->
        let p := segmentStart segs k in
        w = slice text p (p + length w)
        /\ DICT st !! w = Some entry
        /\ forall L, (length w < L <= MAX_WORD_LEN st)%nat ->
                     (p + L <= length text)%nat ->
                     DICT st !! slice text p (p + L) = None).
Proof.
  destruct (segmentChinese_spec st text) as (segs & Hrun & Hspec).
  exists segs. repeat split; auto.
  - intros segs'. apply Segmentation_unique. exact Hspec.
  - destruct (Segmentation_token _ _ _ _ Hspec k w entry H) as (Hw & _ & _ & _).
    exact Hw.
  - destruct (Segmentation_token _ _ _ _ Hspec k w entry H) as (_ & _ & HD & _).
    exact HD.
  - intros L HL Hfit.
    destruct (Segmentation_token _ _ _ _ Hspec k w entry H) as (_ & _ & _ & Hmax).
    simpl in Hmax. apply Hmax. lia.
Qed.

Lemma Segmentation_shape st text i segs :
  Segmentation st text i segs ->
  Forall (fun seg => match seg with
                     | Literal ch => length ch = 1%nat
                     | Token w _ => (1 <= length w)%nat
                     end) segs.
Proof.
  induction 1 as [i Hi | i c segs Hc Hk _ IH | i c l entry segs Hc Hk Hl HD Hmax _ IH
                 | i c segs Hc Hk Hno _ IH]; constructor; auto.
  rewrite slice_length; lia.
Qed.

(** C9: concatenating the segments of [segmentChinese], each token's
    word and each literal's single character, gives back the input text,
    for every dictionary state. *)
Theorem segmentChinese_concat (st : Store) (text : jsstring) :
  exists segs,
    segmentChinese st text = Some segs
    /\ concat (map segmentText segs) = text
    /\ Forall (fun seg => match seg with
                          | Literal ch => length ch = 1%nat
                          | Token w _ => (1 <= length w)%nat
                          end) segs.
Proof.
  destruct (segmentChinese_spec st text) as (segs & Hrun & Hspec).
  exists segs. split; [exact Hrun|]. split.
  - rewrite (Segmentation_concat _ _ _ _ Hspec). apply drop_0.
  - apply (Segmentation_shape _ _ _ _ Hspec).
Qed.

(** ** Numbers *)

Lemma Qdiv_le_cross (a b c d : Q) :
  (0 < b -> 0 < d -> a * d <= c * b -> a / b <= c / d)%Q.
Proof.
  intros Hb Hd Hcross. apply Qle_shift_div_r; [exact Hb|].
  unfold Qdiv. rewrite <- Qmult_assoc, (Qmult_comm (/ d)), Qmult_assoc.
  apply Qle_shift_div_l; assumption.
Qed.

Lemma pow2_pos (e : Z) : (0 < 2 ^ e)%Q.
Proof. apply Qpower_0_lt. reflexivity. Qed.

Lemma pow2_nat (e : Z) : 0 <= e -> (2 ^ e == inject_Z (2 ^ e))%Q.
Proof. intros He. rewrite Zpower_Qpower by exact He. reflexivity. Qed.

Lemma binade_le (x : Q) : (0 < x -> 2 ^ binade x <= x)%Q.
Proof.
  intros Hx. unfold binade.
  destruct (Qle_bool _ x) eqn:Hle; [apply Qle_bool_iff; exact Hle|].
  destruct x as [p q]. cbn [Qnum Qden].
  assert (Hp : 0 < p) by (unfold Qlt in Hx; simpl in Hx; lia).
  destruct (Z.log2_spec p Hp) as [Hp1 _].
  destruct (Z.log2_spec (Z.pos q) (Pos2Z.is_pos q)) as [_ Hq2].
  pose proof (Z.log2_nonneg p) as Hlp. pose proof (Z.log2_nonneg (Z.pos q)) as Hlq.
  replace (Z.log2 p - Z.log2 (Z.pos q) - 1) with (Z.log2 p - Z.succ (Z.log2 (Z.pos q)))
    by lia.
  rewrite Qpower_minus by discriminate.
  rewrite (pow2_nat (Z.log2 p)) by exact Hlp.
  rewrite (pow2_nat (Z.succ (Z.log2 (Z.pos q)))) by lia.
  rewrite (Qmake_Qdiv p q).
  assert (HA : (0 < inject_Z (2 ^ Z.log2 p))%Q).
  { change 0%Q with (inject_Z 0). rewrite <- Zlt_Qlt. lia. }
  assert (HB : (0 < inject_Z (2 ^ Z.succ (Z.log2 (Z.pos q))))%Q).
  { change 0%Q with (inject_Z 0). rewrite <- Zlt_Qlt. lia. }
  assert (HQ : (0 < inject_Z (Z.pos q))%Q) by reflexivity.
  apply Qdiv_le_cross; [exact HB | exact HQ |].
  rewrite <- !inject_Z_mult, <- Zle_Qle. nia.
Qed.

Lemma roundNearestEven_bounds (m : Q) :
  Qfloor m <= roundNearestEven m <= Qfloor m + 1
  /\ (inject_Z (roundNearestEven m) <= m + (1 # 2))%Q.
Proof.
  unfold roundNearestEven. pose proof (Qfloor_le m) as Hf. pose proof (Qlt_floor m) as Hc.
  rewrite inject_Z_plus in Hc. change (inject_Z 1) with 1%Q in Hc.
  destruct (Qcompare_spec (m - inject_Z (Qfloor m)) (1 # 2)) as [Heq|Hlt|Hgt].
  - destruct (Z.even (Qfloor m)); (split; [lia|]);
      [|rewrite inject_Z_plus; change (inject_Z 1) with 1%Q]; lra.
  - split; [lia|lra].
  - split; [lia|]. rewrite inject_Z_plus. change (inject_Z 1) with 1%Q. lra.
Qed.

Lemma roundPositive_nonneg (x : Q) : (0 < x -> 0 <= roundPositive x)%Q.
Proof.
  intros Hx. unfold roundPositive. pose proof (pow2_pos (Z.max (binade x) (-1022) - 52)) as Hq.
  fold (quantum x) in Hq.
  apply Qmult_le_0_compat; [|lra].
  destruct (roundNearestEven_bounds (x / quantum x)) as [[Hlo _] _].
  change 0%Q with (inject_Z 0). rewrite <- Zle_Qle.
  etransitivity; [|exact Hlo]. rewrite <- (Qfloor_Z 0). apply Qfloor_resp_le.
  apply Qle_shift_div_l; [exact Hq|]. change (inject_Z 0) with 0%Q. lra.
Qed.

Lemma round64_zero (x : Q) : (x == 0)%Q -> round64 x = 0%Q.
Proof. intros Hx. unfold round64. apply Qeq_alt in Hx. rewrite Hx. reflexivity. Qed.

Lemma round64_nonneg (x : Q) : (0 <= x -> 0 <= round64 x)%Q.
Proof.
  intros Hx. unfold round64.
  destruct (Qcompare_spec x 0) as [Heq|Hlt|Hgt]; [lra | lra |].
  apply roundPositive_nonneg. exact Hgt.
Qed.

(** Rounding moves a positive number by at most half the spacing, which
    is at most [x * 2^-53] above the subnormal range. *)
Lemma round64_above (x : Q) :
  (0 < x -> round64 x <= x + x * 2 ^ (-53) \/ round64 x <= x + 2 ^ (-1075))%Q.
Proof.
  intros Hx. unfold round64. apply Qgt_alt in Hx as Hcmp. rewrite Hcmp.
  unfold roundPositive.
  pose proof (pow2_pos (Z.max (binade x) (-1022) - 52)) as Hq. fold (quantum x) in Hq.
  destruct (roundNearestEven_bounds (x / quantum x)) as [_ Hhalf].
  assert (Hround : (inject_Z (roundNearestEven (x / quantum x)) * quantum x
                    <= x + quantum x * (1 # 2))%Q).
  { apply (Qmult_le_compat_r _ _ (quantum x)) in Hhalf; [|lra].
    rewrite Qmult_plus_distr_l in Hhalf.
    assert (Hdiv : (x / quantum x * quantum x == x)%Q).
    { unfold Qdiv. rewrite <- Qmult_assoc, (Qmult_comm (/ _)), Qmult_inv_r; lra. }
    rewrite Hdiv in Hhalf. lra. }
  unfold quantum in *.
  destruct (Z.max_spec (binade x) (-1022)) as [[_ Hm]|[_ Hm]]; rewrite Hm in *; clear Hm.
  - right. change (-1022 - 52) with (-1074) in *.
    assert (Hc : (2 ^ (-1074) * (1 # 2) == 2 ^ (-1075))%Q) by reflexivity.
    set (a := (2 ^ (-1074))%Q) in *. set (b := (2 ^ (-1075))%Q) in *.
    set (r := (inject_Z (roundNearestEven (x / a)) * a)%Q) in *. lra.
  - left. pose proof (binade_le x Hx) as Hb.
    replace (binade x - 52) with (binade x + (-52)) in * by lia.
    assert (Hsplit : (2 ^ (binade x + -52) == 2 ^ binade x * 2 ^ (-52))%Q)
      by (apply Qpower_plus; discriminate).
    assert (Hc : (2 ^ (-52) * (1 # 2) == 2 ^ (-53))%Q) by reflexivity.
    assert (H53 : (0 < 2 ^ (-53))%Q) by reflexivity.
    set (q := (2 ^ (binade x + -52))%Q) in *.
    set (r := (inject_Z (roundNearestEven (x / q)) * q)%Q) in *.
    set (a := (2 ^ binade x)%Q) in *. set (b := (2 ^ (-52))%Q) in *.
    set (c := (2 ^ (-53))%Q) in *. nra.
Qed.

Lemma randomNumber_range (x : Q) :
  (0 <= x -> 0 <= randomNumber x /\ randomNumber x <= 1 - 2 ^ (-53))%Q.
Proof.
  intros Hx. unfold randomNumber.
  destruct (Qle_bool (round64 x) _) eqn:Hle.
  - split; [apply round64_nonneg, Hx | apply Qle_bool_iff, Hle].
  - split; [discriminate | apply Qle_refl].
Qed.

(** The index drawn is in range: the double product of a Number below
    1 and a length never reaches the length. *)
Lemma random_index (x : Q) (n : nat) :
  (0 <= x)%Q -> (x < 1)%Q -> (1 <= n)%nat -> 0 <= randomIndex x n < Z.of_nat n.
Proof.
  intros H0 _ Hn. unfold randomIndex.
  destruct (randomNumber_range x H0) as [Hlo Hhi].
  set (d := randomNumber x) in *. set (N := inject_Z (Z.of_nat n)).
  assert (HN : (1 <= N)%Q).
  { unfold N. change 1%Q with (inject_Z 1). rewrite <- Zle_Qle. lia. }
  assert (Hy0 : (0 <= d * N)%Q) by (apply Qmult_le_0_compat; lra).
  assert (Hy1 : (d * N <= N - N * 2 ^ (-53))%Q).
  { apply (Qmult_le_compat_r _ _ N) in Hhi; lra. }
  assert (H53 : (2 ^ (-53) == 1 # 9007199254740992)%Q) by reflexivity.
  assert (H1075 : (2 ^ (-1075) < 2 ^ (-53))%Q) by reflexivity.
  split.
  - rewrite <- (Qfloor_Z 0). apply Qfloor_resp_le, round64_nonneg, Hy0.
  - rewrite Zlt_Qlt. fold N. eapply Qle_lt_trans; [apply Qfloor_le|].
    destruct (Qlt_le_dec 0 (d * N)) as [Hpos|Hzero].
    + destruct (round64_above (d * N) Hpos) as [Hrel|Habs].
      * eapply Qle_lt_trans; [exact Hrel|]. rewrite H53 in *. nra.
      * eapply Qle_lt_trans; [exact Habs|]. rewrite H53 in *. nra.
    + rewrite (round64_zero (d * N)) by lra. lra.
Qed.

Lemma binade_lt (x : Q) (e : Z) : (0 < x)%Q -> (x < 2 ^ e)%Q -> binade x < e.
Proof.
  intros Hx Hlt. pose proof (binade_le x Hx) as Hle.
  apply (Qpower_lt_compat_l_inv 2); [|reflexivity].
  eapply Qle_lt_trans; eassumption.
Qed.

(** Below [2^53] the doubles include every integer, so rounding never
    crosses one: the floor of the rounded value is the floor of the
    exact one, or one more when the value rounds up to an integer. *)
Lemma round64_floor (x : Q) :
  (0 <= x)%Q -> (x < 2 ^ 53)%Q ->
  Qfloor x <= Qfloor (round64 x) <= Qfloor x + 1.
Proof.
  intros H0 Hbig.
  destruct (Qlt_le_dec 0 x) as [Hx|Hzero].
  2:{ rewrite (round64_zero x) by lra. rewrite (Qfloor_comp x 0) by lra.
      change (Qfloor 0) with 0. lia. }
  pose proof (binade_lt x 53 Hx Hbig) as He.
  unfold round64. apply Qgt_alt in Hx as Hcmp. rewrite Hcmp. unfold roundPositive, quantum.
  set (e := Z.max (binade x) (-1022)).
  assert (He' : e <= 52) by (unfold e; lia).
  set (K := 2 ^ (52 - e)).
  assert (HK : 1 <= K) by (unfold K; pose proof (Z.pow_pos_nonneg 2 (52 - e)); lia).
  assert (Hq : (2 ^ (e - 52) == / inject_Z K)%Q).
  { replace (e - 52) with (- (52 - e)) by lia. rewrite Qpower_opp.
    unfold K. rewrite (pow2_nat (52 - e)) by lia. reflexivity. }
  assert (HKq : (0 < inject_Z K)%Q).
  { change 0%Q with (inject_Z 0). rewrite <- Zlt_Qlt. lia. }
  assert (HM : (x / 2 ^ (e - 52) == x * inject_Z K)%Q).
  { rewrite Hq. unfold Qdiv. rewrite Qinv_involutive. reflexivity. }
  destruct (roundNearestEven_bounds (x / 2 ^ (e - 52))) as [[Hlo Hhi] _].
  rewrite (Qfloor_comp _ _ HM) in Hlo, Hhi.
  set (R := roundNearestEven (x / 2 ^ (e - 52))) in *.
  pose proof (Qfloor_le x) as Hfl. pose proof (Qlt_floor x) as Hfu.
  set (m := Qfloor x) in *.
  assert (HmK : m * K <= Qfloor (x * inject_Z K)).
  { rewrite <- (Qfloor_Z (m * K)). apply Qfloor_resp_le.
    rewrite inject_Z_mult. apply Qmult_le_compat_r; lra. }
  assert (HMK : Qfloor (x * inject_Z K) < (m + 1) * K).
  { rewrite Zlt_Qlt. eapply Qle_lt_trans; [apply Qfloor_le|].
    rewrite inject_Z_mult. apply Qmult_lt_compat_r; assumption. }
  assert (Hval : (inject_Z R * 2 ^ (e - 52) == inject_Z R / inject_Z K)%Q).
  { rewrite Hq. reflexivity. }
  rewrite (Qfloor_comp _ _ Hval). split.
  - rewrite <- (Qfloor_Z m) at 1. apply Qfloor_resp_le.
    apply Qle_shift_div_l; [exact HKq|].
    rewrite <- inject_Z_mult, <- Zle_Qle. lia.
  - rewrite <- (Qfloor_Z (m + 1)). apply Qfloor_resp_le.
    apply Qle_shift_div_r; [exact HKq|].
    rewrite <- inject_Z_mult, <- Zle_Qle. lia.
Qed.

(** ** Selector *)








(** The target against the exact product: for a Number [p >= 0] and
    [k * p < 2^53], the floor the code computes is the floor of the
    exact product or, when the double product rounds up to an integer,
    one more. *)
Lemma sampleTarget_exact (k : nat) (p : Q) :
  (0 <= round64 p)%Q -> (inject_Z (Z.of_nat k) * round64 p < 2 ^ 53)%Q ->
  Z.max 1 (Qfloor (inject_Z (Z.of_nat k) * round64 p)) <= sampleTarget k p
  /\ sampleTarget k p <= Z.max 1 (Qfloor (inject_Z (Z.of_nat k) * round64 p) + 1).
Proof.
  intros Hp Hbig. unfold sampleTarget.
  assert (Hk : (0 <= inject_Z (Z.of_nat k))%Q).
  { change 0%Q with (inject_Z 0). rewrite <- Zle_Qle. lia. }
  pose proof (round64_floor (inject_Z (Z.of_nat k) * round64 p)
                (Qmult_le_0_compat _ _ Hk Hp) Hbig).
  lia.
Qed.

Example sampleTarget_examples :
  sampleTarget 20 (15 # 100) = 3 /\ Qfloor (20 * round64 (15 # 100)) = 2
  /\ sampleTarget 10 (7 # 10) = 7 /\ sampleTarget 100 (29 # 100) = 28
  /\ sampleTarget 3 (1 # 2) = 1 /\ sampleTarget 40 (1 # 4) = 10.
Proof. vm_compute. repeat split. Qed.


(** ** Renderer and revert *)

Lemma textChildren_text (s : jsstring) :
  concat (map textContent (textChildren s)) = s.
Proof. destruct s; simpl; [reflexivity | rewrite app_nil_r; reflexivity]. Qed.

Lemma createSpan_textContent word entry (l t : bool) :
  textContent (createSpan word entry l t)
  = (if l then [32] else []) ++ displaySense word entry ++ (if t then [32] else []).
Proof. unfold createSpan. simpl. apply textChildren_text. Qed.

Lemma createSpan_original word entry l t :
  getAttribute "data-original" (createSpan word entry l t) = Some word.
Proof. reflexivity. Qed.

Lemma createSpan_matches word entry l t :
  matchesSpan (createSpan word entry l t) = true.
Proof. reflexivity. Qed.

Lemma revertNode_createSpan word entry l t :
  revertNode (createSpan word entry l t) = TextNode word.
Proof. reflexivity. Qed.

Lemma revertNode_renderSegment segments replaceSet i seg :
  revertNode (renderSegment segments replaceSet i seg) = TextNode (segmentText seg).
Proof.
  destruct seg as [s|w entry]; simpl; [reflexivity|].
  destruct (bool_decide (i ∈ replaceSet)); [|reflexivity].
  destruct (spacing segments replaceSet i) as [l t].
  apply revertNode_createSpan.
Qed.

Lemma revert_imap (f : nat -> Segment -> Node) (segs : list Segment) :
  (forall i seg, revertNode (f i seg) = TextNode (segmentText seg)) ->
  map revertNode (imap f segs) = map (fun seg => TextNode (segmentText seg)) segs.
Proof.
  revert f. induction segs as [|seg segs IH]; intros f Hf; simpl; [reflexivity|].
  rewrite Hf. f_equal. apply IH. intros i seg'. apply Hf.
Qed.

Lemma revert_render segments replaceSet :
  map revertNode (render segments replaceSet)
  = map (fun seg => TextNode (segmentText seg)) segments.
Proof. apply revert_imap. intros i seg. apply revertNode_renderSegment. Qed.

Lemma textContent_textNodes (segs : list Segment) :
  concat (map textContent (map (fun seg => TextNode (segmentText seg)) segs))
  = concat (map segmentText segs).
Proof. rewrite map_map. reflexivity. Qed.

Lemma render_lookup segments replaceSet i :
  render segments replaceSet !! i
  = renderSegment segments replaceSet i <$> segments !! i.
Proof. unfold render. apply list_lookup_imap. Qed.

Lemma render_lookup_replaced segments replaceSet i w entry :
  segments !! i = Some (Token w entry) -> i ∈ replaceSet ->
  render segments replaceSet !! i
  = Some (createSpan w entry (fst (spacing segments replaceSet i))
                             (snd (spacing segments replaceSet i))).
Proof.
  intros Hseg Hin. rewrite render_lookup, Hseg. simpl.
  rewrite bool_decide_eq_true_2 by exact Hin.
  destruct (spacing segments replaceSet i); reflexivity.
Qed.

Lemma replaceInNode_render toLowerCase st settings random stats text frag stats' :
  replaceInNode toLowerCase st settings random stats text = Some (Some frag, stats') ->
  exists segs replaceSet,
    segmentChinese st text = Some segs /\ frag = render segs replaceSet.
Proof.
  unfold replaceInNode. destruct (segmentChinese st text) as [segs|]; simpl;
    [|discriminate].
  destruct (length _ =? 0)%nat; [discriminate|].
  intros [= <- _]. eauto.
Qed.

(** C3: for every run, dictionary state and selection, each replacement
    unit of the rendered fragment carries the exact original word in
    [data-original], [revertAll] turns the fragment back into text nodes
    that spell the run code unit for code unit, whatever siblings surround
    it, and the same holds for the fragment [replaceInNode] builds. *)
Theorem revert_render_roundtrip (st : Store) (text : jsstring)
    (replaceSet : gset nat) :
  exists segs,
    segmentChinese st text = Some segs
    /\ (forall i w entry,
          segs !! i = Some (Token w entry) -> i ∈ replaceSet ->
          exists span, render segs replaceSet !! i = Some span
                       /\ matchesSpan span = true
                       /\ getAttribute "data-original" span = Some w)
    /\ concat (map textContent (map revertNode (render segs replaceSet))) = text
    /\ (forall name classes attrs before after,
          exists root',
            revertAll (Element name classes attrs
                         (before ++ render segs replaceSet ++ after)) = Some root'
            /\ textContent root'
               = concat (map textContent (map revertNode before)) ++ text
                 ++ concat (map textContent (map revertNode after)))
    /\ (forall toLowerCase settings random stats frag stats',
          replaceInNode toLowerCase st settings random stats text
            = Some (Some frag, stats') ->
          concat (map textContent (map revertNode frag)) = text).
Proof.
  destruct (segmentChinese_spec st text) as (segs & Hrun & Hspec).
  pose proof (Segmentation_concat _ _ _ _ Hspec) as Hcat. rewrite drop_0 in Hcat.
  assert (Hback : forall S : gset nat,
             concat (map textContent (map revertNode (render segs S))) = text).
  { intros S. rewrite revert_render, textContent_textNodes. exact Hcat. }
  exists segs. split; [exact Hrun|]. split; [|split; [|split]].
  - intros i w entry Hseg Hin. eexists. split.
    + apply render_lookup_replaced; eassumption.
    + split; [apply createSpan_matches | apply createSpan_original].
  - apply Hback.
  - intros name classes attrs before after. eexists. split; [reflexivity|].
    simpl. rewrite !map_app, !concat_app, Hback. reflexivity.
  - intros toLowerCase settings random stats frag stats' Hrep.
    apply replaceInNode_render in Hrep as (segs' & S & Hrun' & ->).
    rewrite Hrun in Hrun'. injection Hrun' as <-. apply Hback.
Qed.

Lemma Segmentation_tokensNonEmpty st text i segs :
  Segmentation st text i segs -> tokensNonEmpty segs.
Proof.
  intros Hspec k w entry Hk.
  destruct (Segmentation_token _ _ _ _ Hspec k w entry Hk) as (_ & Hlen & _).
  intros ->. simpl in Hlen. lia.
Qed.

Lemma segmentChinese_tokensNonEmpty st text segs :
  segmentChinese st text = Some segs -> tokensNonEmpty segs.
Proof.
  intros Hrun. destruct (segmentChinese_spec st text) as (segs' & Hrun' & Hspec).
  rewrite Hrun in Hrun'. injection Hrun' as <-.
  eapply Segmentation_tokensNonEmpty. exact Hspec.
Qed.

Lemma chooseSense_no_senses entry :
  en entry = None \/ en entry = Some [] -> chooseSense entry = [].
Proof. unfold chooseSense. intros [-> | ->]; reflexivity. Qed.

Lemma displaySense_nonempty word entry :
  word <> [] -> displaySense word entry <> [].
Proof.
  unfold displaySense. intros Hw. destruct (chooseSense entry); [exact Hw | discriminate].
Qed.

(** C10: when an entry's sense list is empty or missing, [chooseSense]
    returns the empty string and [createSpan] displays the original word
    (between the optional spaces); and every replacement unit rendered
    for a segmented run displays a non-empty text, whatever the entry. *)
Theorem createSpan_display_fallback (st : Store) (text : jsstring)
    (replaceSet : gset nat) :
  (forall entry, en entry = None \/ en entry = Some [] ->
     chooseSense entry = []
     /\ forall word (l t : bool),
          textContent (createSpan word entry l t)
          = (if l then [32] else []) ++ word ++ (if t then [32] else []))
  /\ exists segs,
       segmentChinese st text = Some segs
       /\ forall i w entry,
            segs !! i = Some (Token w entry) -> i ∈ replaceSet ->
            exists l t : bool,
              render segs replaceSet !! i = Some (createSpan w entry l t)
              /\ textContent (createSpan w entry l t)
                 = (if l then [32] else []) ++ displaySense w entry
                   ++ (if t then [32] else [])
              /\ displaySense w entry <> [].
Proof.
  split.
  - intros entry Hen. pose proof (chooseSense_no_senses entry Hen) as Hsense.
    split; [exact Hsense|]. intros word l t.
    rewrite createSpan_textContent. unfold displaySense. rewrite Hsense. reflexivity.
  - destruct (segmentChinese_spec st text) as (segs & Hrun & Hspec).
    exists segs. split; [exact Hrun|].
    intros i w entry Hseg Hin. do 2 eexists. split; [|split].
    + apply render_lookup_replaced; eassumption.
    + apply createSpan_textContent.
    + apply displaySense_nonempty.
      eapply Segmentation_tokensNonEmpty; eassumption.
Qed.

Lemma createSpan_display_fallback_witness :
  chooseSense {| en := None; py := []; tag := "other"; pos := None |} = []
  /\ textContent (createSpan ni_hao {| en := Some []; py := []; tag := "other";
                                       pos := None |} true false)
     = [32] ++ ni_hao
  /\ exists l t : bool,
       render [Token ni_hao entry_ni_hao] {[ 0%nat ]} !! 0%nat
       = Some (createSpan ni_hao entry_ni_hao l t)
       /\ displaySense ni_hao entry_ni_hao <> [].
Proof.
  destruct (createSpan_display_fallback initial_store ni_hao {[ 0%nat ]})
    as (Hfallback & segs & Hrun & Hunits).
  split; [|split].
  - apply (Hfallback {| en := None; py := []; tag := "other"; pos := None |}).
    left. reflexivity.
  - apply (Hfallback {| en := Some []; py := []; tag := "other"; pos := None |}).
    right. reflexivity.
  - vm_compute in Hrun. injection Hrun as <-.
    destruct (Hunits 0%nat ni_hao entry_ni_hao) as (l & t & Hspan & _ & Hshown).
    + reflexivity.
    + apply elem_of_singleton. reflexivity.
    + exists l, t. split; [exact Hspan | exact Hshown].
Defined.

(** *** Spacing *)

(** [charKind] answers CJK or LATIN exactly for the strings whose first
    code unit is an ideograph, a digit or a letter. *)
Lemma charKind_CJKorLATIN (s : jsstring) :
  isCJKorLATIN (charKind s) = true
  <-> exists c rest, s = c :: rest
        /\ (0x4E00 <= c <= 0x9FFF
            \/ 48 <= c <= 57 \/ 65 <= c <= 90 \/ 97 <= c <= 122).
Proof.
  destruct s as [|c rest].
  { split; [discriminate | intros (c & rest & Hs & _); discriminate]. }
  assert (Hcode : exists code, codePointAt0 (c :: rest) = Some code
                    /\ (code = c \/ (0xD800 <= c <= 0xDBFF /\ 0x10000 <= code))).
  { unfold codePointAt0.
    destruct (Z.leb_spec 0xD800 c); destruct (Z.leb_spec c 0xDBFF); cbn [andb];
      try (eexists; split; [reflexivity | left; reflexivity]).
    destruct rest as [|lo rest']; [eexists; split; [reflexivity | left; reflexivity]|].
    destruct (Z.leb_spec 0xDC00 lo); destruct (Z.leb_spec lo 0xDFFF); cbn [andb];
      try (eexists; split; [reflexivity | left; reflexivity]).
    eexists. split; [reflexivity|]. right. lia. }
  destruct Hcode as (code & Hcp & Hcases).
  unfold charKind. rewrite Hcp.
  assert (Hspace : (code =? 32) || jsstring_eqb (c :: rest) [10]
                   || jsstring_eqb (c :: rest) [9] || jsstring_eqb (c :: rest) [13] = true ->
                   code = 32 \/ c = 10 \/ c = 9 \/ c = 13).
  { intros H. repeat (apply orb_prop in H as [H|H]).
    - left. apply Z.eqb_eq. exact H.
    - right. left. unfold jsstring_eqb in H. apply bool_decide_eq_true in H. congruence.
    - right. right. left. unfold jsstring_eqb in H. apply bool_decide_eq_true in H.
      congruence.
    - right. right. right. unfold jsstring_eqb in H. apply bool_decide_eq_true in H.
      congruence. }
  destruct ((code =? 32) || jsstring_eqb (c :: rest) [10]
            || jsstring_eqb (c :: rest) [9] || jsstring_eqb (c :: rest) [13]) eqn:Hsp.
  { specialize (Hspace eq_refl). split; [discriminate|].
    intros (c' & rest' & [= <- <-] & Hrange). exfalso. lia. }
  clear Hspace. unfold isCJK.
  destruct (Z.leb_spec 0x4E00 code); destruct (Z.leb_spec code 0x9FFF); cbn [andb];
    try (split; [intros _; exists c, rest; split; [reflexivity|lia]
                | reflexivity]).
  all: destruct (Z.leb_spec 48 code); destruct (Z.leb_spec code 57);
    destruct (Z.leb_spec 65 code); destruct (Z.leb_spec code 90);
    destruct (Z.leb_spec 97 code); destruct (Z.leb_spec code 122); cbn [andb orb];
    try (split; [intros _; exists c, rest; split; [reflexivity|lia] | reflexivity]);
    try (split; [discriminate | intros (c' & rest' & [= <- <-] & Hrange); exfalso; lia]).
Qed.

Lemma spacing_leading segments replaceSet i :
  fst (spacing segments replaceSet i) = true <-> leadingSpaceSpec segments replaceSet i.
Proof.
  unfold spacing, leadingSpaceSpec.
  destruct (if (i <? length segments - 1)%nat then _ else _) as [nextKind nextIsReplaced].
  cbn [fst]. destruct i as [|j].
  { split; [discriminate | intros (j & Hj & _); discriminate]. }
  cbn [Nat.ltb Nat.leb]. replace (S j - 1)%nat with j by lia.
  destruct (segments !! j) as [[s|w entry]|] eqn:Hseg.
  - rewrite charKind_CJKorLATIN. split.
    + intros (c & rest & -> & [Hcjk|Hlatin]); exists j; (split; [reflexivity|]).
      * eapply literal_ideograph_CJK; eassumption.
      * eapply literal_alphanumeric_LATINish; eassumption.
    + intros (j' & [= <-] & Hclass).
      destruct Hclass as [w e Hw|w e Hw|c rest Hc Hr|c rest Hc Hr]; try congruence;
        rewrite Hseg in Hc; injection Hc as ->; exists c, rest; auto.
  - split.
    + intros _. exists j. split; [reflexivity|].
      destruct (decide (j ∈ replaceSet)).
      * eapply replaced_token_LATINish; eassumption.
      * eapply unreplaced_token_CJK; eassumption.
    + intros _. destruct (bool_decide (j ∈ replaceSet)); reflexivity.
  - split; [discriminate|].
    intros (j' & [= <-] & Hclass). destruct Hclass; congruence.
Qed.

Lemma spacing_trailing segments replaceSet i :
  snd (spacing segments replaceSet i) = true <-> trailingSpaceSpec segments replaceSet i.
Proof.
  unfold spacing, trailingSpaceSpec, selectedReplacement.
  replace (i + 1)%nat with (S i) by lia.
  destruct (Nat.ltb_spec i (length segments - 1)) as [Hlt|Hge].
  - destruct (segments !! S i) as [[s|w entry]|] eqn:Hseg; cbn [snd].
    + rewrite andb_true_r, charKind_CJKorLATIN. split.
      * intros (c & rest & -> & Hrange). split.
        -- destruct Hrange as [Hcjk|Hlatin].
           ++ eapply literal_ideograph_CJK; eassumption.
           ++ eapply literal_alphanumeric_LATINish; eassumption.
        -- intros (w & entry & Hw & _). congruence.
      * intros [Hclass _].
        destruct Hclass as [w e Hw|w e Hw|c rest Hc Hr|c rest Hc Hr]; try congruence;
          rewrite Hseg in Hc; injection Hc as ->; exists c, rest; auto.
    + destruct (decide (S i ∈ replaceSet)) as [Hin|Hout].
      * rewrite bool_decide_eq_true_2 by exact Hin. cbn. split; [discriminate|].
        intros [_ Hnot]. exfalso. apply Hnot. eauto.
      * rewrite bool_decide_eq_false_2 by exact Hout. cbn. split; [|reflexivity].
        intros _. split.
        -- eapply unreplaced_token_CJK; eassumption.
        -- intros (w' & entry' & _ & Hin). contradiction.
    + apply lookup_ge_None in Hseg. lia.
  - cbn [snd isCJKorLATIN andb]. split; [discriminate|].
    intros [Hclass _].
    assert (Hnone : segments !! S i = None) by (apply lookup_ge_None; lia).
    destruct Hclass; congruence.
Qed.

Lemma spacing_spec segments replaceSet i :
  exists leading trailing : bool,
    spacing segments replaceSet i = (leading, trailing)
    /\ (leading = true <-> leadingSpaceSpec segments replaceSet i)
    /\ (trailing = true <-> trailingSpaceSpec segments replaceSet i).
Proof.
  pose proof (spacing_leading segments replaceSet i) as Hl.
  pose proof (spacing_trailing segments replaceSet i) as Ht.
  destruct (spacing segments replaceSet i) as [l t]. exists l, t. auto.
Qed.

Lemma imap_map_ext {A B C D} (f1 : nat -> A -> B) (f2 : nat -> A -> C)
    (g : B -> D) (h : C -> D) (l : list A) :
  (forall i x, g (f1 i x) = h (f2 i x)) ->
  map g (imap f1 l) = map h (imap f2 l).
Proof.
  revert f1 f2. induction l as [|x l IH]; intros f1 f2 Hfg; simpl; [reflexivity|].
  rewrite Hfg. f_equal. apply IH. intros i y. apply Hfg.
Qed.

Lemma plain_erase (s : jsstring) : map fst (plain s) = s.
Proof. unfold plain. rewrite map_map. simpl. apply map_id. Qed.

Lemma insertedSpace_erase (b : bool) :
  map fst (insertedSpace b) = if b then [32] else [].
Proof. destruct b; reflexivity. Qed.

Lemma markedSegment_erase segments replaceSet i seg :
  map fst (markedSegment segments replaceSet i seg)
  = textContent (renderSegment segments replaceSet i seg).
Proof.
  destruct seg as [s|w entry]; simpl; [apply plain_erase|].
  destruct (bool_decide (i ∈ replaceSet)); [|apply plain_erase].
  destruct (spacing segments replaceSet i) as [l t].
  rewrite createSpan_textContent, !map_app, plain_erase, !insertedSpace_erase.
  reflexivity.
Qed.

Lemma markedOutput_erase segments replaceSet :
  map fst (markedOutput segments replaceSet)
  = concat (map textContent (render segments replaceSet)).
Proof.
  unfold markedOutput, render. rewrite concat_map. f_equal.
  apply imap_map_ext. intros i seg. apply markedSegment_erase.
Qed.

Lemma startsMarked_plain_app s rest :
  s <> [] -> startsMarked (plain s ++ rest) = false.
Proof. destruct s; [congruence | reflexivity]. Qed.

Lemma startsMarked_plain s : startsMarked (plain s) = false.
Proof. destruct s; reflexivity. Qed.

Lemma endsMarked_app x y :
  endsMarked (x ++ y) = match y with [] => endsMarked x | _ :: _ => endsMarked y end.
Proof.
  induction x as [|a x IH]; simpl.
  - destruct y; reflexivity.
  - destruct y as [|b y]; [rewrite app_nil_r; reflexivity|].
    rewrite IH. destruct x; reflexivity.
Qed.

Lemma endsMarked_plain s : endsMarked (plain s) = false.
Proof.
  induction s as [|c s IH]; [reflexivity|]. simpl.
  destruct s; [reflexivity | exact IH].
Qed.

Lemma adjacentInserted_plain s : adjacentInserted (plain s) = false.
Proof. induction s as [|c s IH]; [reflexivity | exact IH]. Qed.

Lemma adjacentInserted_app x y :
  adjacentInserted (x ++ y)
  = adjacentInserted x || adjacentInserted y || (endsMarked x && startsMarked y).
Proof.
  induction x as [|a x IH]; simpl.
  - rewrite orb_false_r. reflexivity.
  - rewrite IH. destruct x as [|b x]; simpl.
    + destruct (snd a), (startsMarked y), (adjacentInserted y); reflexivity.
    + destruct (snd a), (snd b), (adjacentInserted (b :: x)), (adjacentInserted y),
        (endsMarked (b :: x)), (startsMarked y); reflexivity.
Qed.

Lemma concat_no_adjacent (blocks : list (list (Z * bool))) :
  (forall i b, blocks !! i = Some b -> adjacentInserted b = false) ->
  (forall i b, blocks !! i = Some b -> endsMarked b = true ->
     exists b', blocks !! S i = Some b' /\ b' <> [] /\ startsMarked b' = false) ->
  adjacentInserted (concat blocks) = false.
Proof.
  induction blocks as [|b blocks IH]; intros Hin Hnext; simpl; [reflexivity|].
  rewrite adjacentInserted_app, (Hin 0%nat b eq_refl), IH; simpl.
  - destruct (endsMarked b) eqn:Hend; [|reflexivity]. simpl.
    destruct (Hnext 0%nat b eq_refl Hend) as (b' & Hb' & Hne & Hstart).
    destruct blocks as [|b0 blocks]; [discriminate|]. injection Hb' as ->.
    simpl. destruct b' as [|x b']; [congruence | exact Hstart].
  - intros i b0 Hb0. apply (Hin (S i) b0 Hb0).
  - intros i b0 Hb0. apply (Hnext (S i) b0 Hb0).
Qed.

Lemma insertedSpace_no_adjacent b : adjacentInserted (insertedSpace b) = false.
Proof. destruct b; reflexivity. Qed.

Lemma replaced_block_no_adjacent (l t : bool) (d : jsstring) :
  d <> [] ->
  adjacentInserted (insertedSpace l ++ plain d ++ insertedSpace t) = false.
Proof.
  intros Hd. rewrite !adjacentInserted_app, adjacentInserted_plain,
    !insertedSpace_no_adjacent, endsMarked_plain, startsMarked_plain_app by exact Hd.
  simpl. rewrite andb_false_r. reflexivity.
Qed.

Lemma replaced_block_ends (l t : bool) (d : jsstring) :
  d <> [] -> endsMarked (insertedSpace l ++ plain d ++ insertedSpace t) = t.
Proof.
  intros Hd.
  assert (Htail : endsMarked (plain d ++ insertedSpace t) = t).
  { rewrite endsMarked_app. destruct t; [reflexivity | apply endsMarked_plain]. }
  rewrite endsMarked_app.
  destruct (plain d ++ insertedSpace t) as [|x rest] eqn:Hblock; [|exact Htail].
  destruct d; [congruence | discriminate].
Qed.

Lemma markedSegment_no_adjacent segments replaceSet i seg :
  (forall w entry, seg = Token w entry -> w <> []) ->
  adjacentInserted (markedSegment segments replaceSet i seg) = false.
Proof.
  intros Hwf. destruct seg as [s|w entry]; simpl; [apply adjacentInserted_plain|].
  destruct (bool_decide (i ∈ replaceSet)); [|apply adjacentInserted_plain].
  destruct (spacing segments replaceSet i) as [l t].
  apply replaced_block_no_adjacent, displaySense_nonempty. eapply Hwf. reflexivity.
Qed.

Lemma markedSegment_ends segments replaceSet i seg :
  (forall w entry, seg = Token w entry -> w <> []) ->
  endsMarked (markedSegment segments replaceSet i seg) = true ->
  trailingSpaceSpec segments replaceSet i.
Proof.
  intros Hwf. rewrite <- spacing_trailing. destruct seg as [s|w entry]; simpl.
  - rewrite endsMarked_plain. discriminate.
  - destruct (bool_decide (i ∈ replaceSet)).
    + destruct (spacing segments replaceSet i) as [l t]. cbn [snd].
      rewrite replaced_block_ends
        by (apply displaySense_nonempty; eapply Hwf; reflexivity).
      auto.
    + rewrite endsMarked_plain. discriminate.
Qed.

(** A trailing space is followed by the plain text of a non-empty
    literal or of an unreplaced token. *)
Lemma trailing_next segments replaceSet i :
  trailingSpaceSpec segments replaceSet i ->
  exists seg, segments !! S i = Some seg
    /\ ((exists w entry, seg = Token w entry /\ S i ∉ replaceSet)
        \/ (exists c, seg = Literal c /\ c <> [])).
Proof.
  intros [Hclass Hnot].
  destruct Hclass as [w e Hw Hin|w e Hw Hout|c rest Hc _|c rest Hc _].
  - exfalso. apply Hnot. exists w, e. auto.
  - eexists. split; [exact Hw|]. left. eauto.
  - eexists. split; [exact Hc|]. right. eexists. split; [reflexivity|discriminate].
  - eexists. split; [exact Hc|]. right. eexists. split; [reflexivity|discriminate].
Qed.

Lemma markedOutput_no_adjacent segments replaceSet :
  tokensNonEmpty segments ->
  adjacentInserted (markedOutput segments replaceSet) = false.
Proof.
  intros Hwf. unfold markedOutput. apply concat_no_adjacent.
  - intros i b Hb. rewrite list_lookup_imap in Hb.
    destruct (segments !! i) as [seg|] eqn:Hseg; [|discriminate].
    injection Hb as <-. apply markedSegment_no_adjacent.
    intros w entry ->. eapply Hwf. exact Hseg.
  - intros i b Hb Hend. rewrite list_lookup_imap in Hb.
    destruct (segments !! i) as [seg|] eqn:Hseg; [|discriminate].
    injection Hb as <-. apply markedSegment_ends in Hend;
      [|intros w entry ->; eapply Hwf; exact Hseg].
    apply trailing_next in Hend as (seg' & Hseg' & Hcase).
    rewrite list_lookup_imap, Hseg'. eexists. split; [reflexivity|].
    destruct Hcase as [(w & entry & -> & Hnot) | (c & -> & Hc)]; simpl.
    + rewrite bool_decide_eq_false_2 by exact Hnot.
      pose proof (Hwf _ _ _ Hseg') as Hw.
      split; [destruct w; [congruence | discriminate] | apply startsMarked_plain].
    + split; [destruct c; [congruence | discriminate] | apply startsMarked_plain].
Qed.

(** C6: a replacement unit gets a leading space exactly when the element
    before it is CJK or LATIN-ish, and a trailing space exactly when the
    element after it is CJK or LATIN-ish and is not itself a selected
    replacement (a replaced token counting as LATIN-ish, an unreplaced
    one as CJK, the run boundaries as SPACE); and in the rendered text no
    two neighbouring code units are both spaces the renderer inserted. *)
Theorem render_spacing (segments : list Segment) (replaceSet : gset nat) :
  (forall i w entry,
     segments !! i = Some (Token w entry) -> i ∈ replaceSet ->
     exists leading trailing : bool,
       render segments replaceSet !! i = Some (createSpan w entry leading trailing)
       /\ (leading = true <-> leadingSpaceSpec segments replaceSet i)
       /\ (trailing = true <-> trailingSpaceSpec segments replaceSet i))
  /\ map fst (markedOutput segments replaceSet)
     = concat (map textContent (render segments replaceSet))
  /\ (tokensNonEmpty segments ->
      adjacentInserted (markedOutput segments replaceSet) = false).
Proof.
  split; [|split].
  - intros i w entry Hseg Hin.
    rewrite (render_lookup_replaced _ _ _ _ _ Hseg Hin).
    destruct (spacing_spec segments replaceSet i) as (l & t & -> & Hl & Ht).
    exists l, t. auto.
  - apply markedOutput_erase.
  - apply markedOutput_no_adjacent.
Qed.

(** *** The display sense *)

Lemma fold_pickShorter (rest : list jsstring) :
  forall (seen : list jsstring) (best : jsstring) (k : nat),
  Forall (fun s => s <> []) rest ->
  seen !! k = Some best ->
  (forall j s, seen !! j = Some s -> (length best <= length s)%nat) ->
  (forall j s, (j < k)%nat -> seen !! j = Some s -> (length best < length s)%nat) ->
  exists k',
    (seen ++ rest) !! k' = Some (fold_left pickShorter rest best)
    /\ (forall j s, (seen ++ rest) !! j = Some s ->
          (length (fold_left pickShorter rest best) <= length s)%nat)
    /\ (forall j s, (j < k')%nat -> (seen ++ rest) !! j = Some s ->
          (length (fold_left pickShorter rest best) < length s)%nat).
Proof.
  induction rest as [|s rest IH]; intros seen best k Hne Hk Hmin Hfirst.
  - rewrite app_nil_r. exists k. auto.
  - inversion Hne as [|? ? Hs Hrest]; subst. simpl.
    pose proof (lookup_lt_Some _ _ _ Hk) as Hklt.
    rewrite (cons_middle s seen rest), app_assoc.
    unfold pickShorter at 2 4 6.
    rewrite bool_decide_eq_false_2 by exact Hs. simpl.
    destruct (Nat.ltb_spec (length s) (length best)) as [Hlt|Hge].
    + apply (IH (seen ++ [s]) s (length seen)); [exact Hrest | | |].
      * rewrite lookup_app_r, Nat.sub_diag by lia. reflexivity.
      * intros j s' Hj. destruct (decide (j < length seen)%nat) as [Hin|Hout].
        -- rewrite lookup_app_l in Hj by exact Hin. specialize (Hmin j s' Hj). lia.
        -- rewrite lookup_app_r in Hj by lia.
           destruct (j - length seen)%nat; simpl in Hj; [|discriminate].
           injection Hj as <-. lia.
      * intros j s' Hjlt Hj. rewrite lookup_app_l in Hj by exact Hjlt.
        specialize (Hmin j s' Hj). lia.
    + apply (IH (seen ++ [s]) best k); [exact Hrest | | |].
      * rewrite lookup_app_l by exact Hklt. exact Hk.
      * intros j s' Hj. destruct (decide (j < length seen)%nat) as [Hin|Hout].
        -- rewrite lookup_app_l in Hj by exact Hin. apply (Hmin j s' Hj).
        -- rewrite lookup_app_r in Hj by lia.
           destruct (j - length seen)%nat; simpl in Hj; [|discriminate].
           injection Hj as <-. lia.
      * intros j s' Hjlt Hj. rewrite lookup_app_l in Hj by lia.
        apply (Hfirst j s' Hjlt Hj).
Qed.

(** With non-empty senses, [chooseSense] returns the first sense of
    minimal length. *)
Lemma chooseSense_shortest entry senses :
  en entry = Some senses -> senses <> [] -> Forall (fun s => s <> []) senses ->
  exists k,
    senses !! k = Some (chooseSense entry)
    /\ (forall j s, senses !! j = Some s ->
          (length (chooseSense entry) <= length s)%nat)
    /\ (forall j s, (j < k)%nat -> senses !! j = Some s ->
          (length (chooseSense entry) < length s)%nat).
Proof.
  intros Hen Hsome Hne. unfold chooseSense. rewrite Hen. simpl.
  destruct senses as [|first rest]; [congruence|].
  inversion Hne as [|? ? Hfirst Hrest]; subst.
  change (fold_left _ (first :: rest) first)
    with (fold_left pickShorter rest (pickShorter first first)).
  assert (Hself : pickShorter first first = first).
  { unfold pickShorter. rewrite Nat.ltb_irrefl, andb_false_r. reflexivity. }
  rewrite Hself.
  apply (fold_pickShorter rest [first] first 0%nat); auto.
  - intros [|j] s Hj; simpl in Hj; [injection Hj as <-; lia | discriminate].
  - intros j s Hj. lia.
Qed.

(** *** The worked example *)

(** C5: with the dictionary {你好 -> [hello], 学习 -> [study, learn]},
    maximal headword length 2, ratio 1 and [onlyNouns] off, the text
    你好学习 is segmented into the two tokens, both are eligible, the
    sense shown is the first of the shortest ones ("study" for 学习), the
    rendering with both tokens selected reads "hello study" (a single
    space, the leading one of the second unit), and reverting it gives
    你好学习 back. *)
Theorem example_hello_study (toLowerCase : jsstring -> jsstring)
    (random : nat -> Q) (stats : Stats) :
  let text := ni_hao ++ xue_xi in
  let segs := [Token ni_hao entry_ni_hao; Token xue_xi entry_xue_xi] in
  let frag := [createSpan ni_hao entry_ni_hao false false;
               createSpan xue_xi entry_xue_xi true false] in
  segmentChinese example_store text = Some segs
  /\ (forall entry senses,
        en entry = Some senses -> senses <> [] ->
        Forall (fun s => s <> []) senses ->
        exists k,
          senses !! k = Some (chooseSense entry)
          /\ (forall j s, senses !! j = Some s ->
                (length (chooseSense entry) <= length s)%nat)
          /\ (forall j s, (j < k)%nat -> senses !! j = Some s ->
                (length (chooseSense entry) < length s)%nat))
  /\ chooseSense entry_ni_hao = js "hello"
  /\ chooseSense entry_xue_xi = js "study"
  /\ eligibleTokens toLowerCase (example_settings 1 false) segs = [0; 1]%nat
  /\ sampleTarget 2 1 = 2
  /\ render segs {[0; 1]}%nat = frag
  /\ concat (map textContent frag) = js "hello study"
  /\ revertAll (Element "p" [] [] frag)
     = Some (Element "p" [] [] [TextNode ni_hao; TextNode xue_xi])
  /\ concat (map textContent (map revertNode frag)) = text
  /\ (sampleIndices random 2 1 = {[0; 1]} ->
      replaceInNode toLowerCase example_store (example_settings 1 false)
        random stats text
      = Some (Some frag,
              {| nodes := nodes stats; tokens := (tokens stats + 2)%nat;
                 replaced := (replaced stats + 2)%nat |})).
Proof.
  cbv zeta.
  split; [vm_compute; reflexivity|].
  split; [intros entry senses; apply chooseSense_shortest|].
  do 8 (split; [vm_compute; reflexivity|]).
  intros Hall. unfold replaceInNode.
  { replace (segmentChinese example_store (ni_hao ++ xue_xi))
      with (Some [Token ni_hao entry_ni_hao; Token xue_xi entry_xue_xi])
      by (vm_compute; reflexivity).
    cbn [mbind option_bind].
    replace (eligibleTokens toLowerCase (example_settings 1 false) _)
      with [0%nat; 1%nat] by (vm_compute; reflexivity).
    cbn [length Nat.eqb]. change (ratio (example_settings 1 false)) with 1%Q.
    rewrite Hall. reflexivity. }
Qed.

Lemma example_hello_study_witness :
  replaceInNode asciiLowerCase example_store (example_settings 1 false)
    example_random no_stats (ni_hao ++ xue_xi)
  = Some (Some [createSpan ni_hao entry_ni_hao false false;
                createSpan xue_xi entry_xue_xi true false],
          {| nodes := 0; tokens := 2; replaced := 2 |})
  /\ exists k, [js "study"; js "learn"] !! k = Some (chooseSense entry_xue_xi)
              /\ forall j s, (j < k)%nat -> [js "study"; js "learn"] !! j = Some s ->
                             (length (chooseSense entry_xue_xi) < length s)%nat.
Proof.
  destruct (example_hello_study asciiLowerCase example_random no_stats)
    as (_ & Hshortest & _ & _ & _ & _ & _ & _ & _ & _ & Hrender).
  split.
  - apply Hrender. vm_compute. reflexivity.
  - destruct (Hshortest entry_xue_xi [js "study"; js "learn"]) as (k & Hk & _ & Hfirst).
    + reflexivity.
    + discriminate.
    + repeat constructor; discriminate.
    + exists k. split; [exact Hk | exact Hfirst].
Defined.

(** *** Ratio 0 *)

Lemma sampleLoop_done random n target steps i idxs :
  target <= Z.of_nat (size idxs) ->
  sampleLoop random n target steps i idxs = idxs.
Proof.
  intros Hfull. destruct steps as [|steps]; cbn [sampleLoop]; [reflexivity|].
  destruct (Z.ltb_spec (Z.of_nat (size idxs)) target); [lia | reflexivity].
Qed.

Lemma sampleTarget_ratio_zero n ratio : (ratio == 0)%Q -> sampleTarget n ratio = 1.
Proof.
  intros Hzero. unfold sampleTarget.
  rewrite (round64_zero ratio Hzero), (round64_zero _ (Qmult_0_r _)). reflexivity.
Qed.

(** With ratio 0 and at least one eligible token the target is 1 and the
    first draw is the whole sample. *)
Lemma sampleIndices_ratio_zero random n ratio :
  (ratio == 0)%Q -> (1 <= n)%nat ->
  sampleIndices random n ratio = {[ randomIndex (random 0%nat) n ]}.
Proof.
  intros Hzero Hn. unfold sampleIndices. rewrite (sampleTarget_ratio_zero _ _ Hzero).
  destruct n as [|n]; [lia|].
  replace (S n * 3)%nat with (S (n * 3 + 2)) by lia. cbn [sampleLoop].
  rewrite size_empty. change (Z.of_nat 0 <? 1) with true. cbn iota.
  rewrite union_empty_r_L. apply sampleLoop_done.
  rewrite size_singleton. lia.
Qed.

Lemma eligibleTokens_In toLowerCase settings segs t :
  In t (eligibleTokens toLowerCase settings segs) ->
  exists w entry, segs !! t = Some (Token w entry)
                  /\ tokenAllowed toLowerCase settings entry = true.
Proof.
  unfold eligibleTokens. rewrite filter_In. intros [_ Hok].
  destruct (segs !! t) as [[c|w entry]|]; try discriminate. eauto.
Qed.

Lemma tokenAt_Some (toks : list nat) (r : Z) :
  0 <= r < Z.of_nat (length toks) ->
  exists t, tokenAt toks r = Some t /\ In t toks.
Proof.
  intros Hr. unfold tokenAt.
  destruct (Z.leb_spec 0 r) as [_|Hneg]; [|lia].
  destruct (lookup_lt_is_Some_2 toks (Z.to_nat r)) as [t Ht]; [lia|].
  exists t. split; [exact Ht|].
  apply list_elem_of_In, list_elem_of_lookup. eauto.
Qed.

Lemma matchesSpan_renderSegment segments replaceSet i seg :
  matchesSpan (renderSegment segments replaceSet i seg)
  = isObject seg && bool_decide (i ∈ replaceSet).
Proof.
  destruct seg as [c|w entry]; simpl; [reflexivity|].
  destruct (bool_decide (i ∈ replaceSet)); [|reflexivity].
  destruct (spacing segments replaceSet i). reflexivity.
Qed.

(** C1, as the code has it: with ratio 0 a run with no eligible token is
    left in place, and a run with at least one eligible token gets
    exactly one replacement unit, at an eligible token ([Math.random()]
    being in [[0, 1)]): the sampling target is [max(1, 0) = 1]. *)
Theorem ratio_zero_replaces_one (toLowerCase : jsstring -> jsstring)
    (st : Store) (settings : Settings) (random : nat -> Q) (stats : Stats)
    (text : jsstring) :
  (forall i, 0 <= random i /\ random i < 1)%Q ->
  (ratio settings == 0)%Q ->
  exists segs,
    segmentChinese st text = Some segs
    /\ (eligibleTokens toLowerCase settings segs = [] ->
        replaceInNode toLowerCase st settings random stats text
        = Some (None, stats))
    /\ (eligibleTokens toLowerCase settings segs <> [] ->
        exists t w entry,
          segs !! t = Some (Token w entry)
          /\ tokenAllowed toLowerCase settings entry = true
          /\ replaceInNode toLowerCase st settings random stats text
             = Some (Some (render segs {[ t ]}),
                     {| nodes := nodes stats;
                        tokens := (tokens stats
                                   + length (eligibleTokens toLowerCase settings segs))%nat;
                        replaced := (replaced stats + 1)%nat |})
          /\ (forall i node, render segs {[ t ]} !! i = Some node ->
                (matchesSpan node = true <-> i = t))
          /\ exists l r : bool,
               render segs {[ t ]} !! t = Some (createSpan w entry l r)).
Proof.
  intros Hrand Hzero.
  destruct (segmentChinese_spec st text) as (segs & Hrun & _).
  exists segs. split; [exact Hrun|]. unfold replaceInNode. rewrite Hrun.
  cbn [mbind option_bind]. split.
  - intros ->. reflexivity.
  - intros Hsome.
    destruct (eligibleTokens toLowerCase settings segs) as [|t0 toks] eqn:Htoks;
      [congruence|].
    cbn [length Nat.eqb].
    rewrite sampleIndices_ratio_zero by (exact Hzero || (simpl; lia)).
    destruct (tokenAt_Some (t0 :: toks)
                (randomIndex (random 0%nat) (S (length toks))))
      as (t & Htok & Hin).
    { apply random_index; [apply Hrand | apply Hrand | simpl; lia]. }
    rewrite <- Htoks in Hin.
    apply eligibleTokens_In in Hin as (w & entry & Hseg & Hok).
    exists t, w, entry. split; [exact Hseg|]. split; [exact Hok|].
    unfold replaceSetOf.
    rewrite (set_omap_singleton_Some_L _ _ _ Htok), size_singleton.
    split; [reflexivity|]. split.
    + intros i node Hnode. rewrite render_lookup in Hnode.
      destruct (segs !! i) as [seg|] eqn:Hi; [|discriminate].
      injection Hnode as <-. rewrite matchesSpan_renderSegment.
      split.
      * intros Hspan. apply andb_prop in Hspan as [_ Hdec].
        apply bool_decide_eq_true in Hdec. apply elem_of_singleton in Hdec. exact Hdec.
      * intros ->. rewrite Hseg in Hi. injection Hi as <-. simpl.
        apply bool_decide_eq_true. apply elem_of_singleton. reflexivity.
    + do 2 eexists. apply render_lookup_replaced; [exact Hseg|].
      apply elem_of_singleton. reflexivity.
Qed.

(** C1 as stated fails: with the inline dictionary, the default settings
    and ratio 0, the run abc你好 has one eligible token and is rendered
    as "abc hello" with one replacement unit. *)
Lemma ratio_zero_counterexample :
  let text := js "abc" ++ ni_hao in
  let frag := [TextNode (js "a"); TextNode (js "b"); TextNode (js "c");
               createSpan ni_hao entry_ni_hao true false] in
  segmentChinese initial_store text
  = Some [Literal (js "a"); Literal (js "b"); Literal (js "c");
          Token ni_hao entry_ni_hao]
  /\ tokenAllowed asciiLowerCase (example_settings 0 true) entry_ni_hao = true
  /\ replaceInNode asciiLowerCase initial_store (example_settings 0 true)
       zero_random no_stats text
     = Some (Some frag, {| nodes := 0; tokens := 1; replaced := 1 |})
  /\ concat (map textContent frag) = js "abc hello"
  /\ concat (map textContent frag) <> text
  /\ length (List.filter matchesSpan frag) = 1%nat.
Proof.
  cbv zeta. repeat apply conj; try (vm_compute; reflexivity).
  vm_compute. discriminate.
Qed.

Lemma zero_random_range : (forall i, 0 <= zero_random i /\ zero_random i < 1)%Q.
Proof. intros i. split; [apply Qle_refl | reflexivity]. Defined.


Lemma ratio_zero_replaces_one_witness :
  exists t w entry,
    [Literal (js "a"); Literal (js "b"); Literal (js "c");
     Token ni_hao entry_ni_hao] !! t = Some (Token w entry)
    /\ replaceInNode asciiLowerCase initial_store (example_settings 0 true)
         zero_random no_stats (js "abc" ++ ni_hao)
       = Some (Some (render [Literal (js "a"); Literal (js "b"); Literal (js "c");
                             Token ni_hao entry_ni_hao] {[ t ]}),
               {| nodes := 0; tokens := 1; replaced := 1 |}).
Proof.
  destruct (ratio_zero_replaces_one asciiLowerCase initial_store
              (example_settings 0 true) zero_random no_stats (js "abc" ++ ni_hao)
              zero_random_range (Qeq_refl 0))
    as (segs & Hrun & _ & Hsome).
  vm_compute in Hrun. injection Hrun as <-.
  destruct Hsome as (t & w & entry & Hseg & _ & Hrep & _).
  - vm_compute. discriminate.
  - exists t, w, entry. split; [exact Hseg | exact Hrep].
Defined.



Lemma render_spacing_witness :
  let segments := [Literal [97]; Token ni_hao entry_ni_hao; Literal [0x3002];
                   Token xue_xi entry_xue_xi; Literal [0x4E2D]] in
  render segments {[1; 3]}%nat !! 1%nat
  = Some (createSpan ni_hao entry_ni_hao true false)
  /\ render segments {[1; 3]}%nat !! 3%nat
     = Some (createSpan xue_xi entry_xue_xi false true)
  /\ adjacentInserted (markedOutput segments {[1; 3]}%nat) = false.
Proof.
  intros segments.
  destruct (render_spacing segments {[1; 3]}%nat) as (Hspan & _ & Hspaces).
  split; [|split].
  - destruct (Hspan 1%nat ni_hao entry_ni_hao) as (l & t & -> & Hl & Ht);
      [reflexivity | set_solver |].
    assert (l = true) as ->.
    { apply Hl. exists 0%nat. split; [reflexivity|].
      eapply literal_alphanumeric_LATINish; [reflexivity | lia]. }
    destruct t; [|reflexivity].
    destruct (proj1 Ht eq_refl) as [Hclass _].
    destruct Hclass as [w e Hw|w e Hw|c rest Hc Hr|c rest Hc Hr];
      try discriminate; injection Hc as <- _; lia.
  - destruct (Hspan 3%nat xue_xi entry_xue_xi) as (l & t & -> & Hl & Ht);
      [reflexivity | set_solver |].
    assert (t = true) as ->.
    { apply Ht. split.
      - eapply literal_ideograph_CJK; [reflexivity | lia].
      - intros (w & e & Hw & _). discriminate. }
    destruct l; [|reflexivity].
    destruct (proj1 Hl eq_refl) as (j & [= <-] & Hclass).
    destruct Hclass as [w e Hw|w e Hw|c rest Hc Hr|c rest Hc Hr];
      try discriminate; injection Hc as <- _; lia.
  - apply Hspaces. intros [|[|[|[|[|k]]]]] w entry Hk; simpl in Hk; try discriminate;
      injection Hk as <- _; discriminate.
Defined.

(** ** Dictionary store *)

Lemma ensureIndex_loadedGroups env st :
  loadedGroups (fst (ensureIndex env st)) = loadedGroups st.
Proof.
  unfold ensureIndex. destruct (indexMeta st); [reflexivity|].
  destruct (extAlive env); [|reflexivity]. simpl.
  destruct (fetchIndex env _); reflexivity.
Qed.

Lemma ensureIndex_alive env st :
  extAlive env = true -> indexMeta (fst (ensureIndex env st)) <> None.
Proof.
  intros Halive. unfold ensureIndex. destruct (indexMeta st) eqn:Hidx.
  - simpl. congruence.
  - rewrite Halive. simpl. destruct (fetchIndex env _); discriminate.
Qed.

Lemma ensureGroupLoaded_dead env ch st :
  extAlive env = false -> ensureGroupLoaded env ch st = (st, []).
Proof. intros Hdead. unfold ensureGroupLoaded. rewrite Hdead. reflexivity. Qed.

Lemma ensureGroupLoaded_noop env ch st gid :
  groupIdForChar ch = Some gid -> gid ∈ loadedGroups st ->
  ensureGroupLoaded env ch st = (st, []).
Proof.
  intros Hgid Hin. unfold ensureGroupLoaded. rewrite Hgid.
  rewrite bool_decide_eq_true_2 by exact Hin.
  destruct (extAlive env); reflexivity.
Qed.

Lemma ensureGroupLoaded_grows env ch st :
  loadedGroups st ⊆ loadedGroups (fst (ensureGroupLoaded env ch st)).
Proof.
  unfold ensureGroupLoaded.
  destruct (extAlive env); simpl; [|reflexivity].
  destruct (groupIdForChar ch) as [gid|]; [|reflexivity].
  destruct (bool_decide (gid ∈ loadedGroups st)); [reflexivity|].
  pose proof (ensureIndex_loadedGroups env st) as Hidx.
  destruct (ensureIndex env st) as [st1 log1]. simpl in Hidx.
  destruct (indexMeta st1) as [[idx|]|]; try (simpl; rewrite Hidx; reflexivity).
  destruct (groups idx !! gid) as [meta|].
  - destruct (fetchChunk env _); simpl; rewrite Hidx; apply union_subseteq_r.
  - simpl. rewrite Hidx. apply union_subseteq_r.
Qed.

Lemma ensureGroupsLoaded_grows calls : forall st,
  loadedGroups st ⊆ loadedGroups (fst (ensureGroupsLoaded calls st)).
Proof.
  induction calls as [|[env ch] calls IH]; intros st; simpl; [reflexivity|].
  pose proof (ensureGroupLoaded_grows env ch st) as Hstep.
  destruct (ensureGroupLoaded env ch st) as [st1 log1].
  specialize (IH st1). destruct (ensureGroupsLoaded calls st1) as [st2 log2].
  simpl in *. etransitivity; eassumption.
Qed.

Lemma ensureGroupLoaded_marks env ch st gid idx :
  extAlive env = true -> groupIdForChar ch = Some gid ->
  indexMeta (fst (ensureIndex env st)) = Some (IndexWithGroups idx) ->
  gid ∈ loadedGroups (fst (ensureGroupLoaded env ch st)).
Proof.
  intros Halive Hgid Hidx. unfold ensureGroupLoaded. rewrite Halive, Hgid. simpl.
  destruct (bool_decide (gid ∈ loadedGroups st)) eqn:Hdec.
  - apply bool_decide_eq_true in Hdec. exact Hdec.
  - destruct (ensureIndex env st) as [st1 log1]. simpl in Hidx. rewrite Hidx.
    destruct (groups idx !! gid) as [meta|].
    + destruct (fetchChunk env _); simpl; apply elem_of_union_l, elem_of_singleton;
        reflexivity.
    + simpl. apply elem_of_union_l, elem_of_singleton. reflexivity.
Qed.

(** X23: what holds of the loaded set whatever the index: over any
    sequence of [ensureGroupLoaded] calls it only grows, a call for a
    bucket that is already marked changes nothing and fetches nothing,
    and a call made after the context is gone returns at once.  When
    the index in place has its [groups], a call made in a live context
    marks its bucket whatever the fetches return (the bucket is missing
    from the index, the chunk fetch fails, or it succeeds). *)
Theorem loadedGroups_monotone (gid : string) :
  (forall calls st,
     loadedGroups st ⊆ loadedGroups (fst (ensureGroupsLoaded calls st)))
  /\ (forall env ch st idx,
        extAlive env = true -> groupIdForChar ch = Some gid ->
        indexMeta (fst (ensureIndex env st)) = Some (IndexWithGroups idx) ->
        gid ∈ loadedGroups (fst (ensureGroupLoaded env ch st)))
  /\ (forall env ch st idx,
        extAlive env = true -> groupIdForChar ch = Some gid ->
        gid ∉ loadedGroups st ->
        indexMeta (fst (ensureIndex env st)) = Some (IndexWithGroups idx) ->
        (groups idx !! gid = None
         \/ exists meta, groups idx !! gid = Some meta
                         /\ fetchChunk env (getURL env ("data/chunks/" +:+ file meta))
                            = None) ->
        fst (ensureGroupLoaded env ch st) = addLoaded gid (fst (ensureIndex env st)))
  /\ (forall env ch st,
        groupIdForChar ch = Some gid -> gid ∈ loadedGroups st ->
        ensureGroupLoaded env ch st = (st, []))
  /\ (forall env ch st,
        extAlive env = false -> ensureGroupLoaded env ch st = (st, [])).
Proof.
  split; [|split; [|split; [|split]]]; [| | | |apply ensureGroupLoaded_dead].
  - intros calls st. apply ensureGroupsLoaded_grows.
  - intros env ch st idx. apply ensureGroupLoaded_marks.
  - intros env ch st idx Halive Hgid Hnew Hidx Hcase.
    unfold ensureGroupLoaded. rewrite Halive, Hgid. simpl.
    rewrite bool_decide_eq_false_2 by exact Hnew.
    destruct (ensureIndex env st) as [st1 log1]. simpl in Hidx. rewrite Hidx.
    destruct Hcase as [Habsent | (meta & Hmeta & Hfail)].
    + rewrite Habsent. reflexivity.
    + rewrite Hmeta, Hfail. reflexivity.
  - intros env ch st Hgid Hin. apply (ensureGroupLoaded_noop env ch st gid); assumption.
Qed.

Lemma loadedGroups_monotone_witness :
  "g0" ∈ loadedGroups (fst (ensureGroupLoaded failing_env [0x4F60] initial_store))
  /\ fst (ensureGroupLoaded failing_env [0x4F60] initial_store)
     = addLoaded "g0" (fst (ensureIndex failing_env initial_store))
  /\ ensureGroupLoaded failing_env [0x4EBA]
       (fst (ensureGroupLoaded failing_env [0x4F60] initial_store))
     = (fst (ensureGroupLoaded failing_env [0x4F60] initial_store), []).
Proof.
  destruct (loadedGroups_monotone "g0") as (_ & Hmarks & Hfail & Hnoop & _).
  assert (Hmarked :
    "g0" ∈ loadedGroups (fst (ensureGroupLoaded failing_env [0x4F60] initial_store))).
  { eapply Hmarks; [reflexivity | vm_compute; reflexivity | reflexivity]. }
  split; [exact Hmarked|]. split.
  - eapply Hfail.
    + reflexivity.
    + vm_compute. reflexivity.
    + apply not_elem_of_empty.
    + reflexivity.
    + right. eexists. split; vm_compute; reflexivity.
  - apply Hnoop; [vm_compute; reflexivity | exact Hmarked].
Defined.

Lemma ensureGroupLoaded_no_groups env ch st gid :
  extAlive env = true -> groupIdForChar ch = Some gid -> gid ∉ loadedGroups st ->
  indexMeta (fst (ensureIndex env st)) = Some IndexWithoutGroups ->
  ensureGroupLoaded env ch st = ensureIndex env st
  /\ ensureGroupLoaded_rejects env ch st = true.
Proof.
  intros Halive Hgid Hnew Hidx.
  unfold ensureGroupLoaded, ensureGroupLoaded_rejects. rewrite Halive, Hgid. simpl.
  rewrite bool_decide_eq_false_2 by exact Hnew. rewrite Hidx.
  destruct (ensureIndex env st) as [st1 log1]. simpl in Hidx. rewrite Hidx. auto.
Qed.

(** C7: the call on an index without [groups].  In a live context, for
    a bucket that is not yet marked, when the index in place after
    [ensureIndex] is an object without a [groups] field, the call is
    rejected (the read [indexMeta.groups[gid]] throws outside the [try])
    and the bucket is not marked: the loaded set is what it was.  The
    next call for the bucket, and every call after it, fetches nothing,
    is rejected again and leaves the bucket unmarked. *)
Theorem missing_groups_not_marked (env : Env) (ch : jsstring) (st : Store)
    (gid : string) :
  extAlive env = true -> groupIdForChar ch = Some gid -> gid ∉ loadedGroups st ->
  indexMeta (fst (ensureIndex env st)) = Some IndexWithoutGroups ->
  let st' := fst (ensureGroupLoaded env ch st) in
  ensureGroupLoaded_rejects env ch st = true
  /\ loadedGroups st' = loadedGroups st
  /\ (gid ∉ loadedGroups st')
  /\ forall n, Nat.iter n (fun s => fst (ensureGroupLoaded env ch s)) st' = st'
               /\ ensureGroupLoaded env ch st' = (st', [])
               /\ ensureGroupLoaded_rejects env ch st' = true.
Proof.
  intros Halive Hgid Hnew Hidx st'.
  destruct (ensureGroupLoaded_no_groups env ch st gid Halive Hgid Hnew Hidx)
    as [Hcall Hrej].
  assert (Hst' : st' = fst (ensureIndex env st)) by (unfold st'; rewrite Hcall; reflexivity).
  assert (Hloaded : loadedGroups st' = loadedGroups st).
  { rewrite Hst'. apply ensureIndex_loadedGroups. }
  assert (Hnew' : gid ∉ loadedGroups st') by (rewrite Hloaded; exact Hnew).
  assert (Hidx' : indexMeta st' = Some IndexWithoutGroups) by (rewrite Hst'; exact Hidx).
  assert (Hcached : ensureIndex env st' = (st', [])).
  { unfold ensureIndex. rewrite Hidx'. reflexivity. }
  assert (Hagain : ensureGroupLoaded env ch st' = (st', [])
                   /\ ensureGroupLoaded_rejects env ch st' = true).
  { destruct (ensureGroupLoaded_no_groups env ch st' gid Halive Hgid Hnew') as [H1 H2].
    - rewrite Hcached. exact Hidx'.
    - rewrite H1, Hcached. auto. }
  split; [exact Hrej|]. split; [exact Hloaded|]. split; [exact Hnew'|].
  intros n. split; [|exact Hagain].
  induction n as [|n IH]; simpl; [reflexivity|].
  rewrite IH. destruct Hagain as [-> _]. reflexivity.
Qed.

Lemma missing_groups_not_marked_witness :
  ensureGroupLoaded_rejects no_groups_env [0x4F60] initial_store = true
  /\ ("g0" ∉ loadedGroups (fst (ensureGroupLoaded no_groups_env [0x4F60] initial_store)))
  /\ ensureGroupLoaded_rejects no_groups_env [0x4F60]
       (fst (ensureGroupLoaded no_groups_env [0x4F60] initial_store)) = true.
Proof.
  destruct (missing_groups_not_marked no_groups_env [0x4F60] initial_store "g0")
    as (Hrej & _ & Hnew & Hagain).
  - reflexivity.
  - vm_compute. reflexivity.
  - apply not_elem_of_empty.
  - reflexivity.
  - split; [exact Hrej|]. split; [exact Hnew|].
    destruct (Hagain 1%nat) as (_ & _ & H). exact H.
Defined.

(** ** URL blacklist patterns *)

Section PatternProperties.

Variable RegExp : Type.
Variable RegExp_new : jsstring -> string -> option RegExp.
Variable RegExp_test : RegExp -> jsstring -> bool.

Lemma patToRegExp_None pat :
  patToRegExp RegExp RegExp_new pat = None
  <-> trim pat = [] \/ startsWith (trim pat) (js "#") = true
      \/ RegExp_new (patSource (trim pat)) "i" = None.
Proof.
  unfold patToRegExp.
  destruct (bool_decide (trim pat = [])) eqn:Hempty; cbn [orb].
  - apply bool_decide_eq_true in Hempty.
    split; [intros _; left; exact Hempty | reflexivity].
  - apply bool_decide_eq_false in Hempty.
    destruct (startsWith (trim pat) (js "#")) eqn:Hcomment.
    + split; [intros _; right; left; reflexivity | reflexivity].
    + split; [intros H; right; right; exact H|].
      intros [H|[H|H]]; [contradiction | discriminate | exact H].
Qed.

Lemma compilePatternLists_drop settings before pat after :
  patToRegExp RegExp RegExp_new pat = None ->
  compilePatternLists RegExp RegExp_new (withBlacklist settings (before ++ pat :: after))
  = compilePatternLists RegExp RegExp_new (withBlacklist settings (before ++ after)).
Proof.
  intros Hbad. unfold compilePatternLists. simpl.
  rewrite !omap_app. simpl. rewrite Hbad. reflexivity.
Qed.

Lemma compilePatternLists_all_invalid settings patterns :
  blacklist settings = Some patterns ->
  Forall (fun pat => patToRegExp RegExp RegExp_new pat = None) patterns ->
  compilePatternLists RegExp RegExp_new settings = [].
Proof.
  intros Hbl Hall. unfold compilePatternLists. rewrite Hbl. simpl. clear Hbl.
  induction Hall as [|pat patterns Hbad _ IH]; simpl; [reflexivity|].
  rewrite Hbad. exact IH.
Qed.

(** C8: [patToRegExp] returns none exactly for a pattern that is blank,
    is a [#] comment, or whose regular expression fails to compile; the
    compiled list holds exactly the patterns that compiled; and a pattern
    that did not compile changes neither the list nor the decision to
    process a page: a blacklist of such patterns suppresses nothing. *)
Theorem invalid_pattern_ignored (settings : Settings) (href : jsstring) :
  (forall pat,
     patToRegExp RegExp RegExp_new pat = None
     <-> trim pat = [] \/ startsWith (trim pat) (js "#") = true
         \/ RegExp_new (patSource (trim pat)) "i" = None)
  /\ (forall re,
        re ∈ compilePatternLists RegExp RegExp_new settings
        <-> exists pat, pat ∈ default [] (blacklist settings)
                        /\ patToRegExp RegExp RegExp_new pat = Some re)
  /\ (forall before pat after,
        patToRegExp RegExp RegExp_new pat = None ->
        compilePatternLists RegExp RegExp_new
          (withBlacklist settings (before ++ pat :: after))
        = compilePatternLists RegExp RegExp_new
            (withBlacklist settings (before ++ after))
        /\ settingsAllow RegExp RegExp_test settings
             (compilePatternLists RegExp RegExp_new
                (withBlacklist settings (before ++ pat :: after))) href
           = settingsAllow RegExp RegExp_test settings
               (compilePatternLists RegExp RegExp_new
                  (withBlacklist settings (before ++ after))) href)
  /\ (forall patterns,
        blacklist settings = Some patterns ->
        Forall (fun pat => patToRegExp RegExp RegExp_new pat = None) patterns ->
        settingsAllow RegExp RegExp_test settings
          (compilePatternLists RegExp RegExp_new settings) href
        = enabled settings).
Proof.
  split; [|split; [|split]].
  - apply patToRegExp_None.
  - intros re. unfold compilePatternLists. apply list_elem_of_omap.
  - intros before pat after Hbad.
    rewrite (compilePatternLists_drop settings before pat after Hbad).
    split; reflexivity.
  - intros patterns Hbl Hall.
    rewrite (compilePatternLists_all_invalid settings patterns Hbl Hall).
    unfold settingsAllow. destruct (enabled settings); reflexivity.
Qed.

End PatternProperties.

Lemma invalid_pattern_ignored_witness :
  settingsAllow unit (fun _ _ => true)
    (withBlacklist DEFAULT_SETTINGS [js "*.example.com/*"; js "  "; js "# note"])
    (compilePatternLists unit (fun _ _ => None)
       (withBlacklist DEFAULT_SETTINGS [js "*.example.com/*"; js "  "; js "# note"]))
    (js "https://www.example.com/news")
  = true.
Proof.
  destruct (invalid_pattern_ignored unit (fun _ _ => None) (fun _ _ => true)
              (withBlacklist DEFAULT_SETTINGS
                 [js "*.example.com/*"; js "  "; js "# note"])
              (js "https://www.example.com/news")) as (_ & _ & _ & Hall).
  apply (Hall [js "*.example.com/*"; js "  "; js "# note"]).
  - reflexivity.
  - repeat constructor.
Defined.

(** ** Instances of the conditional statements *)

Lemma segmentChinese_longest_match_witness :
  segmentChinese nested_store [0x4F60; 0x5B66]
  = Some [Token [0x4F60] entry_ni; Literal [0x5B66]]
  /\ DICT nested_store !! slice [0x4F60; 0x5B66] 0 2 = None
  /\ segmentChinese nested_store ni_hao = Some [Token ni_hao entry_ni_hao].
Proof.
  destruct (segmentChinese_longest_match nested_store [0x4F60; 0x5B66])
    as (segs & Hrun & _ & _ & Htoken).
  destruct (segmentChinese_longest_match nested_store ni_hao)
    as (segs' & Hrun' & _ & Hunique & _).
  split; [|split].
  - rewrite Hrun. vm_compute in Hrun. injection Hrun as <-. reflexivity.
  - vm_compute in Hrun. injection Hrun as <-.
    destruct (Htoken 0%nat [0x4F60] entry_ni eq_refl) as (_ & _ & Hlonger).
    apply (Hlonger 2%nat); simpl; lia.
  - rewrite Hrun'. f_equal. symmetry. apply Hunique.
    apply (seg_hit nested_store ni_hao 0 0x4F60 2 entry_ni_hao []);
      try reflexivity; simpl; try lia.
    apply seg_done. reflexivity.
Defined.

Lemma revert_render_roundtrip_witness :
  (exists span,
     render [Token ni_hao entry_ni_hao; Token xue_xi entry_xue_xi] {[ 0%nat ]}
       !! 0%nat = Some span
     /\ matchesSpan span = true
     /\ getAttribute "data-original" span = Some ni_hao)
  /\ concat (map textContent
       (map revertNode [createSpan ni_hao entry_ni_hao false false;
                        createSpan xue_xi entry_xue_xi true false]))
     = ni_hao ++ xue_xi.
Proof.
  destruct (revert_render_roundtrip example_store (ni_hao ++ xue_xi) {[ 0%nat ]})
    as (segs & Hrun & Hunits & _ & _ & Hrep).
  vm_compute in Hrun. injection Hrun as <-.
  split.
  - apply (Hunits 0%nat ni_hao entry_ni_hao); [reflexivity|].
    apply elem_of_singleton. reflexivity.
  - apply (Hrep asciiLowerCase (example_settings 1 false) example_random no_stats
             _ {| nodes := 0; tokens := 2; replaced := 2 |}).
    vm_compute. reflexivity.
Defined.

(** * Further properties *)

(** ** Text filter *)

Lemma isCJK_not_surrogate c :
  isCJK c = true -> (0xD800 <=? c) && (c <=? 0xDBFF) = false.
Proof. unfold isCJK. lia. Qed.

Lemma codePoints_hasCJK_upto (n : nat) : forall s,
  (length s <= n)%nat -> existsb isCJK (codePoints s) = existsb isCJK s.
Proof.
  induction n as [|n IH]; intros s Hlen.
  - destruct s; [reflexivity | simpl in Hlen; lia].
  - destruct s as [|hi rest]; [reflexivity|]. simpl in Hlen. cbn [codePoints].
    destruct ((0xD800 <=? hi) && (hi <=? 0xDBFF)) eqn:Hhi.
    + assert (Hhi' : isCJK hi = false) by (unfold isCJK; lia).
      destruct rest as [|lo rest'].
      * simpl. rewrite Hhi'. reflexivity.
      * destruct ((0xDC00 <=? lo) && (lo <=? 0xDFFF)) eqn:Hlo.
        -- assert (Hlo' : isCJK lo = false) by (unfold isCJK; lia).
           assert (Hcp : isCJK ((hi - 0xD800) * 0x400 + (lo - 0xDC00) + 0x10000)
                         = false) by (unfold isCJK; lia).
           cbn [existsb]. rewrite Hcp, Hhi', Hlo'. simpl.
           apply IH. simpl in Hlen. lia.
        -- cbn [existsb]. f_equal. apply IH. lia.
    + cbn [existsb]. f_equal. apply IH. lia.
Qed.

Lemma codePoints_hasCJK s : existsb isCJK (codePoints s) = hasCJK s.
Proof. apply (codePoints_hasCJK_upto (length s)). lia. Qed.

Lemma filter_length_pos {A} (f : A -> bool) (l : list A) :
  (0 < length (List.filter f l))%nat <-> existsb f l = true.
Proof.
  induction l as [|x l IH]; simpl; [split; [lia | discriminate]|].
  destruct (f x); simpl; [split; [reflexivity | lia] | exact IH].
Qed.

Lemma existsb_filter_CJK (l : list Z) :
  existsb isCJK (List.filter (fun c => negb (c =? 32)) l) = existsb isCJK l.
Proof.
  induction l as [|c l IH]; [reflexivity|]. simpl.
  destruct (Z.eqb_spec c 32) as [->|Hne]; simpl; [exact IH | rewrite IH; reflexivity].
Qed.

Lemma cjkCount_pos s : (0 < cjkCount s)%nat <-> hasCJK s = true.
Proof.
  unfold cjkCount. rewrite filter_length_pos, existsb_filter_CJK, codePoints_hasCJK.
  reflexivity.
Qed.

Lemma cjkCount_le_total s : (cjkCount s <= totalCount s)%nat.
Proof. unfold cjkCount, totalCount. apply filter_length_le. Qed.

Lemma chineseRatio_le_one (s : jsstring) : (chineseRatio s <= 1)%Q.
Proof.
  unfold chineseRatio. pose proof (cjkCount_le_total s) as Hle.
  destruct (Nat.eqb_spec (totalCount s) 0) as [Hzero|Hsome]; [discriminate|].
  apply Qle_shift_div_r.
  - change 0%Q with (inject_Z 0). rewrite <- Zlt_Qlt. lia.
  - rewrite Qmult_1_l. rewrite <- Zle_Qle. lia.
Qed.

(** X1: [chineseRatio] lies in [[0, 1]], and it is positive exactly when
    [hasCJK] holds, although one scans code points and the other code
    units. *)
Theorem chineseRatio_range (s : jsstring) :
  (0 <= chineseRatio s)%Q /\ (chineseRatio s <= 1)%Q
  /\ (hasCJK s = true <-> (0 < chineseRatio s)%Q).
Proof.
  pose proof (chineseRatio_le_one s) as Hone.
  unfold chineseRatio in *. pose proof (cjkCount_le_total s) as Hle.
  pose proof (cjkCount_pos s) as Hpos.
  destruct (Nat.eqb_spec (totalCount s) 0) as [Hzero|Hsome].
  - split; [apply Qle_refl|]. split; [discriminate|].
    split; [intros H; apply Hpos in H; lia | intros H; inversion H].
  - assert (Htot : (0 < inject_Z (Z.of_nat (totalCount s)))%Q).
    { change 0%Q with (inject_Z 0). rewrite <- Zlt_Qlt. lia. }
    split; [|split].
    + apply Qle_shift_div_l; [exact Htot|]. rewrite Qmult_0_l.
      change 0%Q with (inject_Z 0). rewrite <- Zle_Qle. lia.
    + exact Hone.
    + rewrite <- Hpos. split.
      * intros Hc. apply Qlt_shift_div_l; [exact Htot|]. rewrite Qmult_0_l.
        change 0%Q with (inject_Z 0). rewrite <- Zlt_Qlt. lia.
      * intros Hc.
        destruct (cjkCount s) as [|c] eqn:Hcount; [|lia].
        exfalso. unfold Qdiv in Hc. change (inject_Z (Z.of_nat 0)) with 0%Q in Hc.
        rewrite Qmult_0_l in Hc. inversion Hc.
Qed.



(** ** Buckets and the dictionary store *)

(** X3: [groupIdForChar] gives no id outside U+4E00..U+9FFF; inside, the
    id is [g] followed by the number of the 512-code-point block, one of
    41 blocks, and two characters get the same id exactly when they lie
    in the same block. *)
Theorem groupIdForChar_blocks (ch ch' : jsstring) (code code' : Z) :
  codePointAt0 ch = Some code -> codePointAt0 ch' = Some code' ->
  (isCJK code = false -> groupIdForChar ch = None)
  /\ (isCJK code = true ->
      groupIdForChar ch = Some ("g" +:+ pretty ((code - 0x4E00) / 512))
      /\ 0 <= (code - 0x4E00) / 512 <= 40)
  /\ (isCJK code = true -> isCJK code' = true ->
      (groupIdForChar ch = groupIdForChar ch'
       <-> (code - 0x4E00) / 512 = (code' - 0x4E00) / 512)).
Proof.
  intros Hcode Hcode'.
  assert (Hid : forall s c, codePointAt0 s = Some c -> isCJK c = true ->
            groupIdForChar s = Some ("g" +:+ pretty ((c - 0x4E00) / 512))).
  { intros s c Hs Hc. unfold groupIdForChar. rewrite Hs.
    unfold isCJK in Hc.
    destruct (Z.ltb_spec c 0x4E00); [lia|].
    destruct (Z.ltb_spec 0x9FFF c); [lia|]. reflexivity. }
  split; [|split].
  - intros Hout. unfold groupIdForChar. rewrite Hcode. unfold isCJK in Hout.
    destruct (Z.ltb_spec code 0x4E00); [reflexivity|].
    destruct (Z.ltb_spec 0x9FFF code); [reflexivity|]. lia.
  - intros Hin. split; [apply Hid; assumption|].
    unfold isCJK in Hin. split.
    + apply Z.div_pos; lia.
    + assert ((code - 0x4E00) / 512 < 41) by (apply Z.div_lt_upper_bound; lia). lia.
  - intros Hin Hin'. rewrite (Hid ch code Hcode Hin), (Hid ch' code' Hcode' Hin').
    split.
    + intros [= Heq]. exact (pretty_Z_inj _ _ Heq).
    + intros ->. reflexivity.
Qed.

Lemma groupIdForChar_blocks_witness :
  groupIdForChar ni_hao = groupIdForChar [0x4EBA]
  /\ groupIdForChar (js "a") = None.
Proof.
  destruct (groupIdForChar_blocks ni_hao [0x4EBA] 0x4F60 0x4EBA eq_refl eq_refl)
    as (_ & _ & Hsame).
  destruct (groupIdForChar_blocks (js "a") (js "a") 97 97 eq_refl eq_refl)
    as (Hout & _ & _).
  split; [apply Hsame; reflexivity | apply Hout; reflexivity].
Defined.

Lemma ensureIndex_cached env st idx :
  indexMeta st = Some idx -> ensureIndex env st = (st, []).
Proof. intros Hidx. unfold ensureIndex. rewrite Hidx. reflexivity. Qed.

Lemma ensureIndex_fields env st :
  DICT (fst (ensureIndex env st)) = DICT st
  /\ MAX_WORD_LEN (fst (ensureIndex env st)) = MAX_WORD_LEN st
  /\ loadedGroups (fst (ensureIndex env st)) = loadedGroups st.
Proof.
  unfold ensureIndex. destruct (indexMeta st); [auto|].
  destruct (extAlive env); [|auto]. simpl.
  destruct (fetchIndex env _); auto.
Qed.



Lemma mergeEntries_dom D es w :
  is_Some (D !! w) -> is_Some (mergeEntries D es !! w).
Proof.
  revert D. induction es as [|[[w' v]|] es IH]; intros D Hin; simpl; auto.
  apply IH. destruct (decide (w' = w)) as [->|Hne].
  - rewrite lookup_insert_eq. eauto.
  - rewrite lookup_insert_ne by exact Hne. exact Hin.
Qed.

Lemma mergeChunk_grows chunk st :
  (MAX_WORD_LEN st <= MAX_WORD_LEN (mergeChunk chunk st))%nat
  /\ (forall w, is_Some (DICT st !! w) -> is_Some (DICT (mergeChunk chunk st) !! w))
  /\ loadedGroups (mergeChunk chunk st) = loadedGroups st
  /\ indexMeta (mergeChunk chunk st) = indexMeta st.
Proof.
  unfold mergeChunk. simpl. repeat split.
  - destruct (chunk_maxLen chunk) as [m|]; [|lia].
    destruct (Nat.ltb_spec 0 m); simpl; [|lia].
    destruct (Nat.ltb_spec (MAX_WORD_LEN st) m); lia.
  - intros w Hin. destruct (entries chunk); [apply mergeEntries_dom|]; exact Hin.
Qed.

Lemma ensureGroupLoaded_store_grows env ch st :
  (MAX_WORD_LEN st <= MAX_WORD_LEN (fst (ensureGroupLoaded env ch st)))%nat
  /\ (forall w, is_Some (DICT st !! w) ->
                is_Some (DICT (fst (ensureGroupLoaded env ch st)) !! w))
  /\ (forall idx, indexMeta st = Some idx ->
                  indexMeta (fst (ensureGroupLoaded env ch st)) = Some idx).
Proof.
  unfold ensureGroupLoaded.
  destruct (extAlive env); simpl; [|auto].
  destruct (groupIdForChar ch) as [gid|]; [|auto].
  destruct (bool_decide (gid ∈ loadedGroups st)); [auto|].
  destruct (ensureIndex_fields env st) as (HD & HM & _).
  assert (Hkeep : forall idx, indexMeta st = Some idx ->
            indexMeta (fst (ensureIndex env st)) = Some idx).
  { intros idx Hidx. rewrite (ensureIndex_cached env st idx Hidx). exact Hidx. }
  destruct (ensureIndex env st) as [st1 log1]. simpl in HD, HM, Hkeep.
  destruct (indexMeta st1) as [[idx1|]|] eqn:Hidx1.
  - destruct (groups idx1 !! gid) as [meta|].
    + destruct (fetchChunk env _) as [chunk|]; cbn [fst addLoaded MAX_WORD_LEN DICT
                                                       indexMeta].
      * destruct (mergeChunk_grows chunk st1) as (HM' & HD' & _ & HI').
        rewrite <- HM, HI', Hidx1. split; [exact HM'|]. split.
        -- intros w Hin. apply HD'. rewrite HD. exact Hin.
        -- intros idx Hidx. rewrite <- (Hkeep idx Hidx). reflexivity.
      * rewrite HM, HD, Hidx1. split; [lia|]. split; [auto|].
        intros idx Hidx. rewrite <- (Hkeep idx Hidx). reflexivity.
    + cbn [fst addLoaded MAX_WORD_LEN DICT indexMeta].
      rewrite HM, HD, Hidx1. split; [lia|]. split; [auto|].
      intros idx Hidx. rewrite <- (Hkeep idx Hidx). reflexivity.
  - cbn [fst]. rewrite HM, HD, Hidx1. split; [lia|]. split; [auto|].
    intros idx Hidx. rewrite <- (Hkeep idx Hidx). reflexivity.
  - cbn [fst]. rewrite HM, HD. split; [lia|]. split; [auto|].
    intros idx Hidx. discriminate (Hkeep idx Hidx).
Qed.

(** X5: over any sequence of [ensureGroupLoaded] calls, whatever the
    host answers, [MAX_WORD_LEN] never decreases, a headword once in
    [DICT] stays in [DICT], and an index once cached is never replaced. *)
Theorem store_only_grows (calls : list (Env * jsstring)) (st : Store) :
  (MAX_WORD_LEN st <= MAX_WORD_LEN (fst (ensureGroupsLoaded calls st)))%nat
  /\ (forall w, is_Some (DICT st !! w) ->
                is_Some (DICT (fst (ensureGroupsLoaded calls st)) !! w))
  /\ (forall idx, indexMeta st = Some idx ->
                  indexMeta (fst (ensureGroupsLoaded calls st)) = Some idx).
Proof.
  revert st. induction calls as [|[env ch] calls IH]; intros st; simpl.
  - split; [lia|]. auto.
  - destruct (ensureGroupLoaded_store_grows env ch st) as (HM & HD & HI).
    destruct (ensureGroupLoaded env ch st) as [st1 log1]. simpl in HM, HD, HI.
    destruct (IH st1) as (HM' & HD' & HI').
    destruct (ensureGroupsLoaded calls st1) as [st2 log2]. simpl in *.
    split; [lia|]. split; auto.
Qed.

Lemma store_only_grows_witness :
  is_Some (DICT (fst (ensureGroupsLoaded [(failing_env, ni_hao)] initial_store))
             !! ni_hao).
Proof.
  destruct (store_only_grows [(failing_env, ni_hao)] initial_store) as (_ & HD & _).
  apply HD. exists entry_ni_hao. vm_compute. reflexivity.
Defined.

Lemma fst_unique {A B} (es : list (A * B)) k v v' :
  NoDup (map fst es) -> In (k, v) es -> In (k, v') es -> v = v'.
Proof.
  induction es as [|[k0 v0] es IH]; simpl; intros Hnodup Hin Hin'; [contradiction|].
  inversion Hnodup as [|? ? Hfresh Hrest]; subst.
  assert (Hout : forall u, In (k0, u) es -> False).
  { intros u Hu. apply Hfresh. apply list_elem_of_In, in_map_iff.
    exists (k0, u). auto. }
  destruct Hin as [Heq|Hin]; destruct Hin' as [Heq'|Hin'].
  - congruence.
  - assert (k0 = k) by congruence. subst. destruct (Hout _ Hin').
  - assert (k0 = k) by congruence. subst. destruct (Hout _ Hin).
  - apply IH; assumption.
Qed.

Lemma mergeEntries_wellformed D (es : list (jsstring * Entry)) w :
  NoDup (map fst es) ->
  mergeEntries D (map Some es) !! w
  = match List.find (fun kv => bool_decide (fst kv = w)) es with
    | Some kv => Some (snd kv)
    | None => D !! w
    end.
Proof.
  revert D. induction es as [|[k v] es IH]; intros D Hnodup; simpl; [reflexivity|].
  inversion Hnodup as [|? ? Hfresh Hrest]; subst.
  rewrite IH by exact Hrest.
  destruct (decide (k = w)) as [->|Hne].
  - rewrite bool_decide_eq_true_2 by reflexivity.
    destruct (List.find _ es) as [[k' v']|] eqn:Hfind.
    + apply find_some in Hfind as [Hin Hk']. simpl in Hk'.
      apply bool_decide_eq_true in Hk'. subst k'.
      exfalso. apply Hfresh. apply list_elem_of_In, in_map_iff.
      exists (w, v'). auto.
    + rewrite lookup_insert_eq. reflexivity.
  - rewrite bool_decide_eq_false_2 by exact Hne.
    destruct (List.find _ es); [reflexivity|].
    rewrite lookup_insert_ne by exact Hne. reflexivity.
Qed.

(** X6: when the context is alive, the bucket is not yet loaded, the
    index lists it and the chunk fetch returns a chunk of well-formed
    entries with distinct headwords, the call installs every entry of
    the chunk, keeps the entry of every other word, raises
    [MAX_WORD_LEN] to the chunk's [maxLen] at least, and fetches the
    chunk exactly once. *)
Theorem ensureGroupLoaded_installs (env : Env) (ch : jsstring) (st : Store)
    (gid : string) (idx : IndexMeta) (meta : GroupMeta) (m : nat)
    (es : list (jsstring * Entry)) :
  extAlive env = true -> groupIdForChar ch = Some gid ->
  gid ∉ loadedGroups st -> indexMeta st = Some (IndexWithGroups idx) ->
  groups idx !! gid = Some meta ->
  fetchChunk env (getURL env ("data/chunks/" +:+ file meta))
  = Some {| chunk_maxLen := Some m; entries := Some (map Some es) |} ->
  NoDup (map fst es) ->
  let st' := fst (ensureGroupLoaded env ch st) in
  (forall w v, In (w, v) es -> DICT st' !! w = Some v)
  /\ (forall w, ~ In w (map fst es) -> DICT st' !! w = DICT st !! w)
  /\ (m <= MAX_WORD_LEN st')%nat
  /\ MAX_WORD_LEN st' = Nat.max (MAX_WORD_LEN st) m
  /\ gid ∈ loadedGroups st'
  /\ snd (ensureGroupLoaded env ch st)
     = [getURL env ("data/chunks/" +:+ file meta)].
Proof.
  intros Halive Hgid Hnew Hidx Hmeta Hfetch Hnodup.
  unfold ensureGroupLoaded. rewrite Halive, Hgid. simpl.
  rewrite bool_decide_eq_false_2 by exact Hnew.
  rewrite (ensureIndex_cached env st _ Hidx), Hidx, Hmeta, Hfetch. simpl.
  assert (Hmax : (if (0 <? m)%nat && (MAX_WORD_LEN st <? m)%nat then m
                  else MAX_WORD_LEN st) = Nat.max (MAX_WORD_LEN st) m).
  { destruct (Nat.ltb_spec 0 m); destruct (Nat.ltb_spec (MAX_WORD_LEN st) m);
      simpl; lia. }
  rewrite Hmax. repeat split.
  - intros w v Hin. rewrite mergeEntries_wellformed by exact Hnodup.
    destruct (List.find _ es) as [[k' v']|] eqn:Hfind.
    + apply find_some in Hfind as [Hin' Hk']. simpl in Hk'.
      apply bool_decide_eq_true in Hk'. subst k'. simpl. f_equal.
      apply (fst_unique es w v' v Hnodup Hin' Hin).
    + exfalso. eapply find_none in Hfind; [|exact Hin]. simpl in Hfind.
      apply bool_decide_eq_false in Hfind. congruence.
  - intros w Hout. rewrite mergeEntries_wellformed by exact Hnodup.
    destruct (List.find _ es) as [[k' v']|] eqn:Hfind; [|reflexivity].
    apply find_some in Hfind as [Hin' Hk']. simpl in Hk'.
    apply bool_decide_eq_true in Hk'. subst k'.
    exfalso. apply Hout. apply in_map_iff. exists (w, v'). auto.
  - lia.
  - apply elem_of_union_l, elem_of_singleton. reflexivity.
Qed.

Lemma ensureGroupLoaded_installs_witness :
  DICT (fst (ensureGroupLoaded serving_env ren_min_bi
               (fst (ensureIndex serving_env initial_store)))) !! ren_min_bi
  = Some {| en := Some [js "renminbi"]; py := js "ren2 min2 bi4";
            tag := "common"; pos := Some "n" |}
  /\ MAX_WORD_LEN (fst (ensureGroupLoaded serving_env ren_min_bi
                          (fst (ensureIndex serving_env initial_store)))) = 3%nat.
Proof.
  destruct (ensureGroupLoaded_installs serving_env ren_min_bi
              (fst (ensureIndex serving_env initial_store)) "g0"
              {| groupSize := 512;
                 groups := {[ "g0" := {| file := "g0.json"; count := 2;
                                         maxLen := 3 |} ]} |}
              {| file := "g0.json"; count := 2; maxLen := 3 |} 3 g0_entries)
    as (Hin & _ & _ & Hmax & _).
  - reflexivity.
  - vm_compute. reflexivity.
  - vm_compute. discriminate.
  - reflexivity.
  - vm_compute. reflexivity.
  - reflexivity.
  - repeat constructor; vm_compute; intros H; inversion H; subst;
      repeat match goal with
             | H : _ ∈ [] |- _ => inversion H
             | H : _ ∈ _ :: _ |- _ => inversion H; subst; clear H
             end.
  - split; [apply Hin; left; reflexivity | rewrite Hmax; reflexivity].
Defined.

Lemma mergeEntries_bounded D es (m : nat) :
  (forall w v, D !! w = Some v -> (length w <= m)%nat) ->
  (forall w v, Some (w, v) ∈ es -> (length w <= m)%nat) ->
  forall w v, mergeEntries D es !! w = Some v -> (length w <= m)%nat.
Proof.
  revert D. induction es as [|[[k u]|] es IH]; intros D HD Hes w v; simpl.
  - apply HD.
  - apply IH.
    + intros w' v'. destruct (decide (k = w')) as [->|Hne].
      * intros _. apply (Hes w' u). left.
      * rewrite lookup_insert_ne by exact Hne. apply HD.
    + intros w' v' Hin. apply (Hes w' v'). right. exact Hin.
  - apply HD.
Qed.

Lemma mergeChunk_bounded chunk st :
  keysBounded st -> chunkBounded chunk -> keysBounded (mergeChunk chunk st).
Proof.
  intros Hst (m & Hm & Hes) w v. unfold mergeChunk. simpl. rewrite Hm.
  assert (Hmax : (MAX_WORD_LEN st <= (if (0 <? m)%nat && (MAX_WORD_LEN st <? m)%nat
                                      then m else MAX_WORD_LEN st))%nat
                 /\ (m <= (if (0 <? m)%nat && (MAX_WORD_LEN st <? m)%nat
                           then m else MAX_WORD_LEN st))%nat).
  { destruct (Nat.ltb_spec 0 m); destruct (Nat.ltb_spec (MAX_WORD_LEN st) m);
      simpl; lia. }
  destruct Hmax as [Hold Hnew].
  destruct (entries chunk) as [es|] eqn:Hentries.
  - apply mergeEntries_bounded.
    + intros w' v' Hw'. specialize (Hst w' v' Hw'). lia.
    + intros w' v' Hin. specialize (Hes es w' v' eq_refl Hin). lia.
  - intros Hw. specialize (Hst w v Hw). lia.
Qed.

(** X7: the inline dictionary satisfies "every headword is at most
    [MAX_WORD_LEN] long", and every sequence of [ensureGroupLoaded]
    calls keeps it, provided each fetched chunk has a [maxLen] that
    bounds its own headwords (also when a malformed entry cuts the merge
    short). *)
Theorem keysBounded_invariant (calls : list (Env * jsstring)) (st : Store) :
  keysBounded initial_store
  /\ (keysBounded st ->
      (forall env ch url chunk, In (env, ch) calls ->
         fetchChunk env url = Some chunk -> chunkBounded chunk) ->
      keysBounded (fst (ensureGroupsLoaded calls st))).
Proof.
  split.
  - intros w entry Hw. unfold initial_store in Hw. simpl in Hw.
    destruct (decide (yan_jiu = w)) as [<-|H1]; [simpl; lia|].
    rewrite lookup_insert_ne in Hw by exact H1.
    destruct (decide (xue_xi = w)) as [<-|H2]; [simpl; lia|].
    rewrite lookup_insert_ne in Hw by exact H2.
    destruct (decide (ni_hao = w)) as [<-|H3]; [simpl; lia|].
    rewrite lookup_insert_ne in Hw by exact H3.
    rewrite lookup_empty in Hw. discriminate.
  - revert st. induction calls as [|[env ch] calls IH]; intros st Hst Hchunks;
      simpl; [exact Hst|].
    assert (Hstep : keysBounded (fst (ensureGroupLoaded env ch st))).
    { unfold ensureGroupLoaded.
      destruct (extAlive env); simpl; [|exact Hst].
      destruct (groupIdForChar ch) as [gid|]; [|exact Hst].
      destruct (bool_decide (gid ∈ loadedGroups st)); [exact Hst|].
      destruct (ensureIndex_fields env st) as (HD & HM & _).
      destruct (ensureIndex env st) as [st1 log1]. simpl in HD, HM.
      assert (Hst1 : keysBounded st1).
      { intros w v. rewrite HD, HM. apply Hst. }
      destruct (indexMeta st1) as [[idx1|]|]; [|exact Hst1|exact Hst1].
      destruct (groups idx1 !! gid) as [meta|]; [|exact Hst1].
      destruct (fetchChunk env _) as [chunk|] eqn:Hfetch; [|exact Hst1].
      cbn [fst]. intros w v Hw.
      apply (mergeChunk_bounded chunk st1 Hst1
               (Hchunks env ch _ chunk (or_introl eq_refl) Hfetch) w v Hw). }
    destruct (ensureGroupLoaded env ch st) as [st1 log1]. simpl in Hstep.
    specialize (IH st1 Hstep).
    destruct (ensureGroupsLoaded calls st1) as [st2 log2]. simpl in *.
    apply IH. intros env' ch' url chunk Hin. apply (Hchunks env' ch' url chunk).
    right. exact Hin.
Qed.

Lemma serving_chunk_bounded :
  chunkBounded {| chunk_maxLen := Some 3%nat; entries := Some (map Some g0_entries) |}.
Proof.
  exists 3%nat. split; [reflexivity|]. intros es w v [= <-] Hin.
  apply list_elem_of_In in Hin. simpl in Hin.
  destruct Hin as [[= <- _]|[[= <- _]|[]]]; simpl; lia.
Defined.

Lemma keysBounded_invariant_witness :
  keysBounded (fst (ensureGroupsLoaded [(serving_env, ren_min_bi)] initial_store)).
Proof.
  destruct (keysBounded_invariant [(serving_env, ren_min_bi)] initial_store)
    as (Hinit & Hkeep).
  apply Hkeep; [exact Hinit|].
  intros env ch url chunk [[= <- <-]|[]] [= <-]. apply serving_chunk_bounded.
Defined.

(** ** Segmenter *)

(** X8: a headword of the dictionary that starts with a CJK character
    and is at most [MAX_WORD_LEN] long is found at the start of a run:
    the first segment is a token at least as long as the headword, and
    when the run is the headword itself the segmentation is that one
    token with its entry. *)
Theorem segmentChinese_finds_headword (st : Store) (w rest : jsstring)
    (c : Z) (entry : Entry) :
  DICT st !! w = Some entry -> w !! 0%nat = Some c -> isCJK c = true ->
  (length w <= MAX_WORD_LEN st)%nat ->
  (exists w' entry' segs,
     segmentChinese st (w ++ rest) = Some (Token w' entry' :: segs)
     /\ (length w <= length w')%nat
     /\ w' = take (length w') (w ++ rest)
     /\ DICT st !! w' = Some entry')
  /\ segmentChinese st w = Some [Token w entry].
Proof.
  intros HD Hc Hcjk Hlen.
  assert (Hfirst : forall rest',
    exists w' entry' segs,
      segmentChinese st (w ++ rest') = Some (Token w' entry' :: segs)
      /\ Segmentation st (w ++ rest') (length w') segs
      /\ (length w <= length w' <= length (w ++ rest'))%nat
      /\ w' = take (length w') (w ++ rest')
      /\ DICT st !! w' = Some entry').
  { intros rest'.
    destruct (segmentChinese_spec st (w ++ rest')) as (segs & Hrun & Hspec).
    assert (Hc' : (w ++ rest') !! 0%nat = Some c)
      by (rewrite lookup_app_l; [exact Hc | apply lookup_lt_Some in Hc; exact Hc]).
    assert (Hw : slice (w ++ rest') 0 (0 + length w) = w).
    { unfold slice. simpl. rewrite Nat.sub_0_r, drop_0, take_app_length. reflexivity. }
    assert (Hfit : (1 <= length w <= Nat.min (MAX_WORD_LEN st)
                                        (length (w ++ rest') - 0))%nat).
    { rewrite length_app. apply lookup_lt_Some in Hc. lia. }
    inversion Hspec as [i Hi | i c0 segs0 Hc0 Hk0 Hnext | i c0 l entry0 segs0 Hc0 Hk0 Hl HD0 Hmax Hnext
                       | i c0 segs0 Hc0 Hk0 Hno Hnext]; subst.
    - rewrite length_app in *. apply lookup_lt_Some in Hc. lia.
    - congruence.
    - exists (slice (w ++ rest') 0 (0 + l)), entry0, segs0.
      assert (Hl' : (length w <= l)%nat).
      { destruct (le_lt_dec (length w) l) as [Hok|Hshort]; [exact Hok|].
        specialize (Hmax (length w) ltac:(lia)). rewrite Hw in Hmax. congruence. }
      rewrite slice_length by lia.
      split; [exact Hrun|]. split; [exact Hnext|]. split; [lia|].
      split; [|exact HD0]. unfold slice. simpl. rewrite Nat.sub_0_r, drop_0. reflexivity.
    - specialize (Hno (length w) Hfit). rewrite Hw in Hno. congruence. }
  split.
  - destruct (Hfirst rest) as (w' & entry' & segs & Hrun & _ & Hlen' & Hpre & HD').
    exists w', entry', segs. repeat split; auto; lia.
  - destruct (Hfirst []) as (w' & entry' & segs & Hrun & Hnext & Hlen' & Hpre & HD').
    rewrite app_nil_r in *.
    assert (Hw' : w' = w).
    { rewrite Hpre. apply take_ge. lia. }
    subst w'. rewrite HD in HD'. injection HD' as <-.
    rewrite Hrun. do 2 f_equal.
    inversion Hnext; subst; try reflexivity;
      match goal with H : _ !! length _ = Some _ |- _ =>
        apply lookup_lt_Some in H; lia end.
Qed.

Lemma segmentChinese_finds_headword_witness :
  segmentChinese
    (fst (ensureGroupLoaded serving_env ren_min_bi
            (fst (ensureIndex serving_env initial_store)))) ren_min_bi
  = Some [Token ren_min_bi
            {| en := Some [js "renminbi"]; py := js "ren2 min2 bi4";
               tag := "common"; pos := Some "n" |}].
Proof.
  apply (segmentChinese_finds_headword _ ren_min_bi [] 0x4EBA).
  - vm_compute. reflexivity.
  - reflexivity.
  - reflexivity.
  - vm_compute. lia.
Defined.

Lemma Segmentation_literals st text :
  (forall i c l, text !! i = Some c -> isCJK c = true ->
     (1 <= l <= Nat.min (MAX_WORD_LEN st) (length text - i))%nat ->
     DICT st !! slice text i (i + l) = None) ->
  forall later seen, text = seen ++ later ->
  Segmentation st text (length seen) (map (fun c => Literal [c]) later).
Proof.
  intros Hmiss. induction later as [|c later IH]; intros seen Htext; simpl.
  - apply seg_done. rewrite Htext, app_nil_r. reflexivity.
  - assert (Hc : text !! length seen = Some c).
    { rewrite Htext, lookup_app_r, Nat.sub_diag by lia. reflexivity. }
    assert (Hnext : Segmentation st text (S (length seen))
                      (map (fun c => Literal [c]) later)).
    { replace (S (length seen)) with (length (seen ++ [c]))
        by (rewrite length_app; simpl; lia).
      apply IH. rewrite Htext, <- app_assoc. reflexivity. }
    destruct (isCJK c) eqn:Hcjk.
    + apply (seg_miss st text _ c); auto. intros l Hl. eapply Hmiss; eauto.
    + apply (seg_other st text _ c); auto.
Qed.

Lemma filter_none {A} (f : A -> bool) (l : list A) :
  (forall x, In x l -> f x = false) -> List.filter f l = [].
Proof.
  induction l as [|x l IH]; intros Hall; simpl; [reflexivity|].
  rewrite (Hall x) by (left; reflexivity). apply IH. intros y Hy. apply Hall.
  right. exact Hy.
Qed.

(** X9: when the run has no CJK code unit, or the dictionary is empty,
    or [MAX_WORD_LEN] is 0, [segmentChinese] returns one literal per code
    unit and [replaceInNode] returns early: the node stays in place and
    the counters are untouched, whatever the settings. *)
Theorem no_match_unchanged (st : Store) (text : jsstring) :
  (forall c, In c text -> isCJK c = false) \/ DICT st = ∅ \/ MAX_WORD_LEN st = 0%nat ->
  segmentChinese st text = Some (map (fun c => Literal [c]) text)
  /\ forall toLowerCase settings random stats,
       replaceInNode toLowerCase st settings random stats text = Some (None, stats).
Proof.
  intros Hcase.
  assert (Hseg : segmentChinese st text = Some (map (fun c => Literal [c]) text)).
  { destruct (segmentChinese_spec st text) as (segs & Hrun & Hspec).
    rewrite Hrun. f_equal. symmetry.
    apply (Segmentation_unique _ _ _ _ Hspec).
    apply (Segmentation_literals st text) with (seen := []); [|reflexivity].
    intros i c l Hc Hcjk Hl.
    destruct Hcase as [Hnone | [Hempty | Hzero]].
    - rewrite (Hnone c) in Hcjk; [discriminate|].
      apply list_elem_of_In, list_elem_of_lookup. eauto.
    - rewrite Hempty. apply lookup_empty.
    - lia. }
  split; [exact Hseg|].
  intros toLowerCase settings random stats. unfold replaceInNode. rewrite Hseg.
  cbn [mbind option_bind].
  replace (eligibleTokens toLowerCase settings (map (fun c => Literal [c]) text))
    with (@nil nat); [reflexivity|].
  symmetry. unfold eligibleTokens. apply filter_none. intros i _.
  change (map (fun c : Z => Literal [c]) text) with ((fun c : Z => Literal [c]) <$> text).
  rewrite list_lookup_fmap. destruct (text !! i); reflexivity.
Qed.

Lemma no_match_unchanged_witness :
  replaceInNode asciiLowerCase initial_store DEFAULT_SETTINGS zero_random no_stats
    (js "hello, world")
  = Some (None, no_stats).
Proof.
  destruct (no_match_unchanged initial_store (js "hello, world")) as (_ & Hsame).
  - left. intros c Hin. simpl in Hin.
    repeat (destruct Hin as [<-|Hin]; [reflexivity|]). destruct Hin.
  - apply Hsame.
Defined.

(** ** Renderer *)

(** X10: when the selection holds no index of a token (for instance the
    empty selection), the fragment is one text node per segment, holds no
    replacement unit and reads exactly as the run. *)
Theorem render_nothing_selected (st : Store) (text : jsstring)
    (replaceSet : gset nat) :
  exists segs,
    segmentChinese st text = Some segs
    /\ ((forall i w entry, segs !! i = Some (Token w entry) -> i ∉ replaceSet) ->
        render segs replaceSet = map (fun seg => TextNode (segmentText seg)) segs
        /\ spanCount (render segs replaceSet) = 0%nat
        /\ concat (map textContent (render segs replaceSet)) = text).
Proof.
  destruct (segmentChinese_spec st text) as (segs & Hrun & Hspec).
  exists segs. split; [exact Hrun|]. intros Hnone.
  assert (Hplain : render segs replaceSet
                   = map (fun seg => TextNode (segmentText seg)) segs).
  { apply list_eq. intros i. rewrite render_lookup.
    change (map (fun seg => TextNode (segmentText seg)) segs)
      with ((fun seg => TextNode (segmentText seg)) <$> segs).
    rewrite list_lookup_fmap.
    destruct (segs !! i) as [[c|w entry]|] eqn:Hi; simpl; try reflexivity.
    rewrite bool_decide_eq_false_2 by (eapply Hnone; exact Hi). reflexivity. }
  split; [exact Hplain|]. rewrite Hplain. split.
  - unfold spanCount. rewrite filter_none; [reflexivity|].
    intros node Hin. apply in_map_iff in Hin as (seg & <- & _). reflexivity.
  - rewrite textContent_textNodes, (Segmentation_concat _ _ _ _ Hspec). apply drop_0.
Qed.

Lemma render_nothing_selected_witness :
  concat (map textContent
            (render [Token ni_hao entry_ni_hao; Token xue_xi entry_xue_xi] ∅))
  = ni_hao ++ xue_xi.
Proof.
  destruct (render_nothing_selected example_store (ni_hao ++ xue_xi) ∅)
    as (segs & Hrun & Hnone).
  vm_compute in Hrun. injection Hrun as <-.
  apply Hnone. intros i w entry _. apply not_elem_of_empty.
Defined.






Lemma replaceSetOf_elem toks idxs t :
  t ∈ replaceSetOf toks idxs <-> exists k, k ∈ idxs /\ tokenAt toks k = Some t.
Proof. unfold replaceSetOf. apply elem_of_set_omap. Qed.

Lemma tokenAt_In toks k t : tokenAt toks k = Some t -> In t toks.
Proof.
  unfold tokenAt. destruct (0 <=? k); [|discriminate]. intros Ht.
  apply list_elem_of_In, list_elem_of_lookup. eauto.
Qed.



(** X12: every replacement unit [replaceInNode] creates replaces an
    eligible token: it stores that token's word, and the text it shows is
    the entry's chosen sense, non-empty and free of white space, between
    the optional inserted spaces; the fallback to the original word is
    never used on this path. *)
Theorem replaceInNode_units (toLowerCase : jsstring -> jsstring) (st : Store)
    (settings : Settings) (random : nat -> Q) (stats stats' : Stats)
    (text : jsstring) (frag : list Node) :
  replaceInNode toLowerCase st settings random stats text = Some (Some frag, stats') ->
  exists segs,
    segmentChinese st text = Some segs
    /\ length frag = length segs
    /\ forall i node,
         frag !! i = Some node -> matchesSpan node = true ->
         exists w entry (l t : bool),
           segs !! i = Some (Token w entry)
           /\ tokenAllowed toLowerCase settings entry = true
           /\ node = createSpan w entry l t
           /\ getAttribute "data-original" node = Some w
           /\ chooseSense entry <> []
           /\ hasWhiteSpace (chooseSense entry) = false
           /\ textContent node
              = (if l then [32] else []) ++ chooseSense entry
                ++ (if t then [32] else []).
Proof.
  intros Hrep. unfold replaceInNode in Hrep.
  destruct (segmentChinese st text) as [segs|] eqn:Hrun; [|discriminate].
  cbn [mbind option_bind] in Hrep. exists segs. split; [reflexivity|].
  set (toks := eligibleTokens toLowerCase settings segs) in *.
  destruct (length toks =? 0)%nat; [discriminate|].
  injection Hrep as <- _. split; [apply length_imap|].
  intros i node Hnode Hspan. rewrite render_lookup in Hnode.
  destruct (segs !! i) as [seg|] eqn:Hseg; [|discriminate].
  injection Hnode as <-. rewrite matchesSpan_renderSegment in Hspan.
  apply andb_prop in Hspan as [Hobj Hin]. apply bool_decide_eq_true in Hin.
  destruct seg as [c|w entry]; [discriminate|].
  pose proof Hin as Hsel.
  apply replaceSetOf_elem in Hin as (k & _ & Hk). apply tokenAt_In in Hk.
  apply eligibleTokens_In in Hk as (w' & entry' & Hseg' & Hok).
  rewrite Hseg in Hseg'. injection Hseg' as <- <-.
  assert (Hsense : chooseSense entry <> [] /\ hasWhiteSpace (chooseSense entry) = false).
  { unfold tokenAllowed in Hok.
    destruct (bool_decide (chooseSense entry = [])) eqn:Hempty; [discriminate|].
    apply bool_decide_eq_false in Hempty.
    destruct (hasWhiteSpace (chooseSense entry)); [discriminate|]. auto. }
  destruct Hsense as [Hne Hws].
  exists w, entry. simpl. rewrite bool_decide_eq_true_2 by exact Hsel.
  destruct (spacing segs _ i) as [l t]. exists l, t.
  split; [reflexivity|]. split; [exact Hok|]. split; [reflexivity|].
  split; [reflexivity|]. split; [exact Hne|]. split; [exact Hws|].
  rewrite createSpan_textContent. unfold displaySense.
  destruct (chooseSense entry); [congruence | reflexivity].
Qed.

Lemma replaceInNode_units_witness :
  exists w entry (l t : bool),
    [Literal (js "a"); Literal (js "b"); Literal (js "c");
     Token ni_hao entry_ni_hao] !! 3%nat = Some (Token w entry)
    /\ createSpan ni_hao entry_ni_hao true false = createSpan w entry l t
    /\ hasWhiteSpace (chooseSense entry) = false.
Proof.
  destruct (replaceInNode_units asciiLowerCase initial_store (example_settings 0 true)
              zero_random no_stats {| nodes := 0; tokens := 1; replaced := 1 |}
              (js "abc" ++ ni_hao)
              [TextNode (js "a"); TextNode (js "b"); TextNode (js "c");
               createSpan ni_hao entry_ni_hao true false])
    as (segs & Hrun & _ & Hunits).
  - vm_compute. reflexivity.
  - vm_compute in Hrun. injection Hrun as <-.
    destruct (Hunits 3%nat (createSpan ni_hao entry_ni_hao true false) eq_refl eq_refl)
      as (w & entry & l & t & Hseg & _ & Hnode & _ & _ & Hws & _).
    exists w, entry, l, t. auto.
Defined.

(** ** Revert *)

Lemma Node_nested_ind (P : Node -> Prop) :
  (forall data, P (TextNode data)) ->
  (forall name classes attrs children,
     Forall P children -> P (Element name classes attrs children)) ->
  forall n, P n.
Proof.
  intros Htext Helem. fix IH 1. intros [data|name classes attrs children].
  - apply Htext.
  - apply Helem. induction children as [|child children IHc]; constructor.
    + apply IH.
    + exact IHc.
Qed.

Lemma matchesSpan_children name classes attrs children children' :
  matchesSpan (Element name classes attrs children')
  = matchesSpan (Element name classes attrs children).
Proof. reflexivity. Qed.

Lemma revertNode_clean n : containsSpan (revertNode n) = false.
Proof.
  induction n as [data|name classes attrs children IH] using Node_nested_ind;
    [reflexivity|].
  cbn [revertNode].
  destruct (matchesSpan (Element name classes attrs children)) eqn:Hspan.
  - destruct (getAttribute "data-original" (Element name classes attrs children))
      as [text|] eqn:Hattr; [reflexivity|].
    exfalso. unfold matchesSpan in Hspan. rewrite Hattr in Hspan.
    change (bool_decide (is_Some (@None (list Z)))) with false in Hspan.
    rewrite andb_false_r in Hspan. discriminate.
  - cbn [containsSpan].
    rewrite (matchesSpan_children name classes attrs children), Hspan. simpl.
    clear Hspan.
    induction IH as [|child children Hchild _ IHc]; [reflexivity|].
    simpl. rewrite Hchild. exact IHc.
Qed.

Lemma revertNode_unchanged n : containsSpan n = false -> revertNode n = n.
Proof.
  induction n as [data|name classes attrs children IH] using Node_nested_ind;
    [reflexivity|].
  intros Hclean. cbn [containsSpan] in Hclean.
  apply orb_false_elim in Hclean as [Hspan Hchildren].
  cbn [revertNode]. rewrite Hspan. f_equal. clear Hspan.
  induction IH as [|child children Hchild _ IHc]; [reflexivity|].
  simpl in Hchildren. apply orb_false_elim in Hchildren as [Hc Hcs].
  simpl. rewrite (Hchild Hc), (IHc Hcs). reflexivity.
Qed.

(** X13: [revertAll] leaves no replacement unit anywhere below the root,
    however deeply the units are nested; running it a second time
    changes nothing; and a tree without replacement units below the root
    is returned as it is. *)
Theorem revertAll_idempotent (name : string) (classes : list string)
    (attrs : list (string * jsstring)) (children : list Node) :
  exists children',
    revertAll (Element name classes attrs children)
    = Some (Element name classes attrs children')
    /\ length children' = length children
    /\ Forall (fun child => containsSpan child = false) children'
    /\ revertAll (Element name classes attrs children')
       = Some (Element name classes attrs children')
    /\ (Forall (fun child => containsSpan child = false) children ->
        children' = children).
Proof.
  exists (map revertNode children). split; [reflexivity|].
  assert (Hclean : Forall (fun child => containsSpan child = false)
                     (map revertNode children)).
  { apply Forall_forall. intros child Hin.
    apply list_elem_of_In, in_map_iff in Hin as (n & <- & _). apply revertNode_clean. }
  assert (Hsame : forall l, Forall (fun child => containsSpan child = false) l ->
                            map revertNode l = l).
  { intros l Hl. induction Hl as [|child l Hc _ IHl]; [reflexivity|].
    simpl. rewrite (revertNode_unchanged child Hc), IHl. reflexivity. }
  split; [apply length_map|]. split; [exact Hclean|]. split.
  - simpl. rewrite (Hsame _ Hclean). reflexivity.
  - apply Hsame.
Qed.

Lemma revertAll_idempotent_witness :
  revertAll (Element "p" [] [] [TextNode (js "abc")])
  = Some (Element "p" [] [] [TextNode (js "abc")]).
Proof.
  destruct (revertAll_idempotent "p" [] [] [TextNode (js "abc")])
    as (children' & Hrun & _ & _ & _ & Hsame).
  rewrite Hrun, Hsame; [reflexivity|]. repeat constructor.
Defined.

(** ** Blacklist patterns *)

Lemma replaceEscaped_skip x repl c s :
  (c = 92 -> headNot x s) ->
  replaceEscaped x repl (c :: s) = c :: replaceEscaped x repl s.
Proof.
  intros Hsafe. destruct s as [|d s]; [reflexivity|]. cbn [replaceEscaped].
  destruct (Z.eqb_spec c 92) as [Hc|Hc]; [|reflexivity].
  destruct (Z.eqb_spec d x) as [Hd|Hd]; [|reflexivity].
  destruct (Hsafe Hc Hd).
Qed.

Lemma replaceEscaped_hit x repl s :
  replaceEscaped x repl (92 :: x :: s) = repl ++ replaceEscaped x repl s.
Proof.
  cbn [replaceEscaped]. destruct (Z.eqb_spec x x) as [_|Hne]; [reflexivity|].
  destruct (Hne eq_refl).
Qed.

Lemma replaceEscaped_blocks (x : Z) (repl : jsstring) (t t' : Z -> jsstring) :
  (forall c, headNot x (t c) /\ t c <> []) ->
  (forall c s, headNot x s ->
     replaceEscaped x repl (t c ++ s) = t' c ++ replaceEscaped x repl s) ->
  forall raw, replaceEscaped x repl (flat_map t raw) = flat_map t' raw.
Proof.
  intros Hhead Hblock raw. induction raw as [|c raw IH]; [reflexivity|].
  simpl. rewrite Hblock, IH; [reflexivity|].
  destruct raw as [|c' raw]; [exact I|]. simpl.
  destruct (Hhead c') as [Hnot Hne]. destruct (t c'); [congruence | exact Hnot].
Qed.

(** X14: the three replacements of [patToRegExp] (escape everything,
    then turn the escaped [*] into [.*] and the escaped [?] into [.])
    never interfere with one another, whatever the pattern holds,
    backslashes included: the source handed to [RegExp] is [^], the
    character-by-character translation of the pattern, and [$]. *)
Theorem patSource_translation (raw : jsstring) :
  patSource raw = js "^" ++ flat_map wildcardChar raw ++ js "$".
Proof.
  unfold patSource. do 2 f_equal.
  set (t1 := fun c => if c =? 42 then js ".*"
                      else if reSpecial c then [92; c] else [c]).
  assert (Hfirst : replaceEscaped 42 (js ".*") (escapeRe raw) = flat_map t1 raw).
  { unfold escapeRe. apply replaceEscaped_blocks.
    - intros c. destruct (reSpecial c) eqn:Hc; simpl; split; try discriminate.
      intros ->. discriminate.
    - intros c s Hs. unfold t1. destruct (Z.eqb_spec c 42) as [->|Hne].
      + change (reSpecial 42) with true. cbn iota. apply replaceEscaped_hit.
      + destruct (reSpecial c) eqn:Hc.
        * cbn [app]. rewrite replaceEscaped_skip.
          -- rewrite replaceEscaped_skip; [reflexivity | intros _; exact Hs].
          -- intros _. simpl. exact Hne.
        * cbn [app]. apply replaceEscaped_skip. intros ->. discriminate. }
  rewrite Hfirst. apply replaceEscaped_blocks.
  - intros c. unfold t1. destruct (c =? 42); [split; discriminate|].
    destruct (reSpecial c) eqn:Hc; simpl; split; try discriminate.
    intros ->. discriminate.
  - intros c s Hs. unfold t1, wildcardChar. destruct (Z.eqb_spec c 42) as [->|Hne].
    + change (js ".*") with [46; 42]. cbn [app].
      rewrite (replaceEscaped_skip 63 (js ".") 46) by (intros [=]).
      rewrite (replaceEscaped_skip 63 (js ".") 42) by (intros [=]).
      reflexivity.
    + destruct (Z.eqb_spec c 63) as [->|Hne'].
      * change (reSpecial 63) with true. cbn iota. apply replaceEscaped_hit.
      * destruct (reSpecial c) eqn:Hc.
        -- cbn [app]. rewrite replaceEscaped_skip.
           ++ rewrite replaceEscaped_skip; [reflexivity | intros _; exact Hs].
           ++ intros _. simpl. exact Hne'.
        -- cbn [app]. apply replaceEscaped_skip. intros ->. discriminate.
Qed.

Lemma trimStart_app_ws (ws s : jsstring) :
  forallb isWhiteSpace ws = true -> trimStart (ws ++ s) = trimStart s.
Proof.
  induction ws as [|c ws IH]; simpl; [reflexivity|].
  intros Hws. apply andb_prop in Hws as [Hc Hrest]. rewrite Hc. apply IH, Hrest.
Qed.

Lemma trimStart_app (s t : jsstring) :
  trimStart (s ++ t)
  = match trimStart s with [] => trimStart t | _ :: _ => trimStart s ++ t end.
Proof.
  induction s as [|c s IH]; simpl; [destruct (trimStart t); reflexivity|].
  destruct (isWhiteSpace c); [exact IH | reflexivity].
Qed.

Lemma trimStart_ws (ws : jsstring) :
  forallb isWhiteSpace ws = true -> trimStart ws = [].
Proof.
  intros Hws. rewrite <- (app_nil_r ws). rewrite trimStart_app_ws by exact Hws.
  reflexivity.
Qed.

Lemma forallb_rev {A} (f : A -> bool) (l : list A) :
  forallb f (rev l) = forallb f l.
Proof.
  induction l as [|x l IH]; [reflexivity|]. simpl.
  rewrite forallb_app, IH. simpl. rewrite andb_true_r. apply andb_comm.
Qed.

Lemma trim_padding (ws1 ws2 s : jsstring) :
  forallb isWhiteSpace ws1 = true -> forallb isWhiteSpace ws2 = true ->
  trim (ws1 ++ s ++ ws2) = trim s.
Proof.
  intros H1 H2. unfold trim. rewrite trimStart_app_ws by exact H1.
  rewrite trimStart_app. destruct (trimStart s) as [|c s'] eqn:Hs.
  - rewrite (trimStart_ws ws2 H2). reflexivity.
  - rewrite rev_app_distr, trimStart_app_ws; [reflexivity|].
    rewrite forallb_rev. exact H2.
Qed.

Lemma trimStart_head (s : jsstring) :
  match trimStart s with c :: _ => isWhiteSpace c = false | [] => True end.
Proof.
  induction s as [|c s IH]; simpl; [exact I|].
  destruct (isWhiteSpace c) eqn:Hc; [exact IH | exact Hc].
Qed.

Lemma trimStart_fixed (s : jsstring) :
  match s with c :: _ => isWhiteSpace c = false | [] => True end ->
  trimStart s = s.
Proof. destruct s as [|c s]; simpl; [reflexivity|]. intros ->. reflexivity. Qed.

Lemma trimStart_last (s : jsstring) :
  match rev s with c :: _ => isWhiteSpace c = false | [] => True end ->
  match rev (trimStart s) with c :: _ => isWhiteSpace c = false | [] => True end.
Proof.
  induction s as [|c s IH]; simpl; [auto|].
  destruct (isWhiteSpace c) eqn:Hc; [|auto].
  intros Hlast. apply IH. destruct (rev s) as [|d r] eqn:Hr; [exact I|].
  simpl in Hlast. exact Hlast.
Qed.

Section PatternExtras.

Variable RegExp : Type.
Variable RegExp_new : jsstring -> string -> option RegExp.
Variable RegExp_test : RegExp -> jsstring -> bool.

(** X15: white space around a blacklist line does not matter:
    [patToRegExp] gives the same result for a pattern with or without
    leading and trailing white space (spaces, tabs, line breaks), and
    trimming twice is trimming once. *)
Theorem patToRegExp_padding (ws1 ws2 pat : jsstring) :
  forallb isWhiteSpace ws1 = true -> forallb isWhiteSpace ws2 = true ->
  patToRegExp RegExp RegExp_new (ws1 ++ pat ++ ws2)
  = patToRegExp RegExp RegExp_new pat
  /\ trim (trim pat) = trim pat.
Proof.
  intros H1 H2. split.
  - unfold patToRegExp. rewrite (trim_padding ws1 ws2 pat H1 H2). reflexivity.
  - unfold trim at 1.
    assert (Hhead : trimStart (trim pat) = trim pat).
    { apply trimStart_fixed. unfold trim.
      pose proof (trimStart_head pat) as Hh.
      pose proof (trimStart_head (rev (trimStart pat))) as Hl.
      pose proof (trimStart_last (rev (trimStart pat))) as Hlast.
      rewrite rev_involutive in Hlast. specialize (Hlast Hh). exact Hlast. }
    rewrite Hhead. unfold trim at 1. rewrite rev_involutive.
    rewrite (trimStart_fixed (trimStart (rev (trimStart pat))))
      by apply trimStart_head.
    reflexivity.
Qed.

(** X16: a page is processed exactly when the switch is on and no
    compiled pattern matches its address; so turning the switch off
    stops processing whatever the blacklist, and adding lines to the
    blacklist can stop processing but never start it. *)
Theorem settingsAllow_blacklist (settings : Settings) (href : jsstring)
    (patterns more : list jsstring) :
  (forall reList,
     settingsAllow RegExp RegExp_test settings reList href
     = enabled settings && negb (urlMatchesAny RegExp RegExp_test reList href))
  /\ (settingsAllow RegExp RegExp_test settings
        (compilePatternLists RegExp RegExp_new
           (withBlacklist settings (patterns ++ more))) href = true ->
      settingsAllow RegExp RegExp_test settings
        (compilePatternLists RegExp RegExp_new
           (withBlacklist settings patterns)) href = true).
Proof.
  assert (Hchar : forall reList,
     settingsAllow RegExp RegExp_test settings reList href
     = enabled settings && negb (urlMatchesAny RegExp RegExp_test reList href)).
  { intros reList. unfold settingsAllow. destruct (enabled settings); [|reflexivity].
    simpl. destruct reList as [|re reList]; [reflexivity|]. simpl.
    destruct (RegExp_test re href || _); reflexivity. }
  split; [exact Hchar|]. rewrite !Hchar. unfold compilePatternLists. simpl.
  rewrite omap_app. unfold urlMatchesAny. rewrite existsb_app.
  destruct (enabled settings); [|discriminate]. simpl.
  destruct (existsb _ (omap _ patterns)); [discriminate | reflexivity].
Qed.

End PatternExtras.

Lemma patToRegExp_padding_witness :
  patToRegExp jsstring (fun source _ => Some source) (js "  *.example.com/* ")
  = patToRegExp jsstring (fun source _ => Some source) (js "*.example.com/*").
Proof.
  apply (patToRegExp_padding jsstring (fun source _ => Some source)
           (js "  ") (js " ") (js "*.example.com/*")); reflexivity.
Defined.

Lemma settingsAllow_blacklist_witness :
  settingsAllow jsstring (fun re url => jsstring_eqb re url) DEFAULT_SETTINGS
    (compilePatternLists jsstring (fun source _ => Some source)
       (withBlacklist DEFAULT_SETTINGS [js "a"])) (js "b")
  = true.
Proof.
  apply (settingsAllow_blacklist jsstring (fun source _ => Some source)
           (fun re url => jsstring_eqb re url) DEFAULT_SETTINGS (js "b")
           [js "a"] [js "c"]).
  vm_compute. reflexivity.
Defined.

(** ** Prefetch *)

Lemma ensureGroupLoaded_adds env ch st g :
  g ∈ loadedGroups (fst (ensureGroupLoaded env ch st)) ->
  g ∈ loadedGroups st \/ groupIdForChar ch = Some g.
Proof.
  unfold ensureGroupLoaded.
  destruct (extAlive env); simpl; [|auto].
  destruct (groupIdForChar ch) as [gid|]; [|auto].
  destruct (bool_decide (gid ∈ loadedGroups st)); [auto|].
  pose proof (ensureIndex_loadedGroups env st) as Hidx.
  destruct (ensureIndex env st) as [st1 log1]. simpl in Hidx.
  assert (Hadd : forall st2, loadedGroups st2 = loadedGroups st1 ->
            g ∈ loadedGroups (addLoaded gid st2) ->
            g ∈ loadedGroups st \/ Some gid = Some g).
  { intros st2 Hst2. simpl. rewrite Hst2, Hidx. intros Hg.
    apply elem_of_union in Hg as [Hg|Hg]; [|auto].
    apply elem_of_singleton in Hg as ->. auto. }
  destruct (indexMeta st1) as [[idx1|]|]; try (simpl; rewrite Hidx; auto; fail).
  destruct (groups idx1 !! gid) as [meta|]; [|apply (Hadd st1 eq_refl)].
  destruct (fetchChunk env _) as [chunk|]; [|apply (Hadd st1 eq_refl)].
  apply (Hadd (mergeChunk chunk st1)). reflexivity.
Qed.

Lemma prefetchGroup_facts env text gid st idx :
  indexMeta st = Some (IndexWithGroups idx) ->
  indexMeta (fst (prefetchGroup env text gid st)) = Some (IndexWithGroups idx)
  /\ loadedGroups st ⊆ loadedGroups (fst (prefetchGroup env text gid st))
  /\ (is_Some (groups idx !! gid) ->
      gid ∈ loadedGroups (fst (prefetchGroup env text gid st)))
  /\ (forall g, g ∈ loadedGroups (fst (prefetchGroup env text gid st)) ->
        g ∈ loadedGroups st
        \/ (g = gid /\ is_Some (groups idx !! gid))
        \/ firstCJK text ≫= groupIdForChar = Some g).
Proof.
  intros Hidx. unfold prefetchGroup.
  destruct (bool_decide (gid ∈ loadedGroups st)) eqn:Hloaded.
  { apply bool_decide_eq_true in Hloaded. simpl. repeat split; auto. }
  rewrite Hidx. simpl.
  destruct (groups idx !! gid) as [meta|] eqn:Hmeta.
  - assert (Hmark : forall st2 (log : list string),
              indexMeta st2 = Some (IndexWithGroups idx) -> loadedGroups st2 = loadedGroups st ->
              indexMeta (fst (addLoaded gid st2, log)) = Some (IndexWithGroups idx)
              /\ loadedGroups st ⊆ loadedGroups (fst (addLoaded gid st2, log))
              /\ (is_Some (Some meta) ->
                  gid ∈ loadedGroups (fst (addLoaded gid st2, log)))
              /\ (forall g, g ∈ loadedGroups (fst (addLoaded gid st2, log)) ->
                    g ∈ loadedGroups st \/ (g = gid /\ is_Some (Some meta))
                    \/ firstCJK text ≫= groupIdForChar = Some g)).
    { intros st2 log Hi Hl. simpl. rewrite Hl. split; [exact Hi|].
      split; [apply union_subseteq_r|]. split.
      - intros _. apply elem_of_union_l, elem_of_singleton. reflexivity.
      - intros g Hg. apply elem_of_union in Hg as [Hg|Hg]; [|auto].
        apply elem_of_singleton in Hg as ->. right. left. split; [reflexivity|]. eauto. }
    destruct (extAlive env); [|apply Hmark; auto].
    destruct (fetchChunk env _) as [chunk|]; [|apply Hmark; auto].
    apply Hmark; [exact Hidx | reflexivity].
  - rewrite (ensureIndex_cached env st _ Hidx).
    destruct (firstCJK text) as [ch|] eqn:Hfirst; simpl.
    + destruct (ensureGroupLoaded_store_grows env ch st) as (_ & _ & Hkeep).
      pose proof (ensureGroupLoaded_grows env ch st) as Hgrow.
      pose proof (ensureGroupLoaded_adds env ch st) as Hadds.
      destruct (ensureGroupLoaded env ch st) as [st2 log2]. simpl in *.
      split; [apply Hkeep, Hidx|]. split; [exact Hgrow|]. split.
      * intros [? ?]. discriminate.
      * intros g Hg. destruct (Hadds g Hg) as [Hold|Hnew]; auto.
    + split; [exact Hidx|]. split; [reflexivity|]. split.
      * intros [? ?]. discriminate.
      * auto.
Qed.

Lemma prefetchGroups_facts env text idx gids : forall st,
  indexMeta st = Some (IndexWithGroups idx) ->
  indexMeta (fst (prefetchGroups env text gids st)) = Some (IndexWithGroups idx)
  /\ loadedGroups st ⊆ loadedGroups (fst (prefetchGroups env text gids st))
  /\ (forall gid, In gid gids -> is_Some (groups idx !! gid) ->
        gid ∈ loadedGroups (fst (prefetchGroups env text gids st)))
  /\ (forall g, g ∈ loadedGroups (fst (prefetchGroups env text gids st)) ->
        g ∈ loadedGroups st
        \/ (In g gids /\ is_Some (groups idx !! g))
        \/ firstCJK text ≫= groupIdForChar = Some g).
Proof.
  induction gids as [|gid gids IH]; intros st Hidx; simpl.
  - split; [exact Hidx|]. split; [reflexivity|]. split; [intros ? []|auto].
  - destruct (prefetchGroup_facts env text gid st idx Hidx) as (Hi & Hsub & Hmark & Hadds).
    destruct (prefetchGroup env text gid st) as [st1 log1]. simpl in *.
    destruct (IH st1 Hi) as (Hi' & Hsub' & Hmark' & Hadds').
    destruct (prefetchGroups env text gids st1) as [st2 log2]. simpl in *.
    split; [exact Hi'|]. split; [etransitivity; eassumption|]. split.
    + intros g [<-|Hin] Hlisted; [apply Hsub', Hmark, Hlisted | apply Hmark'; auto].
    + intros g Hg. destruct (Hadds' g Hg) as [Hold|[[Hin Hl]|Hf]]; auto.
      destruct (Hadds g Hold) as [Hold'|[[-> Hl]|Hf]]; auto.
Qed.

Lemma nodeGroupIds_fold chars : forall gids g,
  In g (fold_left
          (fun gids ch =>
             match groupIdForChar ch with
             | Some gid => if bool_decide (gid ∈ gids) then gids else gids ++ [gid]
             | None => gids
             end) chars gids)
  <-> In g gids \/ exists ch, In ch chars /\ groupIdForChar ch = Some g.
Proof.
  induction chars as [|ch chars IH]; intros gids g; simpl.
  - split; [auto | intros [H|(ch & [] & _)]; exact H].
  - rewrite IH. destruct (groupIdForChar ch) as [gid|] eqn:Hgid.
    + destruct (bool_decide (gid ∈ gids)) eqn:Hdec.
      * apply bool_decide_eq_true, list_elem_of_In in Hdec. split.
        -- intros [H|(ch' & Hin & Hg)]; eauto.
        -- intros [H|(ch' & [<-|Hin] & Hg)]; eauto.
           left. congruence.
      * rewrite in_app_iff. simpl. split.
        -- intros [[H|[<-|[]]]|(ch' & Hin & Hg)]; eauto.
        -- intros [H|(ch' & [<-|Hin] & Hg)]; eauto.
           left. right. left. congruence.
    + split.
      * intros [H|(ch' & Hin & Hg)]; eauto.
      * intros [H|(ch' & [<-|Hin] & Hg)]; eauto. congruence.
Qed.

(** X17: the prefetch of [scheduleProcess] for one node, started with a
    cached index: every bucket of a character of the node that the index
    lists is marked loaded afterwards, whether the context is alive or
    not and whether the fetch succeeds or not; nothing is unmarked and
    the index is kept; and the only other bucket that can get marked is
    the one of the node's first CJK character, so a bucket missing from
    the index that is not that one stays unmarked. *)
Theorem prefetchNode_marks (env : Env) (text : jsstring) (st : Store)
    (idx : IndexMeta) :
  indexMeta st = Some (IndexWithGroups idx) ->
  indexMeta (fst (prefetchNode env text st)) = Some (IndexWithGroups idx)
  /\ loadedGroups st ⊆ loadedGroups (fst (prefetchNode env text st))
  /\ (forall ch gid, In ch (stringChars text) -> groupIdForChar ch = Some gid ->
        is_Some (groups idx !! gid) ->
        gid ∈ loadedGroups (fst (prefetchNode env text st)))
  /\ (forall gid, gid ∉ loadedGroups st -> groups idx !! gid = None ->
        firstCJK text ≫= groupIdForChar <> Some gid ->
        gid ∉ loadedGroups (fst (prefetchNode env text st))).
Proof.
  intros Hidx. unfold prefetchNode.
  destruct (prefetchGroups_facts env text idx (nodeGroupIds text) st Hidx)
    as (Hi & Hsub & Hmark & Hadds).
  split; [exact Hi|]. split; [exact Hsub|]. split.
  - intros ch gid Hch Hgid Hlisted. apply Hmark; [|exact Hlisted].
    unfold nodeGroupIds. apply nodeGroupIds_fold. right. eauto.
  - intros gid Hnew Hunlisted Hfirst Hin.
    destruct (Hadds gid Hin) as [Hold|[[_ [meta Hl]]|Hf]]; [auto | congruence | auto].
Qed.

Lemma prefetchNode_marks_witness :
  "g0" ∈ loadedGroups (fst (prefetchNode failing_env ni_hao
                              (fst (ensureIndex failing_env initial_store))))
  /\ "g5" ∉ loadedGroups (fst (prefetchNode failing_env ni_hao
                                 (fst (ensureIndex failing_env initial_store)))).
Proof.
  destruct (prefetchNode_marks failing_env ni_hao
              (fst (ensureIndex failing_env initial_store))
              {| groupSize := 512;
                 groups := {[ "g0" := {| file := "g0.json"; count := 1;
                                         maxLen := 2 |} ]} |} eq_refl)
    as (_ & _ & Hmark & Hskip).
  split.
  - apply (Hmark [0x4F60] "g0").
    + left. reflexivity.
    + vm_compute. reflexivity.
    + eexists. vm_compute. reflexivity.
  - apply Hskip.
    + vm_compute. discriminate.
    + vm_compute. reflexivity.
    + vm_compute. discriminate.
Defined.

(** ** Options page *)

Lemma isDigit_not_space c : isDigit c = true -> isWhiteSpace c = false.
Proof. unfold isDigit, isWhiteSpace. lia. Qed.

Lemma decimalDigits_head fuel n :
  0 <= n -> fuel <> O ->
  exists c r, decimalDigits fuel n = c :: r /\ isDigit c = true.
Proof.
  revert n. induction fuel as [|fuel IH]; intros n Hn Hfuel; [congruence|].
  cbn [decimalDigits]. destruct (Z.ltb_spec n 10) as [Hsmall|Hbig].
  - exists (48 + n), []. split; [reflexivity|]. unfold isDigit. lia.
  - destruct fuel as [|fuel'].
    + exists (48 + n mod 10), []. split; [reflexivity|].
      pose proof (Z.mod_pos_bound n 10). unfold isDigit. lia.
    + destruct (IH (n / 10)) as (c & r & Heq & Hc);
        [apply Z.div_pos; lia | discriminate |].
      rewrite Heq. exists c, (r ++ [48 + n mod 10]). split; [reflexivity | exact Hc].
Qed.

Lemma decimalDigits_value fuel : forall n acc rest,
  0 <= n < Z.of_nat fuel ->
  digitsValue acc (decimalDigits fuel n ++ rest)
  = digitsValue (acc * 10 ^ Z.of_nat (length (decimalDigits fuel n)) + n) rest.
Proof.
  induction fuel as [|fuel IH]; intros n acc rest Hn; [lia|].
  cbn [decimalDigits]. destruct (Z.ltb_spec n 10) as [Hsmall|Hbig].
  - cbn [app digitsValue length].
    assert (Hd : isDigit (48 + n) = true) by (unfold isDigit; lia).
    rewrite Hd. f_equal. change (Z.of_nat 1) with 1. lia.
  - rewrite <- app_assoc, IH by (split; [apply Z.div_pos; lia|];
      apply Z.div_lt_upper_bound; lia).
    cbn [app digitsValue].
    pose proof (Z.mod_pos_bound n 10 ltac:(lia)) as Hmod.
    assert (Hd : isDigit (48 + n mod 10) = true) by (unfold isDigit; lia).
    rewrite Hd. f_equal. rewrite length_app. cbn [length].
    rewrite Nat2Z.inj_add, Z.pow_add_r by lia. change (10 ^ Z.of_nat 1) with 10.
    pose proof (Z.div_mod n 10 ltac:(lia)). lia.
Qed.

Lemma digits_parse n :
  0 <= n ->
  exists c r, decimalDigits (S (Z.to_nat n)) n = c :: r /\ isDigit c = true
              /\ digitsValue 0 (c :: r) = n.
Proof.
  intros Hn. destruct (decimalDigits_head (S (Z.to_nat n)) n Hn) as (c & r & Heq & Hc);
    [discriminate|].
  exists c, r. split; [exact Heq|]. split; [exact Hc|].
  rewrite <- Heq, <- (app_nil_r (decimalDigits _ n)), decimalDigits_value by lia.
  simpl. lia.
Qed.

Lemma parseInt10_decimalString n : parseInt10 (decimalString n) = Some n.
Proof.
  unfold decimalString, parseInt10. destruct (Z.ltb_spec n 0) as [Hneg|Hpos].
  - destruct (digits_parse (- n)) as (c & r & Heq & Hc & Hval); [lia|].
    rewrite Heq. cbn [trimStart]. change (isWhiteSpace 45) with false. cbn iota.
    change (45 =? 45) with true. cbn iota. rewrite Hc, Hval. f_equal. lia.
  - destruct (digits_parse n Hpos) as (c & r & Heq & Hc & Hval).
    rewrite Heq. cbn [trimStart]. rewrite (isDigit_not_space c Hc).
    assert (H45 : (c =? 45) = false) by (unfold isDigit in Hc; lia).
    assert (H43 : (c =? 43) = false) by (unfold isDigit in Hc; lia).
    rewrite H45, H43, Hc, Hval. f_equal. lia.
Qed.

Lemma jsclamp_range (x : Q) :
  (5 # 100 <= jsmax (5 # 100) (jsmin (50 # 100) x))%Q
  /\ (jsmax (5 # 100) (jsmin (50 # 100) x) <= 50 # 100)%Q.
Proof.
  unfold jsmax, jsmin.
  destruct (Qlt_le_dec x (50 # 100)) as [Hlt|Hge];
    destruct (Qlt_le_dec (5 # 100) _) as [Hlt'|Hge'];
    unfold Qle, Qlt in *; simpl in *; lia.
Qed.

Lemma jsclamp_inside (x : Q) :
  (5 # 100 <= x)%Q -> (x <= 50 # 100)%Q ->
  (jsmax (5 # 100) (jsmin (50 # 100) x) == x)%Q.
Proof.
  intros Hlow Hhigh. unfold jsmax, jsmin.
  destruct (Qlt_le_dec x (50 # 100)) as [Hlt|Hge];
    destruct (Qlt_le_dec (5 # 100) _) as [Hlt'|Hge'];
    unfold Qeq, Qle, Qlt in *; simpl in *; lia.
Qed.

(** X18: whatever the slider field holds, the ratio the options page
    saves lies between 0.05 and 0.5 (in particular it is never 0); and a
    whole percentage from 5 to 50 survives the round trip: the page
    saves [p / 100] for the value [p], and shows [p] again for a saved
    [p / 100]. *)
Theorem options_ratio (value : jsstring) (p : Z) :
  ((5 # 100 <= readRatio value)%Q /\ (readRatio value <= 50 # 100)%Q)
  /\ (5 <= p <= 50 ->
      (readRatio (decimalString p) == inject_Z p / 100)%Q
      /\ writeRatio (readRatio (decimalString p)) = decimalString p).
Proof.
  split; [apply jsclamp_range|]. intros Hp.
  assert (Hread : (readRatio (decimalString p) == inject_Z p / 100)%Q).
  { unfold readRatio. rewrite parseInt10_decimalString.
    destruct (Z.eqb_spec p 0) as [->|_]; [lia|].
    apply jsclamp_inside; unfold Qle, Qdiv, Qmult, Qinv, inject_Z; simpl; lia. }
  split; [exact Hread|]. unfold writeRatio.
  assert (Hnz : Qeq_bool (readRatio (decimalString p)) 0 = false).
  { destruct (Qeq_bool (readRatio (decimalString p)) 0) eqn:Hz; [|reflexivity].
    apply Qeq_bool_eq in Hz. rewrite Hread in Hz.
    unfold Qeq, Qdiv, Qmult, Qinv, inject_Z in Hz. simpl in Hz. lia. }
  rewrite Hnz. f_equal.
  assert (Hval : (readRatio (decimalString p) * 100 + (1 # 2)
                  == inject_Z p + (1 # 2))%Q).
  { rewrite Hread. unfold Qeq, Qdiv, Qmult, Qinv, Qplus, inject_Z. simpl. lia. }
  rewrite (Qfloor_comp _ _ Hval). unfold Qfloor, Qplus, inject_Z. simpl.
  symmetry. apply Z.div_unique with (r := 1); lia.
Qed.

Lemma options_ratio_witness :
  writeRatio (readRatio (js "15")) = js "15".
Proof.
  destruct (options_ratio (js "15") 15) as (_ & Hround).
  apply Hround. lia.
Defined.

Lemma trim_trim (s : jsstring) : trim (trim s) = trim s.
Proof.
  unfold trim at 1.
  assert (Hhead : trimStart (trim s) = trim s).
  { apply trimStart_fixed. unfold trim.
    pose proof (trimStart_last (rev (trimStart s))) as Hlast.
    rewrite rev_involutive in Hlast. apply Hlast, trimStart_head. }
  rewrite Hhead. unfold trim at 1. rewrite rev_involutive.
  rewrite (trimStart_fixed (trimStart (rev (trimStart s)))) by apply trimStart_head.
  reflexivity.
Qed.

Lemma split_lines_item (item : jsstring) : forall cur inSep rest,
  item <> [] -> forallb (fun c => negb (c =? 10)) item = true ->
  split_lines_from cur inSep (item ++ rest)
  = split_lines_from (rev item ++ cur) false rest.
Proof.
  induction item as [|c item IH]; intros cur inSep rest Hne Hclean; [congruence|].
  simpl in Hclean. apply andb_prop in Hclean as [Hc Hitem].
  cbn [app split_lines_from]. destruct (c =? 10); [discriminate|].
  destruct item as [|d item'].
  - reflexivity.
  - rewrite IH by (congruence || exact Hitem). cbn [rev]. rewrite <- !app_assoc.
    reflexivity.
Qed.

Lemma split_lines_join (patterns : list jsstring) : forall cur,
  Forall (fun p => p <> [] /\ forallb (fun c => negb (c =? 10)) p = true) patterns ->
  patterns <> [] ->
  split_lines_from cur true (join [10] patterns)
  = match patterns with
    | first :: others => (rev cur ++ first) :: others
    | [] => []
    end.
Proof.
  induction patterns as [|p patterns IH]; intros cur Hall Hne; [congruence|].
  inversion Hall as [|? ? [Hp Hclean] Hrest]; subst.
  destruct patterns as [|q patterns'].
  - cbn [join]. rewrite <- (app_nil_r p) at 1.
    rewrite split_lines_item by assumption. cbn [split_lines_from].
    rewrite rev_app_distr, rev_involutive. reflexivity.
  - change (join [10] (p :: q :: patterns'))
      with (p ++ 10 :: join [10] (q :: patterns')).
    rewrite split_lines_item by assumption.
    cbn [split_lines_from]. change (10 =? 10) with true. cbn iota.
    rewrite rev_app_distr, rev_involutive.
    rewrite (IH [] Hrest) by discriminate. reflexivity.
Qed.

Lemma readBlacklist_clean value :
  Forall (fun p => p <> [] /\ trim p = p) (readBlacklist value).
Proof.
  unfold readBlacklist. apply Forall_forall. intros p Hin.
  apply list_elem_of_In, filter_In in Hin as [Hin Hne].
  apply in_map_iff in Hin as (line & <- & _). split.
  - destruct (bool_decide (trim line = [])) eqn:Hdec; [discriminate|].
    apply bool_decide_eq_false in Hdec. exact Hdec.
  - apply trim_trim.
Qed.

(** X19: the blacklist the options page reads from its text area holds
    no blank line and no line with white space around it; and a list of
    such patterns without line breaks survives the round trip through
    the text area: reading back what [writeUI] wrote gives the same
    list. *)
Theorem options_blacklist_roundtrip (value : jsstring)
    (patterns : list jsstring) :
  Forall (fun p => p <> [] /\ trim p = p) (readBlacklist value)
  /\ (Forall (fun p => p <> [] /\ trim p = p
                       /\ forallb (fun c => negb (c =? 10)) p = true) patterns ->
      readBlacklist (writeBlacklist (Some patterns)) = patterns)
  /\ readBlacklist (writeBlacklist None) = [].
Proof.
  split; [apply readBlacklist_clean|]. split; [|reflexivity].
  intros Hall. unfold readBlacklist, writeBlacklist, split_lines. simpl.
  assert (Hsplit : split_lines_from [] false (join [10] patterns)
                   = match patterns with [] => [[]] | _ :: _ => patterns end).
  { destruct patterns as [|p patterns']; [reflexivity|].
    inversion Hall as [|? ? (Hp & _ & Hclean) Hrest]; subst.
    destruct patterns' as [|q patterns''].
    - cbn [join]. rewrite <- (app_nil_r p) at 1.
      rewrite split_lines_item by assumption. cbn [split_lines_from].
      rewrite app_nil_r, rev_involutive. reflexivity.
    - change (join [10] (p :: q :: patterns''))
        with (p ++ 10 :: join [10] (q :: patterns'')).
      rewrite split_lines_item by assumption.
      cbn [split_lines_from]. change (10 =? 10) with true. cbn iota.
      rewrite app_nil_r, rev_involutive. f_equal.
      rewrite (split_lines_join (q :: patterns'') []); [reflexivity | | discriminate].
      eapply Forall_impl; [exact Hrest|]. intros x (Hx & _ & Hc). auto. }
  rewrite Hsplit. clear Hsplit.
  assert (Hid : forall l,
            Forall (fun p => p <> [] /\ trim p = p
                             /\ forallb (fun c => negb (c =? 10)) p = true) l ->
            List.filter (fun p => negb (bool_decide (p = []))) (map trim l) = l).
  { intros l Hl. induction Hl as [|x l (Hx & Htrim & _) _ IH]; [reflexivity|].
    cbn [map List.filter]. rewrite Htrim.
    rewrite bool_decide_eq_false_2 by exact Hx. cbn [negb]. f_equal. exact IH. }
  destruct patterns as [|p patterns']; [reflexivity|]. apply Hid, Hall.
Qed.

Lemma options_blacklist_roundtrip_witness :
  readBlacklist (writeBlacklist (Some [js "*.example.com/*"; js "# note"]))
  = [js "*.example.com/*"; js "# note"].
Proof.
  destruct (options_blacklist_roundtrip [] [js "*.example.com/*"; js "# note"])
    as (_ & Hround & _).
  apply Hround. repeat constructor; discriminate.
Defined.

(** ** CSV export *)

(** A field is followed by the end of the line or by a comma. *)
Lemma csvPlain_decode (a b ra rb : jsstring) :
  (forall c, In c a -> c <> 44) -> (forall c, In c b -> c <> 44) ->
  (ra = [] \/ exists r, ra = 44 :: r) -> (rb = [] \/ exists r, rb = 44 :: r) ->
  a ++ ra = b ++ rb -> a = b /\ ra = rb.
Proof.
  revert b. induction a as [|x a IH]; intros [|y b] Ha Hb Hra Hrb; simpl; intros Heq.
  - auto.
  - exfalso. destruct Hra as [->|[r ->]]; [discriminate|].
    injection Heq as <- _. apply (Hb 44); [left|]; reflexivity.
  - exfalso. destruct Hrb as [->|[r ->]]; [discriminate|].
    injection Heq as -> _. apply (Ha 44); [left|]; reflexivity.
  - injection Heq as -> Heq.
    destruct (IH b) as [-> ->]; auto.
    + intros c Hc. apply Ha. right. exact Hc.
    + intros c Hc. apply Hb. right. exact Hc.
Qed.

Lemma csvQuoted_decode (a b ra rb : jsstring) :
  (ra = [] \/ exists r, ra = 44 :: r) -> (rb = [] \/ exists r, rb = 44 :: r) ->
  flat_map (fun c => if c =? 34 then [34; 34] else [c]) a ++ 34 :: ra
  = flat_map (fun c => if c =? 34 then [34; 34] else [c]) b ++ 34 :: rb ->
  a = b /\ ra = rb.
Proof.
  intros Hra Hrb. revert b. induction a as [|x a IH]; intros [|y b]; simpl.
  - intros [= ->]. auto.
  - destruct (Z.eqb_spec y 34) as [->|Hy]; simpl; intros Heq; exfalso.
    + injection Heq as ->. destruct Hra as [Hra|[r Hra]]; discriminate.
    + injection Heq as <- _. apply Hy. reflexivity.
  - destruct (Z.eqb_spec x 34) as [->|Hx]; simpl; intros Heq; exfalso.
    + injection Heq as Heq. destruct Hrb as [Hrb|[r Hrb]]; subst rb; discriminate.
    + injection Heq as -> _. apply Hx. reflexivity.
  - destruct (Z.eqb_spec x 34) as [->|Hx]; destruct (Z.eqb_spec y 34) as [->|Hy];
      simpl; intros Heq; injection Heq; intros; subst; try congruence.
    + destruct (IH b) as [-> ->]; auto.
    + destruct (IH b) as [-> ->]; auto.
Qed.

Lemma csvNeedsQuotes_false (t : jsstring) :
  csvNeedsQuotes t = false -> forall c, In c t -> c <> 34 /\ c <> 44 /\ c <> 10.
Proof.
  intros Ht c Hin. unfold csvNeedsQuotes in Ht.
  rewrite <- not_true_iff_false, existsb_exists in Ht.
  repeat split; intros ->; apply Ht; eexists; (split; [exact Hin | reflexivity]).
Qed.

Lemma csvEscape_decode (a b ra rb : jsstring) :
  (ra = [] \/ exists r, ra = 44 :: r) -> (rb = [] \/ exists r, rb = 44 :: r) ->
  csvEscape a ++ ra = csvEscape b ++ rb -> a = b /\ ra = rb.
Proof.
  intros Hra Hrb. unfold csvEscape.
  destruct (csvNeedsQuotes a) eqn:Ha; destruct (csvNeedsQuotes b) eqn:Hb.
  - rewrite <- !app_assoc. simpl. intros [= Heq].
    apply csvQuoted_decode; assumption.
  - intros Heq. exfalso. pose proof (csvNeedsQuotes_false b Hb) as Hplain.
    destruct b as [|y b]; simpl in Heq.
    + destruct Hrb as [->|[r ->]]; discriminate.
    + injection Heq as <- _. destruct (Hplain 34) as [H _]; [left; reflexivity|].
      apply H. reflexivity.
  - intros Heq. exfalso. pose proof (csvNeedsQuotes_false a Ha) as Hplain.
    destruct a as [|x a]; simpl in Heq.
    + destruct Hra as [->|[r ->]]; discriminate.
    + injection Heq as -> _. destruct (Hplain 34) as [H _]; [left; reflexivity|].
      apply H. reflexivity.
  - apply csvPlain_decode; try assumption.
    + intros c Hc. apply (csvNeedsQuotes_false a Ha c Hc).
    + intros c Hc. apply (csvNeedsQuotes_false b Hb c Hc).
Qed.

Lemma writeRow_cons (a : jsstring) (r : list jsstring) :
  writeRow (a :: r)
  = csvEscape a ++ match r with [] => [] | _ :: _ => 44 :: writeRow r end.
Proof.
  unfold writeRow. destruct r as [|b r]; simpl; [rewrite app_nil_r|]; reflexivity.
Qed.

(** X20: the CSV export loses nothing: a line determines its fields.
    Two rows with at least one column each are written as the same line
    only when they are the same row, whatever quotes, commas and line
    breaks the values contain. *)
Theorem writeRow_injective (r1 r2 : list jsstring) :
  r1 <> [] -> r2 <> [] -> writeRow r1 = writeRow r2 -> r1 = r2.
Proof.
  revert r2. induction r1 as [|a r1 IH]; intros [|b r2] H1 H2; try congruence.
  rewrite !writeRow_cons. intros Heq.
  apply csvEscape_decode in Heq as [-> Htail].
  - f_equal. destruct r1 as [|a1 r1]; destruct r2 as [|b1 r2]; try discriminate.
    + reflexivity.
    + injection Htail as Htail. apply IH; [discriminate|discriminate|exact Htail].
  - destruct r1; [left; reflexivity|right; eexists; reflexivity].
  - destruct r2; [left; reflexivity|right; eexists; reflexivity].
Qed.

Lemma writeRow_injective_witness :
  [js "a,b"; [115; 97; 121; 32; 34; 104; 105; 34]] <> []
  /\ [[97; 44; 98]; [115; 97; 121; 32; 34; 104; 105; 34]] <> []
  /\ [js "a,b"; [115; 97; 121; 32; 34; 104; 105; 34]]
     = [[97; 44; 98]; [115; 97; 121; 32; 34; 104; 105; 34]].
Proof.
  split; [discriminate|]. split; [discriminate|].
  apply writeRow_injective; [discriminate|discriminate|reflexivity].
Defined.

(** ** The dictionary builder *)

Lemma bucketIdForChar_first (c : Z) (rest : jsstring) (gid : string) :
  bucketIdForChar [c] = Some gid ->
  isCJK c = true /\ groupIdForChar [c] = Some gid.
Proof.
  intros Hb. split; [|exact Hb].
  unfold bucketIdForChar, codePointAt0 in Hb. unfold isCJK.
  assert (Hcode : (if (0xD800 <=? c) && (c <=? 0xDBFF) then Some c else Some c) = Some c)
    by (destruct ((0xD800 <=? c) && (c <=? 0xDBFF)); reflexivity).
  rewrite Hcode in Hb.
  destruct (Z.ltb_spec c 0x4E00); destruct (Z.ltb_spec 0x9FFF c);
    simpl in Hb; try discriminate. lia.
Qed.

Lemma maxLen_step (m n : nat) :
  (n <= (if (m <? n)%nat then n else m))%nat
  /\ (m <= (if (m <? n)%nat then n else m))%nat.
Proof. destruct (Nat.ltb_spec m n); lia. Qed.

Lemma lastWith_snoc (w : jsstring) (l : list Parsed) (e : Parsed) :
  lastWith w (l ++ [e])
  = if bool_decide (p_simp e = w) then Some e else lastWith w l.
Proof. unfold lastWith. rewrite rev_app_distr. reflexivity. Qed.

Lemma lastWith_Some (w : jsstring) (l : list Parsed) (e : Parsed) :
  lastWith w l = Some e ->
  p_simp e = w
  /\ exists before later, l = before ++ e :: later
       /\ forall e', In e' later -> p_simp e' <> w.
Proof.
  induction l as [|x l IH] using rev_ind; [discriminate|].
  rewrite lastWith_snoc. destruct (decide (p_simp x = w)) as [Hx|Hx].
  - rewrite bool_decide_eq_true_2 by exact Hx. intros [= ->].
    split; [exact Hx|]. exists l, []. split; [reflexivity|]. intros e' [].
  - rewrite bool_decide_eq_false_2 by exact Hx. intros Hl.
    destruct (IH Hl) as (Hw & before & later & -> & Hlater).
    split; [exact Hw|]. exists before, (later ++ [x]).
    split; [rewrite <- app_assoc; reflexivity|].
    intros e' Hin. apply in_app_or in Hin as [Hin|[<-|[]]]; auto.
Qed.

Section BuilderFacts.

Variable tagOf : Parsed -> string.
Variable posOf : Parsed -> option string.
Variable sortEntries : list (jsstring * Entry) -> list (jsstring * Entry).

Lemma builderInv_empty : builderInv tagOf posOf [] ∅.
Proof.
  split.
  - intros gid g Hg. rewrite lookup_empty in Hg. discriminate.
  - intros e c rest gid [].
Qed.

Lemma addParsed_inv l groups e groups' :
  builderInv tagOf posOf l groups -> addParsed tagOf posOf groups e = Some groups' ->
  builderInv tagOf posOf (l ++ [e]) groups'.
Proof.
  intros [HA HC]. unfold addParsed.
  destruct (p_simp e) as [|c rest] eqn:Hsimp; [discriminate|].
  destruct (bucketIdForChar [c]) as [gid0|] eqn:Hbucket.
  - destruct (p_en e) as [|s ss] eqn:Hen; [discriminate|].
    intros [= <-]. split.
    + intros gid g Hg.
      destruct (decide (gid0 = gid)) as [->|Hne].
      * rewrite lookup_insert_eq in Hg. injection Hg as <-.
        cbn [g_entries g_maxLen]. split.
        -- intros w v Hw. destruct (decide (c :: rest = w)) as [<-|Hw'].
           ++ rewrite lookup_insert_eq in Hw. injection Hw as <-.
              exists c, rest, e. split; [reflexivity|]. split; [exact Hbucket|].
              split; [rewrite lastWith_snoc, bool_decide_eq_true_2 by exact Hsimp;
                      reflexivity|].
              split; [reflexivity|].
              apply maxLen_step.
           ++ rewrite lookup_insert_ne in Hw by exact Hw'.
              destruct (groups !! gid) as [g|] eqn:Hg; simpl in *;
                [|rewrite lookup_empty in Hw; discriminate].
              destruct (HA gid g Hg) as [Hold _].
              destruct (Hold w v Hw) as (c' & rest' & e' & -> & Hb' & Hlast & -> & Hlen).
              exists c', rest', e'. split; [reflexivity|]. split; [exact Hb'|].
              split; [rewrite lastWith_snoc, bool_decide_eq_false_2 by congruence;
                      exact Hlast|].
              split; [reflexivity|].
              etransitivity; [exact Hlen|]. apply maxLen_step.
        -- match goal with
           | |- context [(?a <? ?b)%nat] => destruct (Nat.ltb_spec a b) as [Hlt|Hge]
           end.
           ++ exists (c :: rest). split; [|reflexivity].
              rewrite lookup_insert_eq. eauto.
           ++ destruct (groups !! gid) as [g|] eqn:Hg; simpl in *; [|lia].
              destruct (HA gid g Hg) as [_ (w & Hw & Hlen)].
              exists w. split; [|exact Hlen].
              destruct (decide (c :: rest = w)) as [<-|Hw'].
              ** rewrite lookup_insert_eq. eauto.
              ** rewrite lookup_insert_ne by exact Hw'. exact Hw.
      * rewrite lookup_insert_ne in Hg by exact Hne.
        destruct (HA gid g Hg) as [Hold Hmax]. split; [|exact Hmax].
        intros w v Hw.
        destruct (Hold w v Hw) as (c' & rest' & e' & -> & Hb' & Hlast & -> & Hlen).
        exists c', rest', e'. split; [reflexivity|]. split; [exact Hb'|].
        split; [|split; [reflexivity|exact Hlen]].
        rewrite lastWith_snoc, bool_decide_eq_false_2; [exact Hlast|].
        rewrite Hsimp. intros [= -> ->]. congruence.
    + intros e1 c1 rest1 gid1 Hin Hs1 Hb1.
      assert (Hcases : (exists g, groups !! gid1 = Some g
                                  /\ is_Some (g_entries g !! p_simp e1))
                       \/ (p_simp e1 = c :: rest /\ gid1 = gid0)).
      { apply in_app_or in Hin as [Hin|[<-|[]]].
        - left. apply (HC e1 c1 rest1 gid1 Hin Hs1 Hb1).
        - right. split; [exact Hsimp|]. rewrite Hsimp in Hs1.
          injection Hs1 as -> ->. congruence. }
      destruct Hcases as [(g & Hg & Hw)|[Hs ->]].
      * destruct (decide (gid0 = gid1)) as [->|Hne].
        -- eexists. split; [apply lookup_insert_eq|]. simpl. rewrite Hg. simpl.
           destruct (decide (c :: rest = p_simp e1)) as [<-|Hw'].
           ++ rewrite lookup_insert_eq. eauto.
           ++ rewrite lookup_insert_ne by exact Hw'. exact Hw.
        -- exists g. split; [|exact Hw]. rewrite lookup_insert_ne by exact Hne. exact Hg.
      * eexists. split; [apply lookup_insert_eq|]. simpl. rewrite Hs.
        rewrite lookup_insert_eq. eauto.
  - intros [= <-]. split.
    + intros gid g Hg. destruct (HA gid g Hg) as [Hold Hmax]. split; [|exact Hmax].
      intros w v Hw.
      destruct (Hold w v Hw) as (c' & rest' & e' & -> & Hb' & Hlast & -> & Hlen).
      exists c', rest', e'. split; [reflexivity|]. split; [exact Hb'|].
      split; [|split; [reflexivity|exact Hlen]].
      rewrite lastWith_snoc, bool_decide_eq_false_2; [exact Hlast|].
      rewrite Hsimp. intros [= -> ->]. congruence.
    + intros e1 c1 rest1 gid1 Hin Hs1 Hb1.
      apply in_app_or in Hin as [Hin|[<-|[]]].
      * apply (HC e1 c1 rest1 gid1 Hin Hs1 Hb1).
      * rewrite Hsimp in Hs1. injection Hs1 as -> ->. congruence.
Qed.

Lemma buildFrom_inv es : forall l groups groups',
  builderInv tagOf posOf l groups -> buildFrom tagOf posOf es groups = Some groups' ->
  builderInv tagOf posOf (l ++ es) groups'.
Proof.
  induction es as [|e es IH]; intros l groups groups' Hinv; simpl.
  - intros [= <-]. rewrite app_nil_r. exact Hinv.
  - destruct (addParsed tagOf posOf groups e) as [groups1|] eqn:Hadd; [|discriminate].
    intros Hbuild.
    replace (l ++ e :: es) with ((l ++ [e]) ++ es) by (rewrite <- app_assoc; reflexivity).
    apply (IH _ groups1); [|exact Hbuild].
    apply (addParsed_inv l groups); assumption.
Qed.

Lemma buildFrom_total es : forall groups,
  (forall e, In e es -> p_simp e <> [] /\ p_en e <> []) ->
  is_Some (buildFrom tagOf posOf es groups).
Proof.
  induction es as [|e es IH]; intros groups Hes; simpl; [eauto|].
  destruct (Hes e (or_introl eq_refl)) as [Hs He].
  unfold addParsed.
  destruct (p_simp e) as [|c rest]; [congruence|].
  destruct (bucketIdForChar [c]).
  - destruct (p_en e); [congruence|]. apply IH. intros e' Hin. apply Hes. right. exact Hin.
  - apply IH. intros e' Hin. apply Hes. right. exact Hin.
Qed.

Lemma chunkEntries_lookup g w v :
  (forall l, Permutation (sortEntries l) l) ->
  In (w, v) (chunkEntries sortEntries g) <-> g_entries g !! w = Some v.
Proof.
  intros Hperm. unfold chunkEntries.
  rewrite <- list_elem_of_In, (Hperm _). apply elem_of_map_to_list.
Qed.

Lemma chunkEntries_NoDup g :
  (forall l, Permutation (sortEntries l) l) ->
  NoDup (map fst (chunkEntries sortEntries g)).
Proof.
  intros Hperm. unfold chunkEntries.
  change (NoDup ((sortEntries (map_to_list (g_entries g))).*1)).
  rewrite (Hperm _). apply NoDup_fst_map_to_list.
Qed.

Lemma mergeEntries_lookup_in D (es : list (jsstring * Entry)) w v :
  NoDup (map fst es) -> In (w, v) es ->
  mergeEntries D (map Some es) !! w = Some v.
Proof.
  intros Hnodup Hin. rewrite mergeEntries_wellformed by exact Hnodup.
  destruct (List.find _ es) as [[k u]|] eqn:Hfind.
  - apply find_some in Hfind as [Hin' Hk]. simpl in Hk.
    apply bool_decide_eq_true in Hk. subst k. simpl. f_equal.
    apply (fst_unique es w); assumption.
  - exfalso. apply (find_none _ _ Hfind) in Hin. simpl in Hin.
    rewrite bool_decide_eq_true_2 in Hin by reflexivity. discriminate.
Qed.

Lemma chunkOf_bounded g :
  (forall l, Permutation (sortEntries l) l) ->
  (forall w, is_Some (g_entries g !! w) -> (length w <= g_maxLen g)%nat) ->
  chunkBounded (chunkOf sortEntries g).
Proof.
  intros Hperm Hlen. exists (g_maxLen g). split; [reflexivity|].
  intros es w v [= <-] Hin.
  apply list_elem_of_In, in_map_iff in Hin as ([w' v'] & [= -> ->] & Hin).
  apply chunkEntries_lookup in Hin; [|exact Hperm]. apply Hlen. eauto.
Qed.

(** X21: the builder does not throw on lines whose headword and sense
    list are not empty, which is what [parseCedictLine] returns.  In the
    buckets it builds, every headword is filed under the bucket of its
    first code unit, with the value of the last line kept for it (no
    later line has that headword); a bucket's [maxLen] is the length of its longest headword; the chunk
    written for the bucket is bounded by its [maxLen], and the index
    lists the bucket with its file name and [maxLen]. *)
Theorem buildGroups_sound (es : list Parsed) :
  ((forall e, In e es -> p_simp e <> [] /\ p_en e <> []) ->
   is_Some (buildGroups tagOf posOf es))
  /\ (forall built gid g,
        (forall l, Permutation (sortEntries l) l) ->
        buildGroups tagOf posOf es = Some built -> built !! gid = Some g ->
        (forall w v, g_entries g !! w = Some v ->
           exists c rest before e later,
             w = c :: rest /\ bucketIdForChar [c] = Some gid
             /\ es = before ++ e :: later /\ p_simp e = w
             /\ (forall e', In e' later -> p_simp e' <> w)
             /\ v = valOf tagOf posOf e)
        /\ (forall w, is_Some (g_entries g !! w) -> (length w <= g_maxLen g)%nat)
        /\ (exists w, is_Some (g_entries g !! w) /\ length w = g_maxLen g)
        /\ chunkBounded (chunkOf sortEntries g)
        /\ exists meta, groups (indexOf sortEntries built) !! gid = Some meta
                        /\ file meta = gid +:+ ".json"
                        /\ maxLen meta = g_maxLen g
                        /\ count meta = size (g_entries g)).
Proof.
  split; [apply buildFrom_total|].
  intros built gid g Hperm Hbuild Hg.
  pose proof (buildFrom_inv es [] ∅ built builderInv_empty Hbuild) as [HA _].
  simpl in HA. destruct (HA gid g Hg) as [Hold Hmax].
  assert (Hlen : forall w, is_Some (g_entries g !! w) -> (length w <= g_maxLen g)%nat).
  { intros w [v Hw]. destruct (Hold w v Hw) as (? & ? & ? & _ & _ & _ & _ & Hlen).
    exact Hlen. }
  split; [|split; [exact Hlen|split; [exact Hmax|split]]].
  - intros w v Hw. destruct (Hold w v Hw) as (c & rest & e & H1 & H2 & H3 & H4 & _).
    destruct (lastWith_Some w es e H3) as (Hsimp & before & later & Hes & Hlater).
    exists c, rest, before, e, later. auto 10.
  - apply chunkOf_bounded; assumption.
  - eexists. split.
    + unfold indexOf. cbn [groups]. rewrite map_lookup_imap, Hg. reflexivity.
    + cbn [file maxLen count]. repeat split.
      unfold chunkEntries. rewrite (Hperm _). apply length_map_to_list.
Qed.

(** X22: a dictionary built by [tools/build_dict.js] and loaded by the
    content script.  When the host serves the files of a build, every
    line the builder kept whose headword starts with a CJK character is
    found by the runtime once the bucket of that character is loaded:
    the store holds the headword with the value of the last line kept
    for it, [MAX_WORD_LEN] covers its length, and a store whose
    headwords were all within [MAX_WORD_LEN] stays so. *)
Theorem built_dictionary_loads (es : list Parsed) (built : gmap string Group)
    (env : Env) (st : Store) (e : Parsed) (c : Z) (rest : jsstring) (gid : string) :
  (forall l, Permutation (sortEntries l) l) ->
  buildGroups tagOf posOf es = Some built ->
  serves sortEntries env built ->
  In e es -> p_simp e = c :: rest ->
  groupIdForChar [c] = Some gid -> gid ∉ loadedGroups st ->
  indexMeta st = None
  \/ indexMeta st = Some (IndexWithGroups (indexOf sortEntries built)) ->
  let st' := fst (ensureGroupLoaded env [c] st) in
  (exists before e' later,
     es = before ++ e' :: later /\ p_simp e' = p_simp e
     /\ (forall e'', In e'' later -> p_simp e'' <> p_simp e)
     /\ DICT st' !! p_simp e = Some (valOf tagOf posOf e'))
  /\ (length (p_simp e) <= MAX_WORD_LEN st')%nat
  /\ gid ∈ loadedGroups st'
  /\ (keysBounded st -> keysBounded st').
Proof.
  intros Hperm Hbuild (Halive & Hindex & Hchunks) Hin Hsimp Hgid Hfresh Hidx st'.
  pose proof (buildFrom_inv es [] ∅ built builderInv_empty Hbuild) as [HA HC].
  simpl in HA, HC.
  destruct (HC e c rest gid Hin Hsimp Hgid) as (g & Hg & v & Hv).
  destruct (HA gid g Hg) as [Hold _].
  destruct (Hold _ _ Hv) as (c' & rest' & e' & _ & _ & Hlast & -> & Hlen).
  destruct (lastWith_Some _ es e' Hlast) as (Hsame & before & later & Hes & Hlater).
  assert (Hst' : st' = addLoaded gid (mergeChunk (chunkOf sortEntries g)
                         (setIndexMeta (IndexWithGroups (indexOf sortEntries built)) st))
                 \/ st' = addLoaded gid (mergeChunk (chunkOf sortEntries g) st)).
  { assert (Hmeta : groups (indexOf sortEntries built) !! gid
                    = Some {| file := gid +:+ ".json";
                              count := length (chunkEntries sortEntries g);
                              maxLen := g_maxLen g |}).
    { unfold indexOf. cbn [groups]. rewrite map_lookup_imap, Hg. reflexivity. }
    unfold st', ensureGroupLoaded. rewrite Halive, Hgid. simpl negb. cbv iota.
    rewrite bool_decide_eq_false_2 by exact Hfresh.
    unfold ensureIndex. destruct Hidx as [Hidx|Hidx]; rewrite Hidx.
    - left. rewrite Halive. simpl negb. cbv iota. rewrite Hindex.
      cbn [indexMeta setIndexMeta]. rewrite Hmeta. cbn [file].
      rewrite (Hchunks gid g Hg). reflexivity.
    - right. cbn [indexMeta]. rewrite Hidx, Hmeta. cbn [file].
      rewrite (Hchunks gid g Hg). reflexivity. }
  assert (Hfacts : forall st0, DICT st0 = DICT st -> MAX_WORD_LEN st0 = MAX_WORD_LEN st ->
            let st1 := addLoaded gid (mergeChunk (chunkOf sortEntries g) st0) in
            DICT st1 !! p_simp e = Some (valOf tagOf posOf e')
            /\ (length (p_simp e) <= MAX_WORD_LEN st1)%nat
            /\ gid ∈ loadedGroups st1
            /\ (keysBounded st -> keysBounded st1)).
  { intros st0 HD HM st1. split; [|split; [|split]].
    - unfold st1. cbn [DICT addLoaded mergeChunk chunkOf entries].
      apply mergeEntries_lookup_in; [apply chunkEntries_NoDup, Hperm|].
      apply chunkEntries_lookup; assumption.
    - unfold st1. cbn [MAX_WORD_LEN addLoaded mergeChunk chunkOf chunk_maxLen].
      destruct (Nat.ltb_spec 0 (g_maxLen g));
        destruct (Nat.ltb_spec (MAX_WORD_LEN st0) (g_maxLen g)); simpl; lia.
    - unfold st1. cbn [loadedGroups addLoaded]. apply elem_of_union_l, elem_of_singleton.
      reflexivity.
    - intros Hb. assert (Hb0 : keysBounded st0).
      { intros w u. rewrite HD, HM. apply Hb. }
      assert (Hb1 : keysBounded (mergeChunk (chunkOf sortEntries g) st0)).
      { apply mergeChunk_bounded; [exact Hb0|]. apply chunkOf_bounded; [exact Hperm|].
        intros w [u Hw]. destruct (Hold w u Hw) as (? & ? & ? & _ & _ & _ & _ & Hl).
        exact Hl. }
      exact Hb1. }
  destruct Hst' as [-> | ->].
  - destruct (Hfacts (setIndexMeta (IndexWithGroups (indexOf sortEntries built)) st)
               eq_refl eq_refl)
      as (H1 & H2 & H3 & H4).
    split; [exists before, e', later; auto|]. auto.
  - destruct (Hfacts st eq_refl eq_refl) as (H1 & H2 & H3 & H4).
    split; [exists before, e', later; auto|]. auto.
Qed.

End BuilderFacts.

Lemma example_built_eq :
  buildGroups example_tag example_pos example_lines = Some example_built.
Proof. vm_compute. reflexivity. Qed.

Lemma buildGroups_sound_witness :
  is_Some (buildGroups example_tag example_pos example_lines)
  /\ chunkBounded (chunkOf keepOrder example_group).
Proof.
  destruct (buildGroups_sound example_tag example_pos keepOrder example_lines)
    as [Htotal Hsound].
  split.
  - apply Htotal. intros e [<-|[<-|[]]]; split; discriminate.
  - destruct (Hsound example_built "g0" example_group) as (_ & _ & _ & Hb & _).
    + intros l. reflexivity.
    + vm_compute. reflexivity.
    + vm_compute. reflexivity.
    + exact Hb.
Defined.

Lemma built_dictionary_loads_witness :
  exists e', In e' example_lines
             /\ DICT (fst (ensureGroupLoaded build_env [0x4F60] initial_store)) !! ni_men
                = Some (valOf example_tag example_pos e').
Proof.
  cut (exists before e' later,
         example_lines = before ++ e' :: later /\ p_simp e' = ni_men
         /\ (forall e'', In e'' later -> p_simp e'' <> ni_men)
         /\ DICT (fst (ensureGroupLoaded build_env [0x4F60] initial_store)) !! ni_men
            = Some (valOf example_tag example_pos e')).
  { intros (before & e' & later & Hes & _ & _ & HD). exists e'. split; [|exact HD].
    rewrite Hes. apply in_or_app. right. left. reflexivity. }
  refine (proj1 (built_dictionary_loads example_tag example_pos keepOrder
                   example_lines example_built build_env initial_store
                   {| p_trad := [0x4F60; 0x5011]; p_simp := ni_men;
                      p_py := js "ni3 men5"; p_en := [js "you"] |}
                   0x4F60 [0x4EEC] "g0" _ _ _ _ _ _ _ _)).
  - intros l. reflexivity.
  - vm_compute. reflexivity.
  - split; [reflexivity|]. split; [reflexivity|].
    intros gid g Hg. unfold example_built in Hg.
    apply lookup_singleton_Some in Hg as [_ <-]. reflexivity.
  - left. reflexivity.
  - reflexivity.
  - vm_compute. reflexivity.
  - apply not_elem_of_empty.
  - left. reflexivity.
Defined.
